(** * Codex code-assembly engine: a shallow embedding and its properties

    The development follows the Python sources

      - [codex/chains/gen_branching_graph.py]  (typed parameter model),
      - [codex/dag.py]                         (graph builder, compiler, normaliser),
      - [codex/develop/agent.py]               (recursive decomposition driver).

    Python [str] values are modelled as [string]: the sequence of the code
    points of a text, each below 256; the string operations below are the
    Python ones on such texts.  Exceptions are values of [exn] carried by
    the [result] type; in-place mutation is explicit state passing. *)

From Stdlib Require Import String Ascii List Bool Arith ZArith Lia Permutation.
Import ListNotations.
Open Scope string_scope.
Open Scope list_scope.

(* ===================================================================== *)
(** * Part I: definitions                                                 *)
(* ===================================================================== *)

(** ** Exceptions and results *)

Inductive exn : Type :=
| MissingDependency        (* ValueError raised by add_node, dag.py:44 *)
| NotADAG                  (* nx.NetworkXError raised by compile_graph, dag.py:132 *)
| UnpackError              (* ValueError of [module, imported = ...], dag.py:66 *)
| UnparsableSource         (* raised by isort.code / black.format_str *)
| InvalidParamType         (* ValueError raised by check_param_type *)
| IndexError               (* list index out of range *)
| KeyError                 (* missing dictionary key *)
| RecursionLimitExceeded   (* ValueError raised by recursive_create_function, agent.py:74 *)
| OracleOutputInvalid      (* raised by DevelopAIBlock().invoke *)
| NetworkXUnfeasible       (* raised by nx.topological_generations *)
| RuntimeError             (* raised by nx.topological_generations *)
| OutOfFuel.               (* no Python exception: a bounded loop of the model
                              has used up its round budget *)

Inductive result (A : Type) : Type :=
| Ok (a : A)
| Raise (e : exn).
Arguments Ok {A} a.
Arguments Raise {A} e.

Definition bind {A B : Type} (r : result A) (k : A -> result B) : result B :=
  match r with
  | Ok a => k a
  | Raise e => Raise e
  end.

Notation "x <- r ;; k" := (bind r (fun x => k))
  (at level 61, r at next level, right associativity).

(** ** Python string operations *)

(** A Python [str] is a sequence of code points.  It is modelled by the
    [string] of its code points, one [ascii] (a number below 256) each:
    this covers every text whose code points are all below 256, and the
    operations below agree with Python's on all of them.  A text with a
    higher code point has no counterpart here. *)

Module PyStr.

(** [s.startswith(p)] *)
Fixpoint startswith (p s : string) : bool :=
  match p, s with
  | EmptyString, _ => true
  | String a p', String b s' => Ascii.eqb a b && startswith p' s'
  | String _ _, EmptyString => false
  end.

(** [p in s] for strings: some suffix of [s] starts with [p]. *)
Fixpoint contains (p s : string) : bool :=
  startswith p s ||
  match s with
  | EmptyString => false
  | String _ s' => contains p s'
  end.

(** [s.split(sep)] for a non-empty separator, scanning left to right for
    non-overlapping occurrences.  [skip] counts the characters of a matched
    separator still to be dropped. *)
Fixpoint split_go (sep : string) (skip : nat) (s : string) : list string :=
  match s with
  | EmptyString => [EmptyString]
  | String c s' =>
      match skip with
      | S k => split_go sep k s'
      | O =>
          if startswith sep s
          then EmptyString :: split_go sep (Nat.pred (String.length sep)) s'
          else match split_go sep 0 s' with
               | p :: ps => String c p :: ps
               | [] => [String c EmptyString]
               end
      end
  end.

Definition split (sep s : string) : list string := split_go sep 0 s.

(** [sep.join(l)] *)
Fixpoint join (sep : string) (l : list string) : string :=
  match l with
  | [] => EmptyString
  | [x] => x
  | x :: rest => (x ++ sep ++ join sep rest)%string
  end.

(** membership of a character in a set of characters *)
Fixpoint mem_char (c : ascii) (cs : string) : bool :=
  match cs with
  | EmptyString => false
  | String d cs' => Ascii.eqb c d || mem_char c cs'
  end.

(** [s.lstrip(cs)] and [s.rstrip(cs)] *)
Fixpoint lstrip (cs s : string) : string :=
  match s with
  | EmptyString => EmptyString
  | String c s' => if mem_char c cs then lstrip cs s' else s
  end.

Fixpoint rstrip (cs s : string) : string :=
  match s with
  | EmptyString => EmptyString
  | String c s' =>
      match rstrip cs s' with
      | EmptyString => if mem_char c cs then EmptyString else String c EmptyString
      | r => String c r
      end
  end.

(** The code points below 256 that [str.isspace] recognises, which are the
    ones [str.strip()] removes: TAB, LF, VT, FF, CR, FS, GS, RS, US, space,
    NEL (133) and the no-break space (160). *)
Definition whitespace : string :=
  String (ascii_of_nat 9) (String (ascii_of_nat 10) (String (ascii_of_nat 11)
  (String (ascii_of_nat 12) (String (ascii_of_nat 13) (String (ascii_of_nat 28)
  (String (ascii_of_nat 29) (String (ascii_of_nat 30) (String (ascii_of_nat 31)
  (String (ascii_of_nat 32) (String (ascii_of_nat 133)
  (String (ascii_of_nat 160) EmptyString))))))))))).

(** [s.strip()] *)
Definition strip (s : string) : string := rstrip whitespace (lstrip whitespace s).

(** [s.replace(old, new)] for a one-character [old]. *)
Fixpoint replace_char (old : ascii) (new : string) (s : string) : string :=
  match s with
  | EmptyString => EmptyString
  | String c s' =>
      if Ascii.eqb c old then (new ++ replace_char old new s')%string
      else String c (replace_char old new s')
  end.

(** The lower case of a code point below 256: the capitals are [A] to [Z]
    (65 to 90) and the Latin-1 capitals 192 to 222 except the multiplication
    sign 215; each has its lower case 32 further. *)
Definition lower_char (c : ascii) : ascii :=
  let n := nat_of_ascii c in
  if (Nat.leb 65 n && Nat.leb n 90)
     || (Nat.leb 192 n && Nat.leb n 222 && negb (Nat.eqb n 215))
  then ascii_of_nat (n + 32) else c.

(** [s.lower()]: below 256 the lower case of a text is that of its code
    points, one by one. *)
Fixpoint lower (s : string) : string :=
  match s with
  | EmptyString => EmptyString
  | String c s' => String (lower_char c) (lower s')
  end.

(** [x in l] for a collection of strings *)
Definition mem (x : string) (l : list string) : bool :=
  existsb (String.eqb x) l.

(** insertion into a sorted list, and [sorted(l)] (any sort returns the
    same list, the order on strings being total and antisymmetric) *)
Fixpoint insert_sorted (x : string) (l : list string) : list string :=
  match l with
  | [] => [x]
  | y :: l' => if String.leb x y then x :: l else y :: insert_sorted x l'
  end.

Definition sorted (l : list string) : list string :=
  fold_right insert_sorted [] l.

End PyStr.

(** ** gen_branching_graph.py: the typed parameter model *)

Module Params.

Definition basic_types : list string :=
  ["bool"; "int"; "float"; "complex"; "str"; "bytes";
   "tuple"; "list"; "dict"; "set"; "frozenset"].

(** [Param.check_param_type]: the validator returns the tag or raises. *)
Definition check_param_type (v : string) : result string :=
  if PyStr.mem v basic_types then Ok v
  else
    if PyStr.startswith "list[" v || PyStr.startswith "set[" v
       || PyStr.startswith "tuple[" v
    then
      match nth_error (PyStr.split "[" v) 1 with
      | None => Raise IndexError
      | Some piece =>
          let contained_type := PyStr.rstrip "]" piece in
          if PyStr.mem contained_type basic_types then Ok v
          else Raise InvalidParamType
      end
    else Raise InvalidParamType.

Definition accepts (v : string) : bool :=
  match check_param_type v with Ok _ => true | Raise _ => false end.

End Params.

(** ** Insertion-ordered dictionaries with string keys (Python [dict]) *)

Module Dict.
Section Dict.
  Context {V : Type}.

Definition t := list (string * V).

Definition keys (d : t) : list string := map fst d.

Fixpoint get (k : string) (d : t) : option V :=
    match d with
    | [] => None
    | (k', v) :: d' => if String.eqb k' k then Some v else get k d'
    end.

  (** [d[k] = v]: an existing key keeps its position. *)
Fixpoint set (k : string) (v : V) (d : t) : t :=
    match d with
    | [] => [(k, v)]
    | (k', v') :: d' =>
        if String.eqb k' k then (k, v) :: d' else (k', v') :: set k v d'
    end.

  (** [del d[k]] *)
Fixpoint del (k : string) (d : t) : t :=
    match d with
    | [] => []
    | (k', v') :: d' =>
        if String.eqb k' k then d' else (k', v') :: del k d'
    end.

  (** [{**d1, **d2}] *)
Definition merge (d1 d2 : t) : t :=
    fold_left (fun d kv => set (fst kv) (snd kv) d) d2 d1.
End Dict.
Arguments t V : clear implicits.
End Dict.

(** ** The data model of codex/model.py, as dag.py uses it *)

(** Modelled from the spec: the declarations of [Param], [RequiredPackage],
    [Node], [ExecutionPath] and [FunctionData] live in codex/model.py and
    codex/chains, outside the sources at hand; the records carry the fields
    that dag.py reads and writes, typed as in section 3 of the spec. *)
Record Param : Type := mkParam {
  param_name : string;
  param_type : string;
  param_description : string
}.

Record RequiredPackage : Type := mkPackage {
  package_name : string;
  version : option string;
  specifier : option string
}.

Record Node : Type := mkNode {
  name : string;
  code : string;
  input_params : option (list Param);
  output_params : option (list Param);
  required_packages : list RequiredPackage
}.

Record ExecutionPath : Type := mkExecutionPath {
  ep_name : string;
  ep_endpoint_name : string
}.

Record FunctionData : Type := mkFunctionData {
  function_name : string;
  fd_code : string;
  requirements_txt : string;
  endpoint_name : string
}.

Definition set_name (n : Node) (new_name : string) : Node :=
  {| name := new_name;
     code := code n;
     input_params := input_params n;
     output_params := output_params n;
     required_packages := required_packages n |}.

(** ** networkx: the part of [nx.DiGraph] that dag.py relies on *)

Module NX.

(** An edge [(u, v, connection_type)]. *)
Definition edge : Type := string * string * string.
Definition src (e : edge) : string := fst (fst e).
Definition dst (e : edge) : string := snd (fst e).
Definition ends (e : edge) : string * string := fst e.

(** [nodes] is the vertex dictionary (vertex name to its ["node"]
    attribute), [edges] the adjacency in insertion order. *)
Record DiGraph : Type := mkDiGraph {
  nodes : Dict.t Node;
  edges : list edge
}.

Definition empty : DiGraph := {| nodes := []; edges := [] |}.

Definition names (g : DiGraph) : list string := Dict.keys (nodes g).

Definition number_of_nodes (g : DiGraph) : nat := length (nodes g).

Definition has_node (g : DiGraph) (n : string) : bool := PyStr.mem n (names g).

(** [graph.add_node(n, node=node)] *)
Definition add_node (g : DiGraph) (n : string) (node : Node) : DiGraph :=
  {| nodes := Dict.set n node (nodes g); edges := edges g |}.

Fixpoint set_edge (u v c : string) (es : list edge) : list edge :=
  match es with
  | [] => [(u, v, c)]
  | e :: es' =>
      if String.eqb (src e) u && String.eqb (dst e) v then (u, v, c) :: es'
      else e :: set_edge u v c es'
  end.

(** [graph.add_edge(u, v, connection_type=c)], for endpoints that are
    vertices already (dag.py adds edges between existing vertices only). *)
Definition add_edge (g : DiGraph) (u v c : string) : DiGraph :=
  {| nodes := nodes g; edges := set_edge u v c (edges g) |}.

(** [G.neighbors(u)]: the successors of [u] *)
Definition neighbors (g : DiGraph) (u : string) : list string :=
  map dst (filter (fun e => String.eqb (src e) u) (edges g)).

Definition in_degree (g : DiGraph) (v : string) : nat :=
  length (filter (fun e => String.eqb (dst e) v) (edges g)).

(** State of Kahn's algorithm: [indegree_map] and the list
    [zero_indegree] under construction. *)
Definition kahn_state : Type := Dict.t Z * list string.

(** Body of [for child in G.neighbors(node)]. *)
Definition visit_child (st : kahn_state) (child : string) : result kahn_state :=
  let '(indegree_map, zero_indegree) := st in
  match Dict.get child indegree_map with
  | None => Raise RuntimeError
  | Some d =>
      let d' := (d - 1)%Z in
      if (d' =? 0)%Z
      then Ok (Dict.del child indegree_map, zero_indegree ++ [child])
      else Ok (Dict.set child d' indegree_map, zero_indegree)
  end.

Fixpoint visit_children (st : kahn_state) (children : list string)
  : result kahn_state :=
  match children with
  | [] => Ok st
  | c :: cs => st' <- visit_child st c ;; visit_children st' cs
  end.

(** Body of [for node in this_generation]. *)
Definition visit_node (g : DiGraph) (st : kahn_state) (node : string)
  : result kahn_state :=
  if has_node g node then visit_children st (neighbors g node)
  else Raise RuntimeError.

Fixpoint visit_generation (g : DiGraph) (st : kahn_state)
  (this_generation : list string) : result kahn_state :=
  match this_generation with
  | [] => Ok st
  | n :: ns => st' <- visit_node g st n ;; visit_generation g st' ns
  end.

(** [while zero_indegree: ...]; every round retires at least one vertex, so
    [length (nodes g)] rounds are enough: [OutOfFuel] is never returned
    (lemma [generations_loop_fuel]). *)
Fixpoint generations_loop (fuel : nat) (g : DiGraph) (indegree_map : Dict.t Z)
  (zero_indegree : list string) : result (list (list string)) :=
  match zero_indegree with
  | [] =>
      match indegree_map with
      | [] => Ok []
      | _ :: _ => Raise NetworkXUnfeasible
      end
  | _ :: _ =>
      match fuel with
      | O => Raise OutOfFuel
      | S fuel' =>
          st <- visit_generation g (indegree_map, []) zero_indegree ;;
          gens <- generations_loop fuel' g (fst st) (snd st) ;;
          Ok (zero_indegree :: gens)
      end
  end.

Definition initial_indegree_map (g : DiGraph) : Dict.t Z :=
  map (fun v => (v, Z.of_nat (in_degree g v)))
      (filter (fun v => Nat.ltb 0 (in_degree g v)) (names g)).

Definition initial_zero_indegree (g : DiGraph) : list string :=
  filter (fun v => Nat.eqb (in_degree g v) 0) (names g).

(** [nx.topological_generations(G)] *)
Definition topological_generations (g : DiGraph) : result (list (list string)) :=
  generations_loop (length (nodes g)) g
    (initial_indegree_map g) (initial_zero_indegree g).

(** [nx.topological_sort(G)]: the generations, flattened. *)
Definition topological_sort (g : DiGraph) : result (list string) :=
  gens <- topological_generations g ;; Ok (concat gens).

(** [nx.is_directed_acyclic_graph(G)]: [has_cycle] exhausts the generations
    and catches [NetworkXUnfeasible] only. *)
Definition is_directed_acyclic_graph (g : DiGraph) : result bool :=
  match topological_generations g with
  | Ok _ => Ok true
  | Raise NetworkXUnfeasible => Ok false
  | Raise e => Raise e
  end.

End NX.

(** ** dag.py *)

(** Modelled from the spec: [Node.request_to_code], [Node.response_to_code]
    and [Node.to_code] are methods of codex/model.py; section 4.2 describes
    them as the emitters of the function header, of the return statement and
    of a call site together with the uniquified output names.  They are
    parameters of the compiler. *)
Record Emitters : Type := mkEmitters {
  request_to_code : Node -> string;
  response_to_code : Node -> Dict.t string -> string;
  to_code : Node -> Dict.t string -> string * Dict.t string
}.

(** The third-party formatters [isort.code] and [black.format_str]; both
    raise on input they cannot parse. *)
Record Formatters : Type := mkFormatters {
  isort_code : string -> result string;
  black_format_str : string -> result string
}.

Module Dag.

Definition param_key (p : Param) : string :=
  (param_name p ++ ": " ++ param_type p)%string.

(** [input_params_needed]: the list of keys, or the empty dict. *)
Definition input_params_needed (node : Node) : list string :=
  match input_params node with
  | Some (p :: ps) => map param_key (p :: ps)
  | Some [] => []
  | None => []
  end.

(** [for output_param in existing_node.output_params] *)
Definition scan_outputs (needed : list string) (n : string)
  (outs : list Param) (providers : Dict.t string) : Dict.t string :=
  fold_left
    (fun prov output_param =>
       if PyStr.mem (param_key output_param) needed
       then Dict.set (param_key output_param) n prov
       else prov)
    outs providers.

(** [for n in graph.nodes] *)
Definition scan_nodes (needed : list string) (vertices : Dict.t Node)
  : Dict.t string :=
  fold_left
    (fun prov (kv : string * Node) =>
       match output_params (snd kv) with
       | Some outs => scan_outputs needed (fst kv) outs prov
       | None => prov
       end)
    vertices [].

(** [for param_key, provider_node in providers.items(): graph.add_edge(...)]
    with [connection_type = param_key[0]], the first character of the key. *)
Fixpoint connect (g : NX.DiGraph) (node_name : string)
  (providers : Dict.t string) : result bool * NX.DiGraph :=
  match providers with
  | [] => (Ok true, g)
  | (key, provider_node) :: rest =>
      match key with
      | EmptyString => (Raise IndexError, g)
      | String c _ =>
          connect (NX.add_edge g provider_node node_name (String c EmptyString))
                  node_name rest
      end
  end.

(** [add_node(graph, node_name, node)]: the outcome and the graph object
    as the call leaves it. *)
Definition add_node (graph : NX.DiGraph) (node_name : string) (node : Node)
  : result bool * NX.DiGraph :=
  if Nat.eqb (NX.number_of_nodes graph) 0
  then (Ok true, NX.add_node graph node_name node)
  else
    let needed := input_params_needed node in
    let providers := scan_nodes needed (NX.nodes graph) in
    if negb (Nat.eqb (length needed) (length providers))
    then (Raise MissingDependency, graph)
    else connect (NX.add_node graph node_name node) node_name providers.

(** *** refactor_imports *)

Definition set_add (x : string) (s : list string) : list string :=
  if PyStr.mem x s then s else s ++ [x].

Record import_state : Type := mkImportState {
  from_imports : Dict.t (list string);
  import_lines : list string;
  other_lines : list string
}.

(** Body of [for line in file_content.split("\n")]. *)
Definition scan_line (st : import_state) (line : string) : result import_state :=
  if PyStr.startswith "from " line then
    match PyStr.split " import " line with
    | [module; imported] =>
        let items :=
          match Dict.get module (from_imports st) with
          | Some items => set_add imported items
          | None => [imported]
          end in
        Ok {| from_imports := Dict.set module items (from_imports st);
              import_lines := import_lines st;
              other_lines := other_lines st |}
    | _ => Raise UnpackError
    end
  else if PyStr.startswith "import " line then
    Ok {| from_imports := from_imports st;
          import_lines := set_add line (import_lines st);
          other_lines := other_lines st |}
  else
    Ok {| from_imports := from_imports st;
          import_lines := import_lines st;
          other_lines := other_lines st ++ [line] |}.

Fixpoint scan_lines (st : import_state) (lines : list string)
  : result import_state :=
  match lines with
  | [] => Ok st
  | line :: rest => st' <- scan_line st line ;; scan_lines st' rest
  end.

Definition newline : string := String (ascii_of_nat 10) EmptyString.

Definition refactor_imports (file_content : string) : result string :=
  st <- scan_lines {| from_imports := []; import_lines := []; other_lines := [] |}
                   (PyStr.split newline file_content) ;;
  let consolidated_from_imports :=
    map (fun mi : string * list string =>
           (fst mi ++ " import " ++ PyStr.join ", " (PyStr.sorted (snd mi)))%string)
        (from_imports st) in
  let all_imports := PyStr.sorted (import_lines st ++ consolidated_from_imports) in
  let sorted_imports := PyStr.join newline all_imports in
  let rest_of_file := PyStr.join newline (other_lines st) in
  Ok (sorted_imports ++ newline ++ newline ++ rest_of_file)%string.

(** *** format_and_sort_code *)

Definition format_and_sort_code (F : Formatters) (file_content : string)
  : result string :=
  sorted_content <- isort_code F file_content ;;
  black_format_str F sorted_content.

(** *** generate_requirements_txt *)

(** [resolved_packages[package.package_name].append((version, specifier))]
    on a [defaultdict(list)] *)
Definition aggregate (packages : list RequiredPackage)
  : Dict.t (list (option string * option string)) :=
  fold_left
    (fun resolved package =>
       let entry := (version package, specifier package) in
       match Dict.get (package_name package) resolved with
       | Some l => Dict.set (package_name package) (l ++ [entry]) resolved
       | None => Dict.set (package_name package) [entry] resolved
       end)
    packages [].

(** Truth value of an optional string. *)
Definition truthy (o : option string) : bool :=
  match o with
  | Some s => negb (String.eqb s EmptyString)
  | None => false
  end.

Definition text (o : option string) : string :=
  match o with Some s => s | None => EmptyString end.

Definition requirement (package : string) (vs : option string * option string)
  : string :=
  let '(version, specifier) := vs in
  if truthy version && truthy specifier
  then (package ++ text specifier ++ text version)%string
  else if truthy version then (package ++ "==" ++ text version)%string
  else package.

Fixpoint requirement_lines
  (items : Dict.t (list (option string * option string))) : result (list string) :=
  match items with
  | [] => Ok []
  | (package, versions_specifiers) :: rest =>
      match versions_specifiers with
      | [] => Raise IndexError
      | first :: _ =>
          lines <- requirement_lines rest ;;
          Ok (requirement package first :: lines)
      end
  end.

Definition generate_requirements_txt (packages : list RequiredPackage)
  : result string :=
  requirements <- requirement_lines (aggregate packages) ;;
  Ok (PyStr.join newline requirements).

(** *** compile_graph *)

(** [ep.name.replace(" ", "_").replace("-", "_").replace("/", "")
       .strip().lower() + "_request"] *)
Definition derive_function_name (route_name : string) : string :=
  (PyStr.lower
     (PyStr.strip
        (PyStr.replace_char "/" ""
           (PyStr.replace_char "-" "_"
              (PyStr.replace_char " " "_" route_name))))
   ++ "_request")%string.

(** The local variables of the walk, and the vertex dictionary whose
    [Node] objects the walk renames in place. *)
Record walk_state : Type := mkWalk {
  output_name_map : Dict.t string;
  python_file : string;
  graph_script : string;
  requirements : list RequiredPackage;
  store : Dict.t Node
}.

Section Compile.
  Variable E : Emitters.
  Variable F : Formatters.

  (** Body of [for node_name in nx.topological_sort(graph)]. *)
Definition visit (fname : string) (st : walk_state) (node_name : string)
    : result walk_state :=
    match Dict.get node_name (store st) with
    | None => Raise KeyError
    | Some node =>
        let reqs := requirements st ++ required_packages node in
        if PyStr.contains "request" node_name then
          let renamed := set_name node fname in
          Ok {| output_name_map := output_name_map st;
                python_file := python_file st;
                graph_script := (graph_script st ++ request_to_code E renamed)%string;
                requirements := reqs;
                store := Dict.set node_name renamed (store st) |}
        else if PyStr.contains "response" node_name then
          Ok {| output_name_map := output_name_map st;
                python_file := python_file st;
                graph_script :=
                  (graph_script st
                   ++ response_to_code E node (output_name_map st))%string;
                requirements := reqs;
                store := store st |}
        else
          let call := to_code E node (output_name_map st) in
          Ok {| output_name_map := Dict.merge (output_name_map st) (snd call);
                python_file :=
                  (python_file st ++ newline ++ code node ++ newline)%string;
                graph_script := (graph_script st ++ fst call ++ newline)%string;
                requirements := reqs;
                store := store st |}
    end.

Fixpoint walk (fname : string) (st : walk_state) (order : list string)
    : option exn * walk_state :=
    match order with
    | [] => (None, st)
    | node_name :: rest =>
        match visit fname st node_name with
        | Raise e => (Some e, st)
        | Ok st' => walk fname st' rest
        end
    end.

Definition initial_walk (graph : NX.DiGraph) : walk_state :=
    {| output_name_map := []; python_file := EmptyString;
       graph_script := EmptyString; requirements := [];
       store := NX.nodes graph |}.

Definition with_store (graph : NX.DiGraph) (st : walk_state) : NX.DiGraph :=
    {| NX.nodes := store st; NX.edges := NX.edges graph |}.

  (** The source unit handed to the normaliser. *)
Definition assemble (st : walk_state) : string :=
    (python_file st ++ newline ++ graph_script st)%string.

  (** [compile_graph(graph, ep)]: the outcome and the graph object as the
      call leaves it. *)
Definition compile_graph (graph : NX.DiGraph) (ep : ExecutionPath)
    : result FunctionData * NX.DiGraph :=
    match NX.is_directed_acyclic_graph graph with
    | Raise e => (Raise e, graph)
    | Ok false => (Raise NotADAG, graph)
    | Ok true =>
        let fname := derive_function_name (ep_name ep) in
        match NX.topological_sort graph with
        | Raise e => (Raise e, graph)
        | Ok order =>
            match walk fname (initial_walk graph) order with
            | (Some e, st) => (Raise e, with_store graph st)
            | (None, st) =>
                (requirements_txt <- generate_requirements_txt (requirements st) ;;
                 source <- refactor_imports (assemble st) ;;
                 formatted <- format_and_sort_code F source ;;
                 Ok {| function_name := fname;
                       fd_code := formatted;
                       requirements_txt := requirements_txt;
                       endpoint_name := ep_endpoint_name ep |},
                 with_store graph st)
            end
        end
    end.
End Compile.

End Dag.

(** ** develop/agent.py *)

Module Agent.

(** The prisma [Function] row, as agent.py reads it. *)
#[local] Unset Elimination Schemes.
Inductive Function : Type :=
| mkFunction (id : string) (functionName : string) (template : string)
             (ChildFunction : option (list Function)).
#[local] Set Elimination Schemes.

Definition id (f : Function) : string :=
  match f with mkFunction i _ _ _ => i end.
Definition functionName (f : Function) : string :=
  match f with mkFunction _ n _ _ => n end.
Definition template (f : Function) : string :=
  match f with mkFunction _ _ t _ => t end.
Definition ChildFunction (f : Function) : option (list Function) :=
  match f with mkFunction _ _ _ c => c end.

(** [codex.develop.model.FunctionDef], the entries of the registry. *)
Record FunctionDef : Type := mkFunctionDef {
  fd_name : string;
  function_template : string
}.

(** The default of [RECURSION_DEPTH_LIMIT]. *)
Definition DEFAULT_RECURSION_DEPTH_LIMIT : Z := 3.

Section Driver.
  (** Opaque collaborators: request identifiers, the route record and the
      persistence layer the oracle writes to. *)
  Variables Identifiers APIRouteSpec Database : Type.

  (** [RECURSION_DEPTH_LIMIT = int(os.environ.get("RECURSION_DEPTH_LIMIT", 3))] *)
  Variable RECURSION_DEPTH_LIMIT : Z.

  (** What a call can change: the module-level list
      [generated_function_defs] and the database. *)
Record World : Type := mkWorld {
    generated_function_defs : list FunctionDef;
    database : Database
  }.

Record InvokeParams : Type := mkInvokeParams {
    ip_function_name : string;
    ip_description : string;
    ip_provided_functions : list string;
    ip_api_route : APIRouteSpec;
    ip_function_id : option string
  }.

  (** Modelled from the spec: [DevelopAIBlock().invoke] belongs to
      codex/develop/develop.py; section 6 gives the generation oracle as a
      black box that returns a function definition or fails, and section 4.4
      lets every invocation update the registry. *)
  Variable invoke : World -> Identifiers -> InvokeParams -> result Function * World.

  (** [[f.function_template for f in generated_function_defs if f.name != n]] *)
Definition provided_functions (w : World) (n : string) : list string :=
    map function_template
        (filter (fun f => negb (String.eqb (fd_name f) n))
                (generated_function_defs w)).

  (** [for child in children: await body(child)]; the first exception ends
      the loop. *)
Fixpoint for_each (body : World -> Function -> result Function * World)
    (w : World) (children : list Function) : option exn * World :=
    match children with
    | [] => (None, w)
    | child :: rest =>
        match body w child with
        | (Raise e, w') => (Some e, w')
        | (Ok _, w') => for_each body w' rest
        end
    end.

Definition children_of (f : Function) : list Function :=
    match ChildFunction f with
    | Some l => l
    | None => []
    end.

  (** The [invoke_params] that [recursive_create_function] builds for
      [function_def]. *)
Definition invoke_params (w : World) (route_description : string)
    (function_def : Function) (api_route : APIRouteSpec) : InvokeParams :=
    {| ip_function_name := functionName function_def;
       ip_description :=
         (Dag.newline ++ template function_def ++ Dag.newline ++ Dag.newline
          ++ "High-level Goal: " ++ route_description)%string;
       ip_provided_functions := provided_functions w (functionName function_def);
       ip_api_route := api_route;
       ip_function_id := Some (id function_def) |}.

  (** [recursive_create_function]; [fuel] bounds the nesting of calls, and
      the outcome does not depend on it once it exceeds the range the guard
      leaves open (lemma [recursive_create_function_fuel]). *)
Fixpoint recursive_create_function (fuel : nat) (w : World)
    (ids : Identifiers) (route_description : string) (function_def : Function)
    (api_route : APIRouteSpec) (depth : Z) {struct fuel}
    : result Function * World :=
    match fuel with
    | O => (Raise OutOfFuel, w)
    | S fuel' =>
        if (depth >? RECURSION_DEPTH_LIMIT)%Z
        then (Raise RecursionLimitExceeded, w)
        else
          match invoke w ids
                  (invoke_params w route_description function_def api_route) with
          | (Raise e, w') => (Raise e, w')
          | (Ok route_function, w') =>
              match for_each
                      (fun w0 child =>
                         recursive_create_function fuel' w0 ids route_description
                           child api_route (depth + 1)%Z)
                      w' (children_of route_function) with
              | (Some e, w'') => (Raise e, w'')
              | (None, w'') => (Ok route_function, w'')
              end
          end
    end.

  (** [develop_route]: the registry is reset, the route's own function is
      generated, and every declared child is created at depth 0. *)
Definition develop_route (fuel : nat) (w : World) (ids : Identifiers)
    (route_description : string) (func_name : string) (api_route : APIRouteSpec)
    : result Function * World :=
    let w0 := {| generated_function_defs := []; database := database w |} in
    match invoke w0 ids
            {| ip_function_name := func_name;
               ip_description := route_description;
               ip_provided_functions := provided_functions w0 func_name;
               ip_api_route := api_route;
               ip_function_id := None |} with
    | (Raise e, w') => (Raise e, w')
    | (Ok route_function, w') =>
        match for_each
                (fun w1 child =>
                   recursive_create_function fuel w1 ids route_description
                     child api_route 0%Z)
                w' (children_of route_function) with
        | (Some e, w'') => (Raise e, w'')
        | (None, w'') => (Ok route_function, w'')
        end
    end.
End Driver.

Arguments generated_function_defs {Database} w.
Arguments database {Database} w.
Arguments mkWorld {Database} generated_function_defs database.
Arguments ip_function_name {APIRouteSpec} i.
Arguments ip_description {APIRouteSpec} i.
Arguments ip_provided_functions {APIRouteSpec} i.
Arguments ip_api_route {APIRouteSpec} i.
Arguments ip_function_id {APIRouteSpec} i.
Arguments provided_functions {Database} w n.
Arguments for_each {Database} body w children.
Arguments invoke_params {APIRouteSpec Database} w route_description function_def api_route.
Arguments recursive_create_function {Identifiers APIRouteSpec Database}
  RECURSION_DEPTH_LIMIT invoke fuel w ids route_description function_def api_route depth.
Arguments develop_route {Identifiers APIRouteSpec Database}
  RECURSION_DEPTH_LIMIT invoke fuel w ids route_description func_name api_route.

End Agent.

(** ** Vocabulary of the statements *)

(** *** Parameter tags *)



Definition has_container_prefix (v : string) : bool :=
  PyStr.startswith "list[" v || PyStr.startswith "set[" v
  || PyStr.startswith "tuple[" v.

(** *** The requirement manifest *)

(** The packages of a list that carry a name not seen before, in order. *)
Fixpoint first_seen_from (seen : list string) (packages : list RequiredPackage)
  : list RequiredPackage :=
  match packages with
  | [] => []
  | p :: rest =>
      if PyStr.mem (package_name p) seen then first_seen_from seen rest
      else p :: first_seen_from (seen ++ [package_name p]) rest
  end.

Definition first_seen (packages : list RequiredPackage) : list RequiredPackage :=
  first_seen_from [] packages.

(** The requirement line of one package reference. *)
Definition requirement_line (p : RequiredPackage) : string :=
  Dag.requirement (package_name p) (version p, specifier p).


(** What [requirement_lines] reads of the aggregated dictionary: each key
    with the head of its list. *)
Definition heads (d : Dict.t (list (option string * option string)))
  : list (string * (option string * option string)) :=
  map (fun kv => (fst kv, hd (None, None) (snd kv))) d.

(** The body of the aggregation loop. *)
Definition aggregate_step
  (resolved : Dict.t (list (option string * option string)))
  (package : RequiredPackage) :=
  let entry := (version package, specifier package) in
  match Dict.get (package_name package) resolved with
  | Some l => Dict.set (package_name package) (l ++ [entry]) resolved
  | None => Dict.set (package_name package) [entry] resolved
  end.

Definition nonempty_values (d : Dict.t (list (option string * option string))) : Prop :=
  Forall (fun kv => snd kv <> []) d.

(** *** Providers of a key *)

(** A stored node declares an output with the given key. *)
Definition produces (existing : Node) (key : string) : Prop :=
  exists outs out,
    output_params existing = Some outs /\ In out outs /\ Dag.param_key out = key.

(** Some vertex of the graph produces the key. *)
Definition provided (graph : NX.DiGraph) (key : string) : Prop :=
  exists n existing, In (n, existing) (NX.nodes graph) /\ produces existing key.

(** The body of the loop over the vertices in [add_node]. *)
Definition scan_step (needed : list string) (prov : Dict.t string)
  (kv : string * Node) : Dict.t string :=
  match output_params (snd kv) with
  | Some outs => Dag.scan_outputs needed (fst kv) outs prov
  | None => prov
  end.

Definition output_keys (node : Node) : list string :=
  match output_params node with
  | Some outs => map Dag.param_key outs
  | None => []
  end.

(** The vertices with an edge to [n] that produce [key]. *)
Definition providers_of (g : NX.DiGraph) (n key : string) : list (string * Node) :=
  filter (fun kv =>
            existsb (fun e => String.eqb (NX.src e) (fst kv) && String.eqb (NX.dst e) n)
                    (NX.edges g)
            && PyStr.mem key (output_keys (snd kv)))
         (NX.nodes g).

(** *** Graphs: well-formedness, paths, cycles and orders *)

(** Every edge of the graph joins two of its vertices. *)
Definition edge_closed (g : NX.DiGraph) : Prop :=
  forall e, In e (NX.edges g) -> In (NX.src e) (NX.names g) /\ In (NX.dst e) (NX.names g).

(** The invariants of an [nx.DiGraph]: vertex names are the keys of a
    dictionary, there is at most one edge from a vertex to another, and
    every edge joins two vertices. *)
Record wf (g : NX.DiGraph) : Prop := mkWf {
  wf_names : NoDup (NX.names g);
  wf_edges : NoDup (map NX.ends (NX.edges g));
  wf_closed : edge_closed g
}.

(** The same, as a test. *)
Fixpoint nodupb (l : list string) : bool :=
  match l with
  | [] => true
  | x :: rest => negb (PyStr.mem x rest) && nodupb rest
  end.

Definition pair_eqb (a b : string * string) : bool :=
  String.eqb (fst a) (fst b) && String.eqb (snd a) (snd b).

Fixpoint nodup_pairsb (l : list (string * string)) : bool :=
  match l with
  | [] => true
  | x :: rest => negb (existsb (pair_eqb x) rest) && nodup_pairsb rest
  end.

Definition wfb (g : NX.DiGraph) : bool :=
  nodupb (NX.names g)
  && nodup_pairsb (map NX.ends (NX.edges g))
  && forallb (fun e => PyStr.mem (NX.src e) (NX.names g)
                       && PyStr.mem (NX.dst e) (NX.names g))
             (NX.edges g).

(** The graphs that [add_node] builds from the empty graph. *)
Inductive built : NX.DiGraph -> Prop :=
| built_empty : built NX.empty
| built_add (g : NX.DiGraph) (node_name : string) (node : Node) :
    built g -> built (snd (Dag.add_node g node_name node)).

Definition has_edge (g : NX.DiGraph) (u v : string) : Prop :=
  exists e, In e (NX.edges g) /\ NX.src e = u /\ NX.dst e = v.

(** A path of at least one edge. *)
Inductive path (g : NX.DiGraph) : string -> string -> Prop :=
| path_edge (u v : string) : has_edge g u v -> path g u v
| path_step (u v w : string) : has_edge g u v -> path g v w -> path g u w.

Definition has_cycle (g : NX.DiGraph) : Prop := exists v, path g v v.

Definition acyclic (g : NX.DiGraph) : Prop := forall v, ~ path g v v.

(** Position of the first occurrence of [x] in [l] ([length l] when [x]
    does not occur). *)
Fixpoint index_of (x : string) (l : list string) : nat :=
  match l with
  | [] => 0
  | y :: l' => if String.eqb y x then 0 else S (index_of x l')
  end.

(** [order] lists [u] before [v]. *)
Definition before (order : list string) (u v : string) : Prop :=
  In u order /\ In v order /\ index_of u order < index_of v order.

(** A list in which every vertex comes after the sources of all its
    incoming edges, built from the left. *)
Inductive topo (g : NX.DiGraph) : list string -> Prop :=
| topo_nil : topo g []
| topo_snoc (order : list string) (v : string) :
    topo g order ->
    (forall e, In e (NX.edges g) -> NX.dst e = v -> In (NX.src e) order) ->
    topo g (order ++ [v]).

(** A list of vertices each joined to the next by an edge. *)
Fixpoint is_walk (g : NX.DiGraph) (l : list string) : Prop :=
  match l with
  | [] => True
  | x :: t =>
      match t with
      | [] => True
      | y :: _ => has_edge g x y /\ is_walk g t
      end
  end.

(** *** The invariant of Kahn's algorithm *)

Definition ends_eqb (e e0 : NX.edge) : bool :=
  String.eqb (NX.src e) (NX.src e0) && String.eqb (NX.dst e) (NX.dst e0).

(** A set of consumed edges, with one more. *)
Definition consume (cons : NX.edge -> bool) (e0 : NX.edge) : NX.edge -> bool :=
  fun e => cons e || ends_eqb e e0.

(** Edges whose source has been fully processed, and the edges from the
    vertex [u] under way to its children visited so far. *)
Definition processed (P : list string) : NX.edge -> bool :=
  fun e => PyStr.mem (NX.src e) P.

Definition under_way (P : list string) (u : string) (cs : list string)
  : NX.edge -> bool :=
  fun e => processed P e || (String.eqb (NX.src e) u && PyStr.mem (NX.dst e) cs).

Section KahnSpec.
Variable g : NX.DiGraph.

(** Incoming edges of [v] that have not been consumed. *)
Definition pending (cons : NX.edge -> bool) (v : string) : nat :=
  length (filter (fun e => String.eqb (NX.dst e) v && negb (cons e)) (NX.edges g)).

(** The loop invariant: [cons] marks the edges whose decrement has been
    applied, [order] lists the vertices that have reached in-degree zero, in
    the order they did, and [indegree_map] holds the other vertices with
    their count of edges still to come. *)
Record kahn_inv (cons : NX.edge -> bool) (order : list string)
  (indegree_map : Dict.t Z) : Prop := mkKahnInv {
  ki_nodup : NoDup order;
  ki_incl : incl order (NX.names g);
  ki_keys : NoDup (Dict.keys indegree_map);
  ki_count : forall v, In v (NX.names g) ->
    (pending cons v = 0 /\ In v order /\ Dict.get v indegree_map = None)
    \/ (0 < pending cons v /\ ~ In v order
        /\ Dict.get v indegree_map = Some (Z.of_nat (pending cons v)));
  ki_outside : forall v, ~ In v (NX.names g) -> Dict.get v indegree_map = None;
  ki_topo : topo g order;
  ki_sources : forall e, In e (NX.edges g) -> cons e = true -> In (NX.src e) order
}.

(** What a complete run delivers: every vertex once, each after the
    sources of its incoming edges. *)
Definition topological_order (order : list string) : Prop :=
  NoDup order
  /\ (forall v, In v order <-> In v (NX.names g))
  /\ topo g order.

End KahnSpec.

(** *** Emissions of the compiler walk *)

(** The three kinds of emission, chosen by the vertex name as
    [compile_graph] does. *)
Inductive emission_kind : Type := StartEmission | EndEmission | CallSite.

Definition kind_eqb (a b : emission_kind) : bool :=
  match a, b with
  | StartEmission, StartEmission => true
  | EndEmission, EndEmission => true
  | CallSite, CallSite => true
  | _, _ => false
  end.

Definition role_of (node_name : string) : emission_kind :=
  if PyStr.contains "request" node_name then StartEmission
  else if PyStr.contains "response" node_name then EndEmission
  else CallSite.

Record emission : Type := mkEmission {
  em_kind : emission_kind;
  em_node : string;
  em_text : string
}.

(** The text one visit appends to [graph_script]. *)
Definition emitted (E : Emitters) (fname : string) (st : Dag.walk_state)
  (node_name : string) : string :=
  match Dict.get node_name (Dag.store st) with
  | None => EmptyString
  | Some node =>
      match role_of node_name with
      | StartEmission => request_to_code E (set_name node fname)
      | EndEmission => response_to_code E node (Dag.output_name_map st)
      | CallSite => (fst (to_code E node (Dag.output_name_map st)) ++ Dag.newline)%string
      end
  end.

(** The emissions of a walk, in the order they are made. *)
Fixpoint trace (E : Emitters) (fname : string) (st : Dag.walk_state)
  (order : list string) : list emission :=
  match order with
  | [] => []
  | node_name :: rest =>
      match Dag.visit E fname st node_name with
      | Raise _ => []
      | Ok st' =>
          mkEmission (role_of node_name) node_name (emitted E fname st node_name)
          :: trace E fname st' rest
      end
  end.

(** The emitted texts, concatenated. *)
Definition script (tr : list emission) : string :=
  fold_right (fun e s => (em_text e ++ s)%string) EmptyString tr.

Definition count_kind (k : emission_kind) (tr : list emission) : nat :=
  length (filter (fun e => kind_eqb (em_kind e) k) tr).

Definition count_role (k : emission_kind) (node_names : list string) : nat :=
  length (filter (fun n => kind_eqb (role_of n) k) node_names).

(** What the stored node of a vertex becomes when the vertex is visited. *)
Definition renamed_if_start (fname node_name : string) (node : Node) : Node :=
  match role_of node_name with
  | StartEmission => set_name node fname
  | _ => node
  end.

(** What [compile_graph] returns once the acyclicity check has passed and
    the walk has gone through: the manifest never fails, and the code is
    what the two normalisation stages make of the assembled source. *)
Definition finish (F : Formatters) (fname : string) (ep : ExecutionPath)
  (st : Dag.walk_state) : result FunctionData :=
  source <- Dag.refactor_imports (Dag.assemble st) ;;
  formatted <- Dag.format_and_sort_code F source ;;
  Ok {| function_name := fname;
        fd_code := formatted;
        requirements_txt :=
          PyStr.join Dag.newline
            (map requirement_line (first_seen (Dag.requirements st)));
        endpoint_name := ep_endpoint_name ep |}.

(** Every declared input of every vertex that is not a start vertex is
    produced by exactly one vertex with an edge to it. *)
Definition inputs_satisfiedb (g : NX.DiGraph) : bool :=
  forallb (fun kv =>
             match role_of (fst kv) with
             | StartEmission => true
             | _ => forallb (fun key => Nat.eqb (length (providers_of g (fst kv) key)) 1)
                            (Dag.input_params_needed (snd kv))
             end)
          (NX.nodes g).

(** *** The function name *)

Definition spaces_and_hyphens_to_underscores (s : string) : string :=
  PyStr.replace_char "-" "_" (PyStr.replace_char " " "_" s).

Definition remove_slashes (s : string) : string := PyStr.replace_char "/" "" s.

(** The normalisation as the specification words it. *)
Definition claimed_function_name (route_name : string) : string :=
  (PyStr.lower (remove_slashes (spaces_and_hyphens_to_underscores route_name))
   ++ "_request")%string.

(** The normalisation with the stripping of surrounding whitespace that the
    source applies before lowering the case. *)
Definition stripped_function_name (route_name : string) : string :=
  (PyStr.lower
     (PyStr.strip (remove_slashes (spaces_and_hyphens_to_underscores route_name)))
   ++ "_request")%string.

(** *** The normaliser *)

(** [format_and_sort_code(refactor_imports(x))], and the pipeline applied to
    its own result. *)
Definition normalize (F : Formatters) (x : string) : result string :=
  source <- Dag.refactor_imports x ;; Dag.format_and_sort_code F source.

Definition normalize_twice (F : Formatters) (x : string) : result string :=
  y <- normalize F x ;; normalize F y.

(** A formatter that reduces every source to the empty one. *)
Definition erasing_formatters : Formatters :=
  {| isort_code := fun s => Ok s; black_format_str := fun _ => Ok EmptyString |}.

(** *** The decomposition driver *)

Section DriverSpec.
Context {Identifiers APIRouteSpec Database : Type}.
Variable limit : Z.
Variable invoke :
  Agent.World Database -> Identifiers -> Agent.InvokeParams APIRouteSpec ->
  result Agent.Function * Agent.World Database.
Variable ids : Identifiers.
Variable route_description : string.
Variable api_route : APIRouteSpec.

Abbreviation World := (Agent.World Database).
Abbreviation request_for :=
  (fun w f => Agent.invoke_params w route_description f api_route).

(** Fuel that covers the depths the guard lets through. *)
Definition enough_fuel (depth : Z) : nat := S (Z.to_nat (limit + 1 - depth)).

(** [chain n w f w' f']: starting with [f] in world [w], [n] successive
    oracle invocations succeed, each declaring exactly one child, and leave
    the world [w'] and the pending child [f']. *)
Inductive chain : nat -> World -> Agent.Function -> World -> Agent.Function -> Prop :=
| chain_done (w : World) (f : Agent.Function) : chain 0 w f w f
| chain_next (n : nat) (w w1 w' : World) (f rf child f' : Agent.Function) :
    invoke w ids (request_for w f) = (Ok rf, w1) ->
    Agent.children_of rf = [child] ->
    chain n w1 child w' f' ->
    chain (S n) w f w' f'.

(** An oracle that always succeeds and always declares exactly one child. *)
Definition one_child_oracle : Prop :=
  forall w p, exists rf w1 child,
    invoke w ids p = (Ok rf, w1) /\ Agent.children_of rf = [child].

End DriverSpec.

(** ** Concrete data *)

(** *** A route with one interior step *)

Definition requests_2_0 : RequiredPackage := mkPackage "requests" (Some "2.0") (Some "==").
Definition requests_2_1 : RequiredPackage := mkPackage "requests" (Some "2.1") (Some "==").

Definition param_x : Param := mkParam "x" "int" "the request value".
Definition param_y : Param := mkParam "y" "int" "the doubled value".

Definition start_node : Node :=
  mkNode "start" "" None (Some [param_x]) [].

Definition double_node : Node :=
  mkNode "double" "def double(x):
    return x * 2" (Some [param_x]) (Some [param_y]) [requests_2_0].

Definition end_node : Node :=
  mkNode "end" "" (Some [param_y]) None [requests_2_1].

Definition graph_start : NX.DiGraph :=
  snd (Dag.add_node NX.empty "request_node" start_node).

Definition graph_double : NX.DiGraph :=
  snd (Dag.add_node graph_start "double" double_node).

Definition graph_route : NX.DiGraph :=
  snd (Dag.add_node graph_double "response_node" end_node).

Definition demo_route : ExecutionPath := mkExecutionPath "Get User/" "get_user".

(** A route name with a leading tabulation. *)
Definition tab_route : ExecutionPath :=
  mkExecutionPath (String (ascii_of_nat 9) "Get User") "get_user".

(** *** Variants of the route *)

(** The route's start vertex inserted again, now consuming [y]: the
    builder wires [double] to it and closes a cycle. *)
Definition graph_cyclic : NX.DiGraph :=
  snd (Dag.add_node graph_route "request_node"
         (mkNode "start" "" (Some [param_y]) (Some [param_x]) [])).

(** An interior step whose code imports with a trailing comment. *)
Definition commented_import_node : Node :=
  mkNode "double" "from operator import mul  # import the product
def double(x):
    return mul(x, 2)" (Some [param_x]) (Some [param_y]) [].

Definition graph_commented : NX.DiGraph :=
  snd (Dag.add_node
         (snd (Dag.add_node graph_start "double" commented_import_node))
         "response_node" end_node).

(** An interior step whose code is not Python. *)
Definition broken_node : Node :=
  mkNode "double" "def (" (Some [param_x]) (Some [param_y]) [].

Definition graph_broken : NX.DiGraph :=
  snd (Dag.add_node
         (snd (Dag.add_node graph_start "double" broken_node))
         "response_node" end_node).

(** *** Emitters and formatters *)

Definition demo_emitters : Emitters :=
  {| request_to_code := fun n => ("def " ++ name n ++ "(x):" ++ Dag.newline)%string;
     response_to_code := fun n m => ("    return y" ++ Dag.newline)%string;
     to_code := fun n m => (("    y = " ++ name n ++ "(x)")%string, m) |}.

(** Formatters that accept everything and change nothing. *)
Definition lenient_formatters : Formatters :=
  {| isort_code := fun s => Ok s; black_format_str := fun s => Ok s |}.

(** A stand-in for black that cannot parse a source containing [def (]. *)
Definition strict_formatters : Formatters :=
  {| isort_code := fun s => Ok s;
     black_format_str :=
       fun s => if PyStr.contains "def (" s then Raise UnparsableSource else Ok s |}.

(** *** A synthetic oracle *)

(** It registers the requested function and declares one child, named after
    its parent with a prime appended. *)
Definition prime_oracle (w : Agent.World unit) (_ : unit) (p : Agent.InvokeParams unit)
  : result Agent.Function * Agent.World unit :=
  (Ok (Agent.mkFunction "" (Agent.ip_function_name p) ""
         (Some [Agent.mkFunction "" (Agent.ip_function_name p ++ "'")%string "" None])),
   {| Agent.generated_function_defs :=
        Agent.generated_function_defs w
        ++ [Agent.mkFunctionDef (Agent.ip_function_name p) ""];
      Agent.database := Agent.database w |}).

Definition fresh_world : Agent.World unit :=
  {| Agent.generated_function_defs := []; Agent.database := tt |}.

Definition root_stub : Agent.Function := Agent.mkFunction "" "f" "" None.

(** ** Vocabulary of the further properties *)

(** *** The builder *)

Definition producesb (node : Node) (key : string) : bool :=
  PyStr.mem key (output_keys node).

(** The last vertex, in insertion order, that declares an output with the
    key. *)
Fixpoint last_producer (key : string) (vertices : Dict.t Node) : option string :=
  match vertices with
  | [] => None
  | (n, node) :: rest =>
      match last_producer key rest with
      | Some m => Some m
      | None => if producesb node key then Some n else None
      end
  end.

(** The node can be wired into the graph: its declared inputs have distinct
    keys, each produced by some vertex. *)
Definition wirable (g : NX.DiGraph) (node : Node) : Prop :=
  NoDup (Dag.input_params_needed node)
  /\ forall key, In key (Dag.input_params_needed node) -> provided g key.


(** The graphs built from the empty one by insertions under names that are
    new each time. *)
Inductive built_fresh : NX.DiGraph -> Prop :=
| fresh_empty : built_fresh NX.empty
| fresh_add (g : NX.DiGraph) (node_name : string) (node : Node) :
    built_fresh g -> ~ In node_name (NX.names g) ->
    built_fresh (snd (Dag.add_node g node_name node)).
(** *** The import refactoring *)

(** [s[k:]] *)
Fixpoint drop (k : nat) (s : string) : string :=
  match k, s with
  | O, _ => s
  | S k', String _ s' => drop k' s'
  | S _, EmptyString => EmptyString
  end.

Definition is_from_line (line : string) : bool := PyStr.startswith "from " line.

Definition is_import_line (line : string) : bool :=
  negb (is_from_line line) && PyStr.startswith "import " line.

Definition is_other_line (line : string) : bool :=
  negb (is_from_line line) && negb (PyStr.startswith "import " line).

(** The line unpacks into a module and an imported name. *)
Definition splits_in_two (line : string) : bool :=
  match PyStr.split " import " line with
  | [_; _] => true
  | _ => false
  end.

(** A line that [refactor_imports] can process. *)
Definition good_line (line : string) : bool :=
  negb (is_from_line line) || splits_in_two line.

(** Ascending order. *)
Fixpoint ascending (l : list string) : Prop :=
  match l with
  | [] => True
  | a :: t =>
      match t with
      | [] => True
      | b :: _ => String.leb a b = true /\ ascending t
      end
  end.


(** Some line of [lines] is [from m import i]: it starts with [from ] and
    unpacks into [m] (the text before [ import ], the keyword [from]
    included) and [i], the whole text after [ import ]: for the line
    [from a import b, c] the text [i] is [b, c], not a single name. *)
Definition imported_from (lines : list string) (m i : string) : Prop :=
  exists line,
    In line lines /\ is_from_line line = true
    /\ PyStr.split " import " line = [m; i].

(** The consolidated line of an origin and its imported texts. *)
Definition from_line (mi : string * list string) : string :=
  (fst mi ++ " import " ++ PyStr.join ", " (PyStr.sorted (snd mi)))%string.

(** The origins gathered after the scan of [lines]: one entry per origin,
    holding once each text that follows [ import ] on a line of that
    origin. *)
Definition gathered (lines : list string) (merged : Dict.t (list string)) : Prop :=
  NoDup (Dict.keys merged)
  /\ (forall m items,
        Dict.get m merged = Some items ->
        NoDup items /\ forall i, In i items <-> imported_from lines m i)
  /\ (forall m i, imported_from lines m i -> In m (Dict.keys merged)).
(** *** The compiler *)

(** The packages of the vertex [n], as the vertex dictionary has them. *)
Definition packages_at (vertices : Dict.t Node) (n : string) : list RequiredPackage :=
  match Dict.get n vertices with
  | Some node => required_packages node
  | None => []
  end.

(** The code a visit of the vertex [n] adds to the preamble: that of an
    interior vertex between two newlines, nothing for the others. *)
Definition preamble_at (vertices : Dict.t Node) (n : string) : string :=
  match role_of n, Dict.get n vertices with
  | CallSite, Some node => (Dag.newline ++ code node ++ Dag.newline)%string
  | _, _ => EmptyString
  end.

Definition preamble (vertices : Dict.t Node) (order : list string) : string :=
  fold_right (fun n s => (preamble_at vertices n ++ s)%string) EmptyString order.

(** The stored node is the given one, possibly renamed by the walk. *)
Definition same_or_renamed (fname n : string) (node : Node) (stored : option Node)
  : Prop :=
  stored = Some node
  \/ (role_of n = StartEmission /\ stored = Some (set_name node fname)).


(** Two stored nodes that a walk cannot tell apart: the same node, or, under
    a vertex whose name contains [request], nodes that differ in their names
    only. *)
Definition alike (n : string) (a b : option Node) : Prop :=
  match a, b with
  | None, None => True
  | Some x, Some y =>
      x = y
      \/ (role_of n = StartEmission
          /\ set_name x EmptyString = set_name y EmptyString)
  | _, _ => False
  end.

(** Two states of the walk with the same locals and stores that are alike. *)
Definition walk_alike (st1 st2 : Dag.walk_state) : Prop :=
  Dag.output_name_map st1 = Dag.output_name_map st2
  /\ Dag.python_file st1 = Dag.python_file st2
  /\ Dag.graph_script st1 = Dag.graph_script st2
  /\ Dag.requirements st1 = Dag.requirements st2
  /\ forall m, alike m (Dict.get m (Dag.store st1)) (Dict.get m (Dag.store st2)).
(** *** Parameter tags, names and concrete data of the further properties *)

(** A tag with a second opening bracket after the element type. *)
Definition overlong_tag (c p rest : string) : string :=
  (c ++ "[" ++ p ++ "[" ++ rest)%string.

(** [n] closing brackets. *)
Fixpoint closing (n : nat) : string :=
  match n with
  | O => EmptyString
  | S n' => String "]" (closing n')
  end.

Definition unbalanced_tag (c p : string) (n : nat) : string :=
  (c ++ "[" ++ p ++ closing n)%string.

(** A node that declares the input [x] twice. *)
Definition twice_x_node : Node :=
  mkNode "sum" "" (Some [param_x; param_x]) None [].

(** A second vertex that produces [x], inserted after the start vertex. *)
Definition graph_two_sources : NX.DiGraph :=
  snd (Dag.add_node graph_start "second_source" start_node).

(** A node that consumes what it produces. *)
Definition loop_node : Node :=
  mkNode "double" "" (Some [param_y]) (Some [param_y]) [].


(** *** An oracle that fails on one function *)

Definition stub (name : string) : Agent.Function := Agent.mkFunction "" name "" None.

(** It registers the requested function; [root] declares the children [a],
    [b] and [c], every other function is a leaf; the request for [b]
    fails. *)
Definition picky_oracle (w : Agent.World unit) (_ : unit) (p : Agent.InvokeParams unit)
  : result Agent.Function * Agent.World unit :=
  if String.eqb (Agent.ip_function_name p) "b"
  then (Raise OracleOutputInvalid, w)
  else
    (Ok (Agent.mkFunction "" (Agent.ip_function_name p) ""
           (if String.eqb (Agent.ip_function_name p) "root"
            then Some [stub "a"; stub "b"; stub "c"]
            else None)),
     {| Agent.generated_function_defs :=
          Agent.generated_function_defs w
          ++ [Agent.mkFunctionDef (Agent.ip_function_name p) ""];
        Agent.database := Agent.database w |}).

(** The request [develop_route] sends for the route's own function, after
    the reset of the registry. *)
Definition route_request {APIRouteSpec Database : Type} (w : Agent.World Database)
  (route_description func_name : string) (api_route : APIRouteSpec)
  : Agent.World Database * Agent.InvokeParams APIRouteSpec :=
  let w0 := {| Agent.generated_function_defs := []; Agent.database := Agent.database w |} in
  (w0,
   {| Agent.ip_function_name := func_name;
      Agent.ip_description := route_description;
      Agent.ip_provided_functions := Agent.provided_functions w0 func_name;
      Agent.ip_api_route := api_route;
      Agent.ip_function_id := None |}).

(** *** The compiled route *)

Definition compiled_route : FunctionData :=
  {| function_name := "get_user_request";
     fd_code := "


def double(x):
    return x * 2

def get_user_request(x):
    y = double(x)
    return y
";
     requirements_txt := "requests==2.0";
     endpoint_name := "get_user" |}.

(** A source with imports between its lines. *)
Definition scattered_imports : string :=
  "import sys
x = 1
import os
from a import b".

(* ===================================================================== *)
(** * Part II: properties                                                 *)
(* ===================================================================== *)

(** ** Generic facts about results, strings and dictionaries *)

Lemma bind_Ok_inv {A B : Type} (r : result A) (k : A -> result B) (b : B) :
  bind r k = Ok b -> exists a, r = Ok a /\ k a = Ok b.
Proof.
  destruct r as [a | e]; simpl; intros H; [ exists a; auto | discriminate ].
Qed.

Lemma mem_In (x : string) (l : list string) :
  PyStr.mem x l = true <-> In x l.
Proof.
  unfold PyStr.mem. rewrite existsb_exists. split.
  - intros [y [Hy Heq]]. apply String.eqb_eq in Heq. subst. assumption.
  - intros H. exists x. split; [ assumption | apply String.eqb_refl ].
Qed.

Lemma mem_not_In (x : string) (l : list string) :
  PyStr.mem x l = false <-> ~ In x l.
Proof.
  rewrite <- mem_In. destruct (PyStr.mem x l); split; congruence.
Qed.

Lemma eqb_sym_false (a b : string) : String.eqb a b = false -> String.eqb b a = false.
Proof. rewrite String.eqb_sym. auto. Qed.

Section DictFacts.
  Context {V : Type}.
  Implicit Types (d : Dict.t V) (k : string) (v : V).

Lemma get_In_keys d k v : Dict.get k d = Some v -> In k (Dict.keys d).
  Proof.
    induction d as [| [k' v'] d IH]; simpl; [ discriminate | ].
    destruct (String.eqb k' k) eqn:Hk.
    - apply String.eqb_eq in Hk. auto.
    - intros H. right. apply IH, H.
  Qed.

Lemma get_None_keys d k : Dict.get k d = None <-> ~ In k (Dict.keys d).
  Proof.
    induction d as [| [k' v'] d IH]; simpl; [ tauto | ].
    destruct (String.eqb k' k) eqn:Hk.
    - apply String.eqb_eq in Hk. split; [ discriminate | tauto ].
    - apply String.eqb_neq in Hk. rewrite IH. tauto.
  Qed.

Lemma get_In d k v : Dict.get k d = Some v -> In (k, v) d.
  Proof.
    induction d as [| [k' v'] d IH]; simpl; [ discriminate | ].
    destruct (String.eqb k' k) eqn:Hk.
    - apply String.eqb_eq in Hk. intros [= ->]. subst. auto.
    - auto.
  Qed.

Lemma In_get_nodup d k v :
    NoDup (Dict.keys d) -> In (k, v) d -> Dict.get k d = Some v.
  Proof.
    induction d as [| [k' v'] d IH]; simpl; [ tauto | ].
    intros Hnd [Heq | Hin].
    - inversion Heq; subst. rewrite String.eqb_refl. reflexivity.
    - inversion Hnd as [| ? ? Hni Hnd']; subst.
      destruct (String.eqb k' k) eqn:Hk.
      + apply String.eqb_eq in Hk. subst. exfalso. apply Hni.
        apply (in_map fst) in Hin. exact Hin.
      + apply IH; assumption.
  Qed.

Lemma set_absent d k v :
    ~ In k (Dict.keys d) -> Dict.set k v d = d ++ [(k, v)].
  Proof.
    induction d as [| [k' v'] d IH]; simpl; intros H; [ reflexivity | ].
    destruct (String.eqb k' k) eqn:Hk.
    - apply String.eqb_eq in Hk. tauto.
    - rewrite IH by tauto. reflexivity.
  Qed.

Lemma keys_set_present d k v :
    In k (Dict.keys d) -> Dict.keys (Dict.set k v d) = Dict.keys d.
  Proof.
    induction d as [| [k' v'] d IH]; simpl; [ tauto | ].
    intros H. destruct (String.eqb k' k) eqn:Hk; simpl.
    - apply String.eqb_eq in Hk. subst. reflexivity.
    - apply String.eqb_neq in Hk. f_equal. apply IH. tauto.
  Qed.

Lemma keys_set d k v :
    Dict.keys (Dict.set k v d) =
    if PyStr.mem k (Dict.keys d) then Dict.keys d else Dict.keys d ++ [k].
  Proof.
    destruct (PyStr.mem k (Dict.keys d)) eqn:Hm.
    - apply keys_set_present, mem_In, Hm.
    - apply mem_not_In in Hm. rewrite set_absent by assumption.
      unfold Dict.keys. rewrite map_app. reflexivity.
  Qed.

Lemma In_keys_set d k v k0 :
    In k0 (Dict.keys (Dict.set k v d)) <-> k0 = k \/ In k0 (Dict.keys d).
  Proof.
    rewrite keys_set. destruct (PyStr.mem k (Dict.keys d)) eqn:Hm.
    - apply mem_In in Hm. split; [ tauto | intros [-> | H]; assumption ].
    - rewrite in_app_iff. simpl. intuition congruence.
  Qed.

Lemma nodup_keys_set d k v :
    NoDup (Dict.keys d) -> NoDup (Dict.keys (Dict.set k v d)).
  Proof.
    intros H. rewrite keys_set. destruct (PyStr.mem k (Dict.keys d)) eqn:Hm.
    - assumption.
    - apply mem_not_In in Hm. apply NoDup_app; [ assumption | repeat constructor; simpl; tauto | ].
      intros x Hx [<- | []]. tauto.
  Qed.

Lemma get_set_eq d k v : Dict.get k (Dict.set k v d) = Some v.
  Proof.
    induction d as [| [k' v'] d IH]; simpl.
    - rewrite String.eqb_refl. reflexivity.
    - destruct (String.eqb k' k) eqn:Hk; simpl.
      + rewrite String.eqb_refl. reflexivity.
      + rewrite Hk. apply IH.
  Qed.

Lemma get_set_ne d k v k0 :
    k0 <> k -> Dict.get k0 (Dict.set k v d) = Dict.get k0 d.
  Proof.
    intros Hne. induction d as [| [k' v'] d IH]; simpl.
    - destruct (String.eqb k k0) eqn:Hk; [ apply String.eqb_eq in Hk; congruence | reflexivity ].
    - destruct (String.eqb k' k) eqn:Hk; simpl.
      + apply String.eqb_eq in Hk. subst k'.
        destruct (String.eqb k k0) eqn:Hk0; [ apply String.eqb_eq in Hk0; congruence | reflexivity ].
      + rewrite IH. reflexivity.
  Qed.

Lemma get_del_eq d k : NoDup (Dict.keys d) -> Dict.get k (Dict.del k d) = None.
  Proof.
    induction d as [| [k' v'] d IH]; simpl; intros Hnd; [ reflexivity | ].
    inversion Hnd as [| ? ? Hni Hnd']; subst.
    destruct (String.eqb k' k) eqn:Hk; simpl.
    - apply String.eqb_eq in Hk. subst. apply get_None_keys. assumption.
    - rewrite Hk. apply IH. assumption.
  Qed.

Lemma get_del_ne d k k0 :
    k0 <> k -> Dict.get k0 (Dict.del k d) = Dict.get k0 d.
  Proof.
    intros Hne. induction d as [| [k' v'] d IH]; simpl; [ reflexivity | ].
    destruct (String.eqb k' k) eqn:Hk; simpl.
    - apply String.eqb_eq in Hk. subst k'.
      destruct (String.eqb k k0) eqn:Hk0; [ apply String.eqb_eq in Hk0; congruence | reflexivity ].
    - rewrite IH. reflexivity.
  Qed.

Lemma In_keys_del d k k0 : In k0 (Dict.keys (Dict.del k d)) -> In k0 (Dict.keys d).
  Proof.
    induction d as [| [k' v'] d IH]; simpl; [ tauto | ].
    destruct (String.eqb k' k); simpl; tauto.
  Qed.

Lemma nodup_keys_del d k :
    NoDup (Dict.keys d) -> NoDup (Dict.keys (Dict.del k d)).
  Proof.
    induction d as [| [k' v'] d IH]; simpl; intros Hnd; [ constructor | ].
    inversion Hnd as [| ? ? Hni Hnd']; subst.
    destruct (String.eqb k' k); simpl; [ assumption | ].
    constructor; [ | apply IH; assumption ].
    intros H. apply Hni. eapply In_keys_del, H.
  Qed.

Lemma length_set_present d k v :
    In k (Dict.keys d) -> length (Dict.set k v d) = length d.
  Proof.
    intros H. rewrite <- (length_map fst (Dict.set k v d)), <- (length_map fst d).
    fold (Dict.keys (Dict.set k v d)). fold (Dict.keys d).
    rewrite keys_set_present by assumption. reflexivity.
  Qed.

Lemma length_del_present d k :
    In k (Dict.keys d) -> S (length (Dict.del k d)) = length d.
  Proof.
    induction d as [| [k' v'] d IH]; simpl; [ tauto | ].
    destruct (String.eqb k' k) eqn:Hk; simpl.
    - reflexivity.
    - apply String.eqb_neq in Hk. intros [H | H]; [ congruence | ].
      rewrite IH by assumption. reflexivity.
  Qed.
End DictFacts.

(** ** Parameter tags: the pieces of a tag *)

Lemma string_app_cons (c : ascii) (a b : string) :
  (String c a ++ b)%string = String c (a ++ b)%string.
Proof. reflexivity. Qed.

Lemma mem_char_cons (c d : ascii) (cs : string) :
  PyStr.mem_char c (String d cs) = Ascii.eqb c d || PyStr.mem_char c cs.
Proof. reflexivity. Qed.

Lemma split_go_other (c a : ascii) (s : string) :
  Ascii.eqb c a = false ->
  PyStr.split_go (String c EmptyString) 0 (String a s)
  = match PyStr.split_go (String c EmptyString) 0 s with
    | p :: ps => String a p :: ps
    | [] => [String a EmptyString]
    end.
Proof.
  intros H. cbn [PyStr.split_go]. unfold PyStr.startswith. rewrite H. reflexivity.
Qed.

Lemma split_go_piece (p s : string) :
  PyStr.mem_char "[" p = false ->
  PyStr.split_go "[" 0 (p ++ String "[" s)
  = p :: PyStr.split_go "[" 0 s.
Proof.
  induction p as [| a p IH]; intros Hp.
  - reflexivity.
  - rewrite mem_char_cons in Hp. apply orb_false_iff in Hp. destruct Hp as [Ha Hp].
    rewrite string_app_cons, (split_go_other _ _ _ Ha), (IH Hp). reflexivity.
Qed.

Lemma split_go_closing (p : string) (n : nat) :
  PyStr.mem_char "[" p = false ->
  PyStr.split_go "[" 0 (p ++ closing n) = [(p ++ closing n)%string].
Proof.
  induction p as [| a p IH]; intros Hp.
  - simpl. induction n as [| n IHn]; [ reflexivity | ].
    simpl closing. rewrite split_go_other by reflexivity.
    rewrite IHn. reflexivity.
  - rewrite mem_char_cons in Hp. apply orb_false_iff in Hp. destruct Hp as [Ha Hp].
    rewrite string_app_cons, (split_go_other _ _ _ Ha), (IH Hp). reflexivity.
Qed.

Lemma rstrip_closing (p : string) (n : nat) :
  PyStr.mem_char "]" p = false ->
  PyStr.rstrip "]" (p ++ closing n) = p.
Proof.
  induction p as [| a p IH]; intros Hp.
  - simpl. induction n as [| n IHn]; [ reflexivity | ].
    simpl. rewrite IHn. reflexivity.
  - rewrite mem_char_cons in Hp. apply orb_false_iff in Hp. destruct Hp as [Ha Hp].
    rewrite string_app_cons. cbn [PyStr.rstrip]. rewrite (IH Hp).
    destruct p as [| b p]; [ | reflexivity ].
    cbn [PyStr.mem_char]. rewrite Ascii.eqb_sym, Ha. reflexivity.
Qed.

Lemma mem_char_app (c : ascii) (a b : string) :
  PyStr.mem_char c (a ++ b) = PyStr.mem_char c a || PyStr.mem_char c b.
Proof.
  induction a as [| x a IH]; simpl; [ reflexivity | ].
  rewrite IH. apply orb_assoc.
Qed.

Lemma bracket_tag_not_basic (v : string) :
  PyStr.mem_char "[" v = true -> PyStr.mem v Params.basic_types = false.
Proof.
  intros Hv. apply mem_not_In. intros Hin.
  assert (Hall : Forall (fun t => PyStr.mem_char "[" t = false) Params.basic_types)
    by (repeat constructor).
  rewrite Forall_forall in Hall. rewrite (Hall v Hin) in Hv. discriminate.
Qed.

Lemma container_prefix (c s : string) :
  In c ["list"; "set"; "tuple"] ->
  has_container_prefix (c ++ String "[" s) = true
  /\ PyStr.mem_char "[" c = false.
Proof.
  intros [<- | [<- | [<- | []]]]; split; reflexivity.
Qed.

Lemma basic_type_plain (p : string) :
  In p Params.basic_types ->
  PyStr.mem_char "[" p = false /\ PyStr.mem_char "]" p = false
  /\ PyStr.mem p Params.basic_types = true.
Proof.
  intros Hin. split; [ | split; [ | apply mem_In, Hin ] ].
  - assert (Hall : Forall (fun t => PyStr.mem_char "[" t = false) Params.basic_types)
      by (repeat constructor).
    rewrite Forall_forall in Hall. apply Hall, Hin.
  - assert (Hall : Forall (fun t => PyStr.mem_char "]" t = false) Params.basic_types)
      by (repeat constructor).
    rewrite Forall_forall in Hall. apply Hall, Hin.
Qed.

(** The outcome on a tag with a container prefix is decided by its second
    piece, closing brackets stripped. *)
Lemma check_container_piece (c s piece : string) (rest : list string) :
  In c ["list"; "set"; "tuple"] ->
  PyStr.split_go "[" 0 s = piece :: rest ->
  Params.check_param_type (c ++ String "[" s)
  = if PyStr.mem (PyStr.rstrip "]" piece) Params.basic_types
    then Ok (c ++ String "[" s)%string
    else Raise InvalidParamType.
Proof.
  intros Hc Hs. destruct (container_prefix c s Hc) as [Hprefix Hcb].
  unfold Params.check_param_type.
  rewrite bracket_tag_not_basic
    by (rewrite mem_char_app; simpl; apply orb_true_r).
  unfold has_container_prefix in Hprefix. rewrite Hprefix.
  unfold PyStr.split. rewrite (split_go_piece c s Hcb), Hs.
  cbn [nth_error]. cbv zeta. reflexivity.
Qed.

(** Acceptance of a tag with a container prefix, by its second piece. *)
Lemma check_container (c s piece : string) (rest : list string) :
  In c ["list"; "set"; "tuple"] ->
  PyStr.split_go "[" 0 s = piece :: rest ->
  PyStr.mem (PyStr.rstrip "]" piece) Params.basic_types = true ->
  Params.check_param_type (c ++ String "[" s) = Ok (c ++ String "[" s)%string.
Proof.
  intros Hc Hs Hp. rewrite (check_container_piece c s piece rest Hc Hs), Hp.
  reflexivity.
Qed.



(** ** Parameter type validation (gen_branching_graph.py) *)




(** ** Requirement manifest (generate_requirements_txt) *)



Lemma first_seen_from_names seen packages n :
  In n (map package_name packages) ->
  In n seen \/ In n (map package_name (first_seen_from seen packages)).
Proof.
  revert seen. induction packages as [| q rest IH]; simpl; intros seen; [ tauto | ].
  intros [<- | Hin].
  - destruct (PyStr.mem (package_name q) seen) eqn:Hm.
    + left. apply mem_In, Hm.
    + right. simpl. auto.
  - destruct (PyStr.mem (package_name q) seen) eqn:Hm.
    + apply IH, Hin.
    + destruct (IH (seen ++ [package_name q]) Hin) as [H | H].
      * apply in_app_or in H. simpl in H. simpl. intuition.
      * right. simpl. auto.
Qed.



Lemma heads_set_present d k l l' :
  Dict.get k d = Some l -> hd (None, None) l' = hd (None, None) l ->
  heads (Dict.set k l' d) = heads d.
Proof.
  induction d as [| [k' v'] d IH]; simpl; [ discriminate | ].
  destruct (String.eqb k' k) eqn:Hk; simpl.
  - apply String.eqb_eq in Hk. subst. intros [= ->] ->. reflexivity.
  - intros Hg Hh. rewrite IH by assumption. reflexivity.
Qed.

Lemma nonempty_set d k l :
  nonempty_values d -> l <> [] -> nonempty_values (Dict.set k l d).
Proof.
  unfold nonempty_values. induction d as [| [k' v'] d IH]; simpl; intros Hd Hl.
  - repeat constructor. assumption.
  - inversion Hd; subst. destruct (String.eqb k' k); constructor; auto.
Qed.

Lemma aggregate_step_spec d p :
  nonempty_values d ->
  nonempty_values (aggregate_step d p)
  /\ Dict.keys (aggregate_step d p) =
       (if PyStr.mem (package_name p) (Dict.keys d) then Dict.keys d
        else Dict.keys d ++ [package_name p])
  /\ heads (aggregate_step d p) =
       (if PyStr.mem (package_name p) (Dict.keys d) then heads d
        else heads d ++ [(package_name p, (version p, specifier p))]).
Proof.
  intros Hne. unfold aggregate_step.
  destruct (Dict.get (package_name p) d) as [l |] eqn:Hg.
  - pose proof (get_In_keys _ _ _ Hg) as Hin.
    assert (Hl : l <> []).
    { apply get_In in Hg. unfold nonempty_values in Hne.
      rewrite Forall_forall in Hne. apply (Hne _ Hg). }
    split; [ apply nonempty_set; [ assumption | destruct l; discriminate ] | ].
    rewrite keys_set.
    apply mem_In in Hin. rewrite Hin. split; [ reflexivity | ].
    apply heads_set_present with (l := l); [ assumption | ].
    destruct l; [ congruence | reflexivity ].
  - apply get_None_keys in Hg.
    split; [ apply nonempty_set; [ assumption | discriminate ] | ].
    rewrite keys_set. pose proof Hg as Hm. apply mem_not_In in Hm. rewrite Hm.
    split; [ reflexivity | ].
    rewrite set_absent by assumption. unfold heads. rewrite map_app. reflexivity.
Qed.

Lemma aggregate_fold packages : forall d,
  nonempty_values d ->
  let d' := fold_left aggregate_step packages d in
  nonempty_values d'
  /\ heads d' =
     heads d ++ map (fun p => (package_name p, (version p, specifier p)))
                    (first_seen_from (Dict.keys d) packages).
Proof.
  induction packages as [| p rest IH]; simpl; intros d Hne.
  - rewrite app_nil_r. auto.
  - destruct (aggregate_step_spec d p Hne) as [Hne' [Hkeys Hheads]].
    destruct (IH _ Hne') as [Hne'' Hh]. split; [ assumption | ].
    rewrite Hh, Hkeys, Hheads.
    destruct (PyStr.mem (package_name p) (Dict.keys d)); [ reflexivity | ].
    simpl. rewrite <- app_assoc. reflexivity.
Qed.

Lemma requirement_lines_heads d :
  nonempty_values d ->
  Dag.requirement_lines d =
  Ok (map (fun kh => Dag.requirement (fst kh) (snd kh)) (heads d)).
Proof.
  unfold nonempty_values. induction d as [| [k l] d IH]; simpl; intros H; [ reflexivity | ].
  inversion H as [| ? ? Hl Hd]; subst. simpl in Hl.
  destruct l as [| first l]; [ congruence | ].
  rewrite IH by assumption. reflexivity.
Qed.

Lemma generate_requirements_txt_first_seen packages :
  Dag.generate_requirements_txt packages =
  Ok (PyStr.join Dag.newline (map requirement_line (first_seen packages))).
Proof.
  unfold Dag.generate_requirements_txt, Dag.aggregate.
  change (fold_left _ packages []) with (fold_left aggregate_step packages []).
  destruct (aggregate_fold packages [] (Forall_nil _)) as [Hne Hh].
  rewrite (requirement_lines_heads _ Hne). simpl in *. rewrite Hh.
  rewrite map_map. reflexivity.
Qed.


(** ** The graph builder (add_node) *)

Lemma scan_outputs_keys needed n outs : forall providers k,
  In k (Dict.keys (Dag.scan_outputs needed n outs providers)) ->
  In k (Dict.keys providers)
  \/ (In k needed /\ exists out, In out outs /\ Dag.param_key out = k).
Proof.
  unfold Dag.scan_outputs.
  induction outs as [| o outs IH]; simpl; intros providers k Hk; [ auto | ].
  apply IH in Hk. destruct Hk as [Hk | [Hn [out [Hin Hkey]]]].
  - destruct (PyStr.mem (Dag.param_key o) needed) eqn:Hm; [ | auto ].
    apply In_keys_set in Hk. destruct Hk as [-> | Hk]; [ | auto ].
    right. split; [ apply mem_In, Hm | exists o; auto ].
  - right. split; [ assumption | exists out; auto ].
Qed.

Lemma scan_outputs_nodup needed n outs : forall providers,
  NoDup (Dict.keys providers) ->
  NoDup (Dict.keys (Dag.scan_outputs needed n outs providers)).
Proof.
  unfold Dag.scan_outputs.
  induction outs as [| o outs IH]; simpl; intros providers Hnd; [ assumption | ].
  apply IH. destruct (PyStr.mem (Dag.param_key o) needed); [ | assumption ].
  apply nodup_keys_set, Hnd.
Qed.

Lemma scan_fold_keys needed vertices : forall providers k,
  In k (Dict.keys (fold_left (scan_step needed) vertices providers)) ->
  In k (Dict.keys providers)
  \/ (In k needed /\ exists n existing, In (n, existing) vertices /\ produces existing k).
Proof.
  induction vertices as [| [n existing] vertices IH]; simpl; intros providers k Hk; [ auto | ].
  apply IH in Hk. destruct Hk as [Hk | [Hn [n' [ex' [Hin Hp]]]]].
  - unfold scan_step in Hk. simpl in Hk.
    destruct (output_params existing) as [outs |] eqn:Ho; [ | auto ].
    apply scan_outputs_keys in Hk. destruct Hk as [Hk | [Hn [out [Hin Hkey]]]]; [ auto | ].
    right. split; [ assumption | ].
    exists n, existing. split; [ auto | ]. exists outs, out. auto.
  - right. split; [ assumption | ]. exists n', ex'. auto.
Qed.

Lemma scan_fold_nodup needed vertices : forall providers,
  NoDup (Dict.keys providers) ->
  NoDup (Dict.keys (fold_left (scan_step needed) vertices providers)).
Proof.
  induction vertices as [| [n existing] vertices IH]; simpl; intros providers Hnd; [ assumption | ].
  apply IH. unfold scan_step. simpl.
  destruct (output_params existing); [ apply scan_outputs_nodup | ]; assumption.
Qed.

Lemma scan_nodes_keys needed graph k :
  In k (Dict.keys (Dag.scan_nodes needed (NX.nodes graph))) ->
  In k needed /\ provided graph k.
Proof.
  intros Hk. apply scan_fold_keys in Hk. destruct Hk as [[] | [Hn Hp]].
  split; assumption.
Qed.

Lemma scan_nodes_nodup needed vertices :
  NoDup (Dict.keys (Dag.scan_nodes needed vertices)).
Proof. apply scan_fold_nodup. constructor. Qed.

(** C2: on a non-empty graph, when some key the node needs is produced by
    no vertex, [add_node] raises the missing-dependency error and the graph
    is the one it was given: no vertex and no edge has been added. *)
Theorem C2_add_node_missing_dependency
  (graph : NX.DiGraph) (node_name : string) (node : Node) (key : string) :
  NX.number_of_nodes graph <> 0 ->
  In key (Dag.input_params_needed node) ->
  ~ provided graph key ->
  Dag.add_node graph node_name node = (Raise MissingDependency, graph).
Proof.
  intros Hne Hkey Hnone. unfold Dag.add_node.
  destruct (Nat.eqb (NX.number_of_nodes graph) 0) eqn:H0.
  { apply Nat.eqb_eq in H0. contradiction. }
  set (needed := Dag.input_params_needed node) in *.
  set (providers := Dag.scan_nodes needed (NX.nodes graph)).
  assert (Hlt : length providers < length needed).
  { rewrite <- (length_map fst providers). fold (Dict.keys providers).
    apply Nat.le_lt_trans with (m := length (remove string_dec key needed)).
    - apply NoDup_incl_length; [ apply scan_nodes_nodup | ].
      intros k Hk. apply scan_nodes_keys in Hk. destruct Hk as [Hn Hp].
      apply in_in_remove; [ | assumption ].
      intros ->. contradiction.
    - apply remove_length_lt, Hkey. }
  destruct (Nat.eqb (length needed) (length providers)) eqn:Hlen.
  - apply Nat.eqb_eq in Hlen. lia.
  - reflexivity.
Qed.

Lemma filter_none {A : Type} (f : A -> bool) (l : list A) :
  (forall x, In x l -> f x = false) -> filter f l = [].
Proof.
  induction l as [| a l IH]; simpl; intros H; [ reflexivity | ].
  rewrite (H a) by auto. apply IH. intros x Hx. apply H. auto.
Qed.

Lemma in_degree_zero_outside (g : NX.DiGraph) (n : string) :
  edge_closed g -> ~ In n (NX.names g) -> NX.in_degree g n = 0.
Proof.
  intros Hc Hn. unfold NX.in_degree.
  assert (H : filter (fun e => String.eqb (NX.dst e) n) (NX.edges g) = []).
  { apply filter_none. intros e He.
    destruct (String.eqb (NX.dst e) n) eqn:Hd; [ | reflexivity ].
    apply String.eqb_eq in Hd. subst. destruct (Hc e He). contradiction. }
  rewrite H. reflexivity.
Qed.

(** C10: a node without declared inputs is always accepted, whatever the
    graph and whatever its role: the call returns [True], the node is
    stored under its name, the other vertices and all edges are as before,
    so that no incoming edge is attached to it (none at all when the name is
    new to the graph). *)
Theorem C10_add_node_without_inputs
  (graph : NX.DiGraph) (node_name : string) (node : Node) :
  input_params node = None \/ input_params node = Some [] ->
  let graph' := NX.add_node graph node_name node in
  Dag.add_node graph node_name node = (Ok true, graph')
  /\ Dict.get node_name (NX.nodes graph') = Some node
  /\ (forall n, n <> node_name ->
        Dict.get n (NX.nodes graph') = Dict.get n (NX.nodes graph))
  /\ NX.edges graph' = NX.edges graph
  /\ NX.in_degree graph' node_name = NX.in_degree graph node_name
  /\ (edge_closed graph -> ~ In node_name (NX.names graph) ->
        NX.in_degree graph' node_name = 0).
Proof.
  intros Hin graph'.
  assert (Hneeded : Dag.input_params_needed node = []).
  { unfold Dag.input_params_needed. destruct Hin as [-> | ->]; reflexivity. }
  split.
  - unfold Dag.add_node. destruct (Nat.eqb (NX.number_of_nodes graph) 0); [ reflexivity | ].
    rewrite Hneeded.
    assert (Hp : Dag.scan_nodes [] (NX.nodes graph) = []).
    { destruct (Dag.scan_nodes [] (NX.nodes graph)) as [| [k v] rest] eqn:Hs; [ reflexivity | ].
      assert (Hk : In k (Dict.keys (Dag.scan_nodes [] (NX.nodes graph)))).
      { rewrite Hs. simpl. auto. }
      apply scan_nodes_keys in Hk. destruct Hk as [[] _]. }
    rewrite Hp. reflexivity.
  - split; [ apply get_set_eq | ].
    split; [ intros n Hn; apply get_set_ne, Hn | ].
    split; [ reflexivity | ].
    split; [ reflexivity | ].
    intros Hc Hfresh. apply (in_degree_zero_outside graph node_name Hc Hfresh).
Qed.

(** ** The recursive decomposition driver (agent.py) *)

Section DriverFacts.
Context {Identifiers APIRouteSpec Database : Type}.
Variable limit : Z.
Variable invoke :
  Agent.World Database -> Identifiers -> Agent.InvokeParams APIRouteSpec ->
  result Agent.Function * Agent.World Database.
Variable ids : Identifiers.
Variable route_description : string.
Variable api_route : APIRouteSpec.

Abbreviation World := (Agent.World Database).
Abbreviation rcf := (Agent.recursive_create_function limit invoke).
Abbreviation request_for :=
  (fun w f => Agent.invoke_params w route_description f api_route).

(** The guard: beyond the ceiling the call raises at once; the oracle is not
    invoked and the world is the one the call received. *)
Lemma recursive_create_function_guard (fuel : nat) (w : World)
  (function_def : Agent.Function) (depth : Z) :
  (depth > limit)%Z ->
  rcf (S fuel) w ids route_description function_def api_route depth
  = (Raise RecursionLimitExceeded, w).
Proof.
  intros Hd. simpl.
  destruct (depth >? limit)%Z eqn:Hg; [ reflexivity | ].
  rewrite Z.gtb_ltb in Hg. apply Z.ltb_ge in Hg. lia.
Qed.

Lemma for_each_ext (body1 body2 : World -> Agent.Function -> result Agent.Function * World)
  (children : list Agent.Function) :
  (forall w c, body1 w c = body2 w c) ->
  forall w, Agent.for_each body1 w children = Agent.for_each body2 w children.
Proof.
  intros Hext. induction children as [| c rest IH]; simpl; intros w; [ reflexivity | ].
  rewrite Hext. destruct (body2 w c) as [[r | e] w']; [ apply IH | reflexivity ].
Qed.

(** The outcome is the same for every sufficient fuel: the bounded
    recursion of the model stands for the recursion of the source. *)
Lemma recursive_create_function_fuel (fuel1 : nat) :
  forall (fuel2 : nat) (w : World) (function_def : Agent.Function) (depth : Z),
    enough_fuel limit depth <= fuel1 -> enough_fuel limit depth <= fuel2 ->
    rcf fuel1 w ids route_description function_def api_route depth
    = rcf fuel2 w ids route_description function_def api_route depth.
Proof.
  unfold enough_fuel.
  induction fuel1 as [| fuel1 IH]; intros fuel2 w f depth H1 H2; [ lia | ].
  destruct fuel2 as [| fuel2]; [ lia | ].
  simpl. destruct (depth >? limit)%Z eqn:Hg; [ reflexivity | ].
  rewrite Z.gtb_ltb in Hg. apply Z.ltb_ge in Hg.
  destruct (invoke w ids (Agent.invoke_params w route_description f api_route))
    as [[rf | e] w']; [ | reflexivity ].
  rewrite (for_each_ext _
             (fun w0 child => rcf fuel2 w0 ids route_description child api_route (depth + 1)%Z));
    [ reflexivity | ].
  intros w0 c. apply IH; lia.
Qed.

Lemma one_child_descent (n : nat) :
  one_child_oracle invoke ids ->
  forall (w : World) (f : Agent.Function) (depth : Z),
    (depth + Z.of_nat n = limit + 1)%Z ->
    exists w' f',
      chain invoke ids route_description api_route n w f w' f'
      /\ forall fuel, n < fuel ->
           rcf fuel w ids route_description f api_route depth
           = (Raise RecursionLimitExceeded, w').
Proof.
  intros Horacle. induction n as [| n IH]; intros w f depth Hd.
  - exists w, f. split; [ constructor | ].
    intros [| fuel] Hf; [ lia | ].
    apply recursive_create_function_guard. lia.
  - destruct (Horacle w (request_for w f)) as [rf [w1 [child [Hinv Hch]]]].
    destruct (IH w1 child (depth + 1)%Z ltac:(lia)) as [w' [f' [Hchain Hrun]]].
    exists w', f'. split; [ econstructor; eassumption | ].
    intros [| fuel] Hf; [ lia | ].
    simpl. destruct (depth >? limit)%Z eqn:Hg.
    { rewrite Z.gtb_ltb in Hg. apply Z.ltb_lt in Hg. lia. }
    rewrite Hinv, Hch. simpl. rewrite Hrun by lia. reflexivity.
Qed.

End DriverFacts.

(** C4: with the ceiling at its default 3, a call of
    [recursive_create_function] at any depth above 3 raises the
    recursion-limit error without touching the world; and against an oracle
    that always declares exactly one child, the call at depth 0 goes through
    four invocations (depths 0 to 3), its fourth nested call, at depth 4,
    raises, the error reaches the caller, and the world is the one the
    fourth invocation left: nothing is registered for the function of the
    failing call. *)
Theorem C4_depth_ceiling
  {Identifiers APIRouteSpec Database : Type}
  (invoke : Agent.World Database -> Identifiers -> Agent.InvokeParams APIRouteSpec ->
            result Agent.Function * Agent.World Database)
  (ids : Identifiers) (route_description : string) (api_route : APIRouteSpec)
  (w : Agent.World Database) (function_def : Agent.Function) (fuel : nat) :
  one_child_oracle invoke ids ->
  4 < fuel ->
  let rcf := Agent.recursive_create_function
               Agent.DEFAULT_RECURSION_DEPTH_LIMIT invoke in
  (forall w0 f0 depth, (depth > 3)%Z ->
     rcf fuel w0 ids route_description f0 api_route depth
     = (Raise RecursionLimitExceeded, w0))
  /\ exists w4 f4,
       chain invoke ids route_description api_route 4 w function_def w4 f4
       /\ rcf fuel w ids route_description function_def api_route 0%Z
          = (Raise RecursionLimitExceeded, w4)
       /\ rcf fuel w4 ids route_description f4 api_route 4%Z
          = (Raise RecursionLimitExceeded, w4).
Proof.
  intros Horacle Hfuel rcf. split.
  - intros w0 f0 depth Hd. destruct fuel as [| fuel']; [ lia | ].
    apply recursive_create_function_guard. exact Hd.
  - destruct (one_child_descent Agent.DEFAULT_RECURSION_DEPTH_LIMIT invoke ids
                route_description api_route 4 Horacle w function_def 0%Z eq_refl)
      as [w4 [f4 [Hchain Hrun]]].
    exists w4, f4. split; [ exact Hchain | ]. split.
    + apply Hrun. exact Hfuel.
    + destruct fuel as [| fuel']; [ lia | ].
      apply recursive_create_function_guard. reflexivity.
Qed.

Lemma prime_oracle_one_child :
  one_child_oracle prime_oracle tt.
Proof.
  intros w p. unfold prime_oracle. eexists. eexists. eexists.
  split; reflexivity.
Qed.

Lemma C4_depth_ceiling_witness :
  (forall w0 f0 depth, (depth > 3)%Z ->
     Agent.recursive_create_function Agent.DEFAULT_RECURSION_DEPTH_LIMIT
       prime_oracle 5 w0 tt "goal" f0 tt depth
     = (Raise RecursionLimitExceeded, w0))
  /\ exists w4 f4,
       chain prime_oracle tt "goal" tt 4 fresh_world root_stub w4 f4
       /\ Agent.recursive_create_function Agent.DEFAULT_RECURSION_DEPTH_LIMIT
            prime_oracle 5 fresh_world tt "goal" root_stub tt 0%Z
          = (Raise RecursionLimitExceeded, w4)
       /\ Agent.recursive_create_function Agent.DEFAULT_RECURSION_DEPTH_LIMIT
            prime_oracle 5 w4 tt "goal" f4 tt 4%Z
          = (Raise RecursionLimitExceeded, w4).
Proof.
  apply (C4_depth_ceiling prime_oracle tt "goal" tt
           fresh_world root_stub 5 prime_oracle_one_child).
  lia.
Defined.

(** Against the synthetic oracle the registry ends with the four functions
    generated at depths 0 to 3; the function of the failing call, [f''''],
    is not among them. *)
Lemma prime_oracle_registry :
  Agent.recursive_create_function Agent.DEFAULT_RECURSION_DEPTH_LIMIT
    prime_oracle 5 fresh_world tt "goal" root_stub tt 0%Z
  = (Raise RecursionLimitExceeded,
     {| Agent.generated_function_defs :=
          [Agent.mkFunctionDef "f" ""; Agent.mkFunctionDef "f'" "";
           Agent.mkFunctionDef "f''" ""; Agent.mkFunctionDef "f'''" ""];
        Agent.database := tt |}).
Proof. reflexivity. Qed.

(** Through [develop_route] the route's own function is generated first and
    its child starts at depth 0: the same oracle is invoked five times before
    the guard trips, and the error aborts the route. *)
Lemma develop_route_one_child_fails :
  Agent.develop_route Agent.DEFAULT_RECURSION_DEPTH_LIMIT prime_oracle 5
    fresh_world tt "goal" "f" tt
  = (Raise RecursionLimitExceeded,
     {| Agent.generated_function_defs :=
          [Agent.mkFunctionDef "f" ""; Agent.mkFunctionDef "f'" "";
           Agent.mkFunctionDef "f''" ""; Agent.mkFunctionDef "f'''" "";
           Agent.mkFunctionDef "f''''" ""];
        Agent.database := tt |}).
Proof. reflexivity. Qed.

(** ** The builder on the route with one interior step *)

Lemma graph_start_lacks_y : ~ provided graph_start "y: int".
Proof.
  intros [n [existing [Hin [outs [out [Hout [Hino Hkey]]]]]]].
  simpl in Hin. destruct Hin as [Heq | []].
  inversion Heq; subst. simpl in Hout. inversion Hout; subst.
  simpl in Hino. destruct Hino as [<- | []]. discriminate.
Qed.

Lemma C2_add_node_missing_dependency_witness :
  Dag.add_node graph_start "response_node" end_node
  = (Raise MissingDependency, graph_start).
Proof.
  apply (C2_add_node_missing_dependency graph_start "response_node" end_node "y: int").
  - discriminate.
  - simpl. auto.
  - exact graph_start_lacks_y.
Defined.

Lemma C10_add_node_without_inputs_witness :
  Dag.add_node graph_route "second_request" start_node
  = (Ok true, NX.add_node graph_route "second_request" start_node)
  /\ NX.edges (NX.add_node graph_route "second_request" start_node)
     = NX.edges graph_route.
Proof.
  destruct (C10_add_node_without_inputs graph_route "second_request" start_node
              (or_introl eq_refl)) as [Hok [_ [_ [Hedges _]]]].
  split; [ exact Hok | exact Hedges ].
Defined.

(** ** The builder keeps graphs well formed *)

Lemma wf_empty : wf NX.empty.
Proof.
  constructor; [ constructor | constructor | intros e [] ].
Qed.

Lemma nx_add_node_wf (g : NX.DiGraph) (n : string) (node : Node) :
  wf g -> wf (NX.add_node g n node).
Proof.
  intros [Hn He Hc]. constructor.
  - apply nodup_keys_set, Hn.
  - exact He.
  - intros e Hin. destruct (Hc e Hin) as [Hs Hd].
    unfold NX.names, NX.add_node. simpl.
    split; apply In_keys_set; right; assumption.
Qed.

Lemma set_edge_ends (u v c : string) (es : list NX.edge) :
  map NX.ends (NX.set_edge u v c es)
  = if existsb (pair_eqb (u, v)) (map NX.ends es) then map NX.ends es
    else map NX.ends es ++ [(u, v)].
Proof.
  induction es as [| e es IH]; simpl; [ reflexivity | ].
  unfold pair_eqb at 1. simpl.
  rewrite (String.eqb_sym u), (String.eqb_sym v).
  change (fst (NX.ends e)) with (NX.src e). change (snd (NX.ends e)) with (NX.dst e).
  destruct (String.eqb (NX.src e) u && String.eqb (NX.dst e) v) eqn:Hm; simpl.
  - apply andb_true_iff in Hm. destruct Hm as [Hs Hd].
    apply String.eqb_eq in Hs, Hd. f_equal.
    unfold NX.ends, NX.src, NX.dst in *. destruct e as [[a b] x]. simpl in *. congruence.
  - rewrite IH. destruct (existsb (pair_eqb (u, v)) (map NX.ends es)); reflexivity.
Qed.

Lemma In_set_edge (u v c : string) (es : list NX.edge) (e : NX.edge) :
  In e (NX.set_edge u v c es) -> e = (u, v, c) \/ In e es.
Proof.
  induction es as [| a es IH]; simpl; [ intuition | ].
  destruct (String.eqb (NX.src a) u && String.eqb (NX.dst a) v); simpl; intuition.
Qed.

Lemma nx_add_edge_wf (g : NX.DiGraph) (u v c : string) :
  wf g -> In u (NX.names g) -> In v (NX.names g) -> wf (NX.add_edge g u v c).
Proof.
  intros [Hn He Hc] Hu Hv. constructor.
  - exact Hn.
  - simpl. rewrite set_edge_ends.
    destruct (existsb (pair_eqb (u, v)) (map NX.ends (NX.edges g))) eqn:Hex; [ exact He | ].
    apply NoDup_app; [ exact He | repeat constructor; simpl; tauto | ].
    intros x Hx [<- | []].
    assert (Hex' : existsb (pair_eqb (u, v)) (map NX.ends (NX.edges g)) = true).
    { apply existsb_exists. exists (u, v). split; [ exact Hx | ].
      unfold pair_eqb. simpl. rewrite !String.eqb_refl. reflexivity. }
    congruence.
  - intros e Hin. simpl in Hin. apply In_set_edge in Hin.
    destruct Hin as [-> | Hin]; [ split; assumption | apply Hc, Hin ].
Qed.

Lemma connect_wf (node_name : string) (providers : Dict.t string) :
  forall g,
    wf g -> In node_name (NX.names g) ->
    (forall k p, In (k, p) providers -> In p (NX.names g)) ->
    wf (snd (Dag.connect g node_name providers)).
Proof.
  induction providers as [| [k p] rest IH]; simpl; intros g Hwf Hn Hp; [ exact Hwf | ].
  destruct k as [| c k']; [ exact Hwf | ].
  apply IH.
  - apply nx_add_edge_wf; [ exact Hwf | apply (Hp (String c k') p); auto | exact Hn ].
  - exact Hn.
  - intros k0 p0 Hin. apply (Hp k0 p0). auto.
Qed.

Lemma In_dict_set {V : Type} (d : Dict.t V) (k : string) (v : V) (kv : string * V) :
  In kv (Dict.set k v d) -> kv = (k, v) \/ In kv d.
Proof.
  induction d as [| [k' v'] d IH]; simpl; [ intuition | ].
  destruct (String.eqb k' k); simpl; intuition.
Qed.

Lemma scan_outputs_values (needed : list string) (n : string) (outs : list Param) :
  forall providers kv,
    In kv (Dag.scan_outputs needed n outs providers) ->
    In kv providers \/ snd kv = n.
Proof.
  unfold Dag.scan_outputs.
  induction outs as [| o outs IH]; simpl; intros providers kv Hin; [ auto | ].
  apply IH in Hin. destruct Hin as [Hin | Hin]; [ | auto ].
  destruct (PyStr.mem (Dag.param_key o) needed); [ | auto ].
  apply In_dict_set in Hin. destruct Hin as [-> | Hin]; auto.
Qed.

Lemma scan_fold_values (needed : list string) (vertices : Dict.t Node) :
  forall providers kv,
    In kv (fold_left (scan_step needed) vertices providers) ->
    In kv providers \/ In (snd kv) (Dict.keys vertices).
Proof.
  induction vertices as [| [n existing] vertices IH]; simpl; intros providers kv Hin; [ auto | ].
  apply IH in Hin. destruct Hin as [Hin | Hin]; [ | auto ].
  unfold scan_step in Hin. simpl in Hin.
  destruct (output_params existing) as [outs |]; [ | auto ].
  apply scan_outputs_values in Hin. destruct Hin as [Hin | Hin]; auto.
Qed.

(** Every provider found by the scan is a vertex of the graph. *)
Lemma scan_nodes_values (needed : list string) (g : NX.DiGraph) (k p : string) :
  In (k, p) (Dag.scan_nodes needed (NX.nodes g)) -> In p (NX.names g).
Proof.
  intros Hin. apply scan_fold_values in Hin. destruct Hin as [[] | Hin]. exact Hin.
Qed.

(** Whatever its outcome, [add_node] leaves a well-formed graph. *)
Theorem add_node_wf (g : NX.DiGraph) (node_name : string) (node : Node) :
  wf g -> wf (snd (Dag.add_node g node_name node)).
Proof.
  intros Hwf. unfold Dag.add_node.
  destruct (Nat.eqb (NX.number_of_nodes g) 0); [ apply nx_add_node_wf, Hwf | ].
  destruct (negb (Nat.eqb (length (Dag.input_params_needed node))
                          (length (Dag.scan_nodes (Dag.input_params_needed node)
                                                  (NX.nodes g))))); [ exact Hwf | ].
  apply connect_wf.
  - apply nx_add_node_wf, Hwf.
  - unfold NX.names, NX.add_node. simpl. apply In_keys_set. auto.
  - intros k p Hin. apply scan_nodes_values in Hin.
    unfold NX.names, NX.add_node. simpl. apply In_keys_set. auto.
Qed.

(** Hence every graph built from the empty one is well formed. *)
Theorem built_wf (g : NX.DiGraph) : built g -> wf g.
Proof.
  induction 1 as [| g n node _ IH]; [ apply wf_empty | apply add_node_wf, IH ].
Qed.

(** ** Graphs: well-formedness, paths and cycles *)

Lemma index_of_lt (x : string) (l : list string) :
  In x l <-> index_of x l < length l.
Proof.
  induction l as [| y l IH]; simpl; [ split; [ tauto | lia ] | ].
  destruct (String.eqb y x) eqn:Hy.
  - apply String.eqb_eq in Hy. split; [ lia | auto ].
  - apply String.eqb_neq in Hy. rewrite IH. split; [ intros [H | H]; [ congruence | lia ] | intros H; right; lia ].
Qed.

Lemma index_of_app_l (x : string) (l l' : list string) :
  In x l -> index_of x (l ++ l') = index_of x l.
Proof.
  induction l as [| y l IH]; simpl; [ tauto | ].
  destruct (String.eqb y x) eqn:Hy; [ reflexivity | ].
  apply String.eqb_neq in Hy. intros [H | H]; [ congruence | ].
  rewrite IH by assumption. reflexivity.
Qed.

Lemma index_of_app_r (x : string) (l l' : list string) :
  ~ In x l -> index_of x (l ++ l') = length l + index_of x l'.
Proof.
  induction l as [| y l IH]; simpl; [ reflexivity | ].
  intros H. destruct (String.eqb y x) eqn:Hy.
  - apply String.eqb_eq in Hy. tauto.
  - rewrite IH by tauto. reflexivity.
Qed.

Lemma topo_app (g : NX.DiGraph) (order l : list string) :
  topo g order ->
  (forall v e, In v l -> In e (NX.edges g) -> NX.dst e = v -> In (NX.src e) order) ->
  topo g (order ++ l).
Proof.
  revert order. induction l as [| v l IH]; intros order Ht Hl.
  - rewrite app_nil_r. assumption.
  - change (v :: l) with ([v] ++ l). rewrite app_assoc. apply IH.
    + constructor; [ assumption | ]. intros e He Hd. apply (Hl v e); simpl; auto.
    + intros v' e Hv He Hd. apply in_or_app. left. apply (Hl v' e); simpl; auto.
Qed.

Lemma topo_before (g : NX.DiGraph) (order : list string) :
  topo g order -> NoDup order ->
  forall e, In e (NX.edges g) -> In (NX.dst e) order ->
            before order (NX.src e) (NX.dst e).
Proof.
  induction 1 as [| order v Ht IH Hv]; intros Hnd e He Hin; [ destruct Hin | ].
  apply NoDup_remove in Hnd. rewrite !app_nil_r in Hnd. destruct Hnd as [Hnd Hfresh].
  apply in_app_or in Hin. destruct Hin as [Hin | [Heq | []]].
  - destruct (IH Hnd e He Hin) as [Hs [Hd Hlt]].
    split; [ apply in_or_app; auto | ]. split; [ apply in_or_app; auto | ].
    rewrite !index_of_app_l by assumption. assumption.
  - pose proof (Hv e He (eq_sym Heq)) as Hs.
    split; [ apply in_or_app; auto | ]. split; [ apply in_or_app; right; simpl; auto | ].
    rewrite index_of_app_l by assumption.
    rewrite <- Heq. rewrite index_of_app_r by assumption.
    apply index_of_lt in Hs. lia.
Qed.

(** A total order of the vertices that respects every edge excludes
    cycles. *)
Lemma ordered_path (g : NX.DiGraph) (order : list string) :
  (forall e, In e (NX.edges g) -> before order (NX.src e) (NX.dst e)) ->
  forall u v, path g u v -> index_of u order < index_of v order.
Proof.
  intros Hord u v Hp. induction Hp as [u v [e [He [<- <-]]] | u v w [e [He [<- <-]]] Hp IH].
  - apply Hord, He.
  - destruct (Hord e He) as [_ [_ Hlt]]. lia.
Qed.

Lemma ordered_acyclic (g : NX.DiGraph) (order : list string) :
  (forall e, In e (NX.edges g) -> before order (NX.src e) (NX.dst e)) ->
  acyclic g.
Proof.
  intros Hord v Hp. pose proof (ordered_path g order Hord v v Hp). lia.
Qed.

(** *** From vertices that all have a predecessor to a cycle *)

Lemma is_walk_app_r (g : NX.DiGraph) (l1 l2 : list string) :
  is_walk g (l1 ++ l2) -> is_walk g l2.
Proof.
  induction l1 as [| x l1 IH]; simpl; [ auto | ].
  destruct (l1 ++ l2) as [| y t] eqn:Ht.
  - destruct l1; [ simpl in Ht; subst; simpl; auto | discriminate ].
  - intros [_ H]. apply IH, H.
Qed.

Lemma is_walk_path (g : NX.DiGraph) (m : list string) :
  forall x y rest, is_walk g (x :: m ++ y :: rest) -> path g x y.
Proof.
  induction m as [| z m IH]; intros x y rest Hw.
  - simpl in Hw. destruct Hw as [He _]. constructor. exact He.
  - change (x :: (z :: m) ++ y :: rest) with (x :: z :: m ++ y :: rest) in Hw.
    destruct Hw as [He Hw]. eapply path_step; [ exact He | ].
    eapply IH. exact Hw.
Qed.

Lemma walk_of_any_length (g : NX.DiGraph) (S : string -> Prop) :
  (forall v, S v -> exists u, S u /\ has_edge g u v) ->
  forall n v, S v ->
    exists l, length l = Datatypes.S n /\ is_walk g l /\ Forall S l.
Proof.
  intros Hpred. induction n as [| n IH]; intros v Hv.
  - exists [v]. simpl. auto.
  - destruct (IH v Hv) as [l [Hlen [Hw Hall]]].
    destruct l as [| x t]; [ discriminate | ].
    inversion Hall as [| ? ? Hx Ht]; subst.
    destruct (Hpred x Hx) as [u [Hu He]].
    exists (u :: x :: t). split; [ simpl in *; lia | ].
    split; [ split; assumption | constructor; assumption ].
Qed.

Lemma cycle_from_predecessors (g : NX.DiGraph) (S : string -> Prop)
  (bound : list string) :
  (forall v, S v -> In v bound) ->
  (forall v, S v -> exists u, S u /\ has_edge g u v) ->
  forall v0, S v0 -> has_cycle g.
Proof.
  intros Hbound Hpred v0 Hv0.
  destruct (walk_of_any_length g S Hpred (length bound) v0 Hv0) as [l [Hlen [Hw Hall]]].
  assert (Hdup : ~ NoDup l).
  { intros Hnd. assert (length l <= length bound); [ | lia ].
    apply NoDup_incl_length; [ assumption | ].
    intros x Hx. apply Hbound. rewrite Forall_forall in Hall. apply Hall, Hx. }
  apply ListDec.not_NoDup in Hdup.
  - destruct Hdup as [x [l1 [l2 [l3 Heq]]]]. subst l.
    exists x. apply is_walk_app_r in Hw. eapply is_walk_path, Hw.
  - intros a b. destruct (string_dec a b); [ left | right ]; assumption.
Qed.

(** ** Kahn's algorithm (nx.topological_generations) *)

Lemma ends_eqb_true (e e0 : NX.edge) :
  ends_eqb e e0 = true <-> NX.ends e = NX.ends e0.
Proof.
  unfold ends_eqb, NX.ends, NX.src, NX.dst.
  destruct e as [[u v] c], e0 as [[u0 v0] c0]. simpl.
  rewrite andb_true_iff, !String.eqb_eq. split.
  - intros [-> ->]. reflexivity.
  - intros [= -> ->]. auto.
Qed.

Lemma ends_eqb_false_in (e0 a : NX.edge) (l : list NX.edge) :
  ~ In (NX.ends a) (map NX.ends l) -> NX.ends e0 = NX.ends a ->
  forall e, In e l -> ends_eqb e e0 = false.
Proof.
  intros Hni Heq e He. destruct (ends_eqb e e0) eqn:Hb; [ | reflexivity ].
  apply ends_eqb_true in Hb. exfalso. apply Hni.
  rewrite <- Heq, <- Hb. apply in_map, He.
Qed.

Lemma filter_consume (f : NX.edge -> bool) (e0 : NX.edge) (l : list NX.edge) :
  NoDup (map NX.ends l) -> In e0 l -> f e0 = true ->
  length (filter (fun e => f e && negb (ends_eqb e e0)) l) + 1
  = length (filter f l).
Proof.
  induction l as [| a l IH]; simpl; intros Hnd Hin Hf; [ tauto | ].
  inversion Hnd as [| ? ? Hni Hnd']; subst.
  destruct Hin as [-> | Hin].
  - rewrite Hf. assert (Hrefl : ends_eqb e0 e0 = true) by (apply ends_eqb_true; reflexivity).
    rewrite Hrefl. simpl.
    rewrite (filter_ext_in (fun e => f e && negb (ends_eqb e e0)) f).
    + lia.
    + intros e He. rewrite (ends_eqb_false_in e0 e0 l Hni eq_refl e He).
      apply andb_true_r.
  - assert (Ha : ends_eqb a e0 = false).
    { destruct (ends_eqb a e0) eqn:Hb; [ | reflexivity ].
      apply ends_eqb_true in Hb. exfalso. apply Hni. rewrite Hb. apply in_map, Hin. }
    rewrite Ha, andb_true_r. destruct (f a); simpl; rewrite <- (IH Hnd' Hin Hf); lia.
Qed.

Section Kahn.
Variable g : NX.DiGraph.
Hypothesis Hwf : wf g.

Lemma pending_ext (cons cons' : NX.edge -> bool) (v : string) :
  (forall e, In e (NX.edges g) -> cons e = cons' e) ->
  pending g cons v = pending g cons' v.
Proof.
  intros Hext. unfold pending. f_equal. apply filter_ext_in.
  intros e He. rewrite (Hext e He). reflexivity.
Qed.

Lemma kahn_inv_ext (cons cons' : NX.edge -> bool) (order : list string)
  (indegree_map : Dict.t Z) :
  (forall e, In e (NX.edges g) -> cons e = cons' e) ->
  kahn_inv g cons order indegree_map -> kahn_inv g cons' order indegree_map.
Proof.
  intros Hext [H1 H2 H3 H4 H5 H6 H7]. constructor; try assumption.
  - intros v Hv. rewrite <- (pending_ext cons cons' v Hext). apply H4, Hv.
  - intros e He Hc. apply H7; [ assumption | ]. rewrite (Hext e He). assumption.
Qed.

Lemma pending_consume_same (cons : NX.edge -> bool) (e0 : NX.edge) :
  In e0 (NX.edges g) -> cons e0 = false ->
  pending g (consume cons e0) (NX.dst e0) + 1 = pending g cons (NX.dst e0).
Proof.
  intros Hin Hc. unfold pending, consume.
  rewrite <- (filter_consume
                (fun e => String.eqb (NX.dst e) (NX.dst e0) && negb (cons e))
                e0 (NX.edges g) (wf_edges g Hwf) Hin).
  - f_equal. f_equal. apply filter_ext. intros e.
    rewrite negb_orb, andb_assoc. reflexivity.
  - rewrite String.eqb_refl, Hc. reflexivity.
Qed.

Lemma pending_consume_other (cons : NX.edge -> bool) (e0 : NX.edge) (v : string) :
  v <> NX.dst e0 -> pending g (consume cons e0) v = pending g cons v.
Proof.
  intros Hne. unfold pending, consume. f_equal. apply filter_ext. intros e.
  destruct (String.eqb (NX.dst e) v) eqn:Hd; [ | reflexivity ].
  apply String.eqb_eq in Hd. simpl. f_equal.
  assert (Hb : ends_eqb e e0 = false).
  { unfold ends_eqb. destruct (String.eqb (NX.dst e) (NX.dst e0)) eqn:Hd0.
    - apply String.eqb_eq in Hd0. congruence.
    - apply andb_false_r. }
  rewrite Hb. apply orb_false_r.
Qed.

Lemma pending_zero_sources (cons : NX.edge -> bool) (v : string) :
  pending g cons v = 0 ->
  forall e, In e (NX.edges g) -> NX.dst e = v -> cons e = true.
Proof.
  unfold pending. intros H e He Hd.
  apply length_zero_iff_nil in H.
  destruct (cons e) eqn:Hc; [ reflexivity | ].
  assert (Hin : In e (filter (fun e => String.eqb (NX.dst e) v && negb (cons e)) (NX.edges g))).
  { apply filter_In. split; [ assumption | ].
    rewrite Hd, String.eqb_refl, Hc. reflexivity. }
  rewrite H in Hin. destruct Hin.
Qed.

Lemma pending_positive (cons : NX.edge -> bool) (e : NX.edge) :
  In e (NX.edges g) -> cons e = false -> 0 < pending g cons (NX.dst e).
Proof.
  intros He Hc. destruct (pending g cons (NX.dst e)) eqn:Hp; [ | lia ].
  rewrite (pending_zero_sources cons (NX.dst e) Hp e He eq_refl) in Hc. discriminate.
Qed.

(** One decrement: the edge [e0], with its source already listed, is
    consumed. *)
Lemma visit_child_inv (cons : NX.edge -> bool) (order : list string)
  (indegree_map : Dict.t Z) (next : list string) (e0 : NX.edge) :
  kahn_inv g cons order indegree_map ->
  In e0 (NX.edges g) -> cons e0 = false -> In (NX.src e0) order ->
  exists indegree_map' l,
    NX.visit_child (indegree_map, next) (NX.dst e0) = Ok (indegree_map', next ++ l)
    /\ kahn_inv g (consume cons e0) (order ++ l) indegree_map'
    /\ length indegree_map' + length l = length indegree_map.
Proof.
  intros [Hnd Hincl Hkeys Hcount Hout Htopo Hsrc] He0 Hc Hs.
  set (c := NX.dst e0).
  assert (Hcn : In c (NX.names g)) by (apply (wf_closed g Hwf e0 He0)).
  pose proof (pending_positive cons e0 He0 Hc) as Hpos. fold c in Hpos.
  pose proof (pending_consume_same cons e0 He0 Hc) as Hsame. fold c in Hsame.
  destruct (Hcount c Hcn) as [[Hz _] | [_ [Hfresh Hget]]]; [ lia | ].
  unfold NX.visit_child. rewrite Hget.
  assert (Hsources : forall e, In e (NX.edges g) -> consume cons e0 e = true ->
                               forall l, In (NX.src e) (order ++ l)).
  { intros e He Hce l. apply in_or_app. left. unfold consume in Hce.
    apply orb_true_iff in Hce. destruct Hce as [Hce | Hce]; [ apply Hsrc; assumption | ].
    apply ends_eqb_true in Hce. unfold NX.src. unfold NX.ends in Hce. rewrite Hce. exact Hs. }
  destruct (Z.of_nat (pending g cons c) - 1 =? 0)%Z eqn:Hd.
  - (* the vertex reaches in-degree zero *)
    apply Z.eqb_eq in Hd.
    assert (Hp0 : pending g (consume cons e0) c = 0) by lia.
    exists (Dict.del c indegree_map), [c]. split; [ reflexivity | ]. split.
    + constructor.
      * apply NoDup_app; [ assumption | repeat constructor; simpl; tauto | ].
        intros x Hx [<- | []]. contradiction.
      * intros x Hx. apply in_app_or in Hx. destruct Hx as [Hx | [<- | []]]; auto.
      * apply nodup_keys_del, Hkeys.
      * intros v Hv. destruct (string_dec v c) as [-> | Hne].
        -- left. split; [ assumption | ].
           split; [ apply in_or_app; right; simpl; auto | apply get_del_eq, Hkeys ].
        -- rewrite (pending_consume_other cons e0 v Hne), (get_del_ne _ _ _ Hne).
           destruct (Hcount v Hv) as [[H1 [H2 H3]] | [H1 [H2 H3]]].
           ++ left. split; [ assumption | ]. split; [ apply in_or_app; auto | assumption ].
           ++ right. split; [ assumption | ]. split; [ | assumption ].
              intros Hin. apply in_app_or in Hin. destruct Hin as [Hin | [Heq | []]]; congruence.
      * intros v Hv. assert (Hne : v <> c) by congruence.
        rewrite (get_del_ne _ _ _ Hne). apply Hout, Hv.
      * constructor; [ assumption | ].
        intros e He Hde.
        pose proof (pending_zero_sources _ _ Hp0 e He Hde) as Hce.
        specialize (Hsources e He Hce []). rewrite app_nil_r in Hsources.
        exact Hsources.
      * intros e He Hce. apply Hsources; assumption.
    + simpl. pose proof (length_del_present indegree_map c (get_In_keys _ _ _ Hget)). lia.
  - (* edges into the vertex remain *)
    apply Z.eqb_neq in Hd.
    exists (Dict.set c (Z.of_nat (pending g cons c) - 1)%Z indegree_map), [].
    rewrite !app_nil_r. split; [ reflexivity | ]. split.
    + constructor; try assumption.
      * apply nodup_keys_set, Hkeys.
      * intros v Hv. destruct (string_dec v c) as [-> | Hne].
        -- right. split; [ lia | ]. split; [ assumption | ].
           rewrite get_set_eq. f_equal. lia.
        -- rewrite (pending_consume_other cons e0 v Hne), (get_set_ne _ _ _ _ Hne).
           apply Hcount, Hv.
      * intros v Hv. assert (Hne : v <> c) by congruence.
        rewrite (get_set_ne _ _ _ _ Hne). apply Hout, Hv.
      * intros e He Hce. specialize (Hsources e He Hce []). rewrite app_nil_r in Hsources.
        exact Hsources.
    + simpl. rewrite (length_set_present indegree_map c _ (get_In_keys _ _ _ Hget)). lia.
Qed.

Lemma mem_app (x : string) (l l' : list string) :
  PyStr.mem x (l ++ l') = PyStr.mem x l || PyStr.mem x l'.
Proof. unfold PyStr.mem. apply existsb_app. Qed.

Lemma mem_single (x y : string) : PyStr.mem x [y] = String.eqb x y.
Proof. unfold PyStr.mem. simpl. apply orb_false_r. Qed.

Lemma neighbors_In (u c : string) :
  In c (NX.neighbors g u) <->
  exists e, In e (NX.edges g) /\ NX.src e = u /\ NX.dst e = c.
Proof.
  unfold NX.neighbors. rewrite in_map_iff. split.
  - intros [e [Hd He]]. apply filter_In in He. destruct He as [He Hs].
    apply String.eqb_eq in Hs. exists e. auto.
  - intros [e [He [Hs Hd]]]. exists e. split; [ assumption | ].
    apply filter_In. split; [ assumption | ]. apply String.eqb_eq, Hs.
Qed.

Lemma neighbors_nodup_list (u : string) (l : list NX.edge) :
  NoDup (map NX.ends l) ->
  NoDup (map NX.dst (filter (fun e => String.eqb (NX.src e) u) l)).
Proof.
  induction l as [| a l IH]; simpl; intros Hnd; [ constructor | ].
  inversion Hnd as [| ? ? Hni Hnd']; subst.
  destruct (String.eqb (NX.src a) u) eqn:Hs; [ | apply IH; assumption ].
  simpl. constructor; [ | apply IH; assumption ].
  rewrite in_map_iff. intros [e [Hd He]]. apply filter_In in He.
  destruct He as [He Hse]. apply Hni.
  apply String.eqb_eq in Hs, Hse.
  assert (Heq : NX.ends a = NX.ends e).
  { unfold NX.ends, NX.src, NX.dst in *. destruct a as [[? ?] ?], e as [[? ?] ?].
    simpl in *. congruence. }
  rewrite Heq. apply in_map, He.
Qed.

Lemma neighbors_nodup (u : string) : NoDup (NX.neighbors g u).
Proof. apply neighbors_nodup_list, (wf_edges g Hwf). Qed.

Lemma under_way_nil (P : list string) (u : string) (e : NX.edge) :
  under_way P u [] e = processed P e.
Proof.
  unfold under_way. simpl. rewrite andb_false_r. apply orb_false_r.
Qed.

Lemma under_way_snoc (P : list string) (u : string) (cs : list string)
  (e0 e : NX.edge) :
  NX.src e0 = u ->
  consume (under_way P u cs) e0 e = under_way P u (cs ++ [NX.dst e0]) e.
Proof.
  intros Hs. unfold consume, under_way, ends_eqb.
  rewrite mem_app, mem_single, Hs.
  destruct (processed P e), (String.eqb (NX.src e) u), (PyStr.mem (NX.dst e) cs),
    (String.eqb (NX.dst e) (NX.dst e0)); reflexivity.
Qed.

Lemma under_way_all (P : list string) (u : string) (e : NX.edge) :
  In e (NX.edges g) ->
  under_way P u (NX.neighbors g u) e = processed (P ++ [u]) e.
Proof.
  intros He. unfold under_way, processed. rewrite mem_app, mem_single.
  destruct (String.eqb (NX.src e) u) eqn:Hs; [ | rewrite andb_false_l; reflexivity ].
  apply String.eqb_eq in Hs.
  assert (Hm : PyStr.mem (NX.dst e) (NX.neighbors g u) = true).
  { apply mem_In, neighbors_In. exists e. auto. }
  rewrite Hm. reflexivity.
Qed.

Lemma visit_children_cons (st : NX.kahn_state) (c : string) (cs : list string) :
  NX.visit_children st (c :: cs)
  = (st' <- NX.visit_child st c ;; NX.visit_children st' cs).
Proof. reflexivity. Qed.

Lemma visit_generation_cons (st : NX.kahn_state) (n : string) (ns : list string) :
  NX.visit_generation g st (n :: ns)
  = (st' <- NX.visit_node g st n ;; NX.visit_generation g st' ns).
Proof. reflexivity. Qed.

(** The loop over the children of [u]. *)
Lemma visit_children_inv (P : list string) (u : string) :
  ~ In u P ->
  forall (cs cs1 order : list string) (indegree_map : Dict.t Z) (next : list string),
    NoDup (cs1 ++ cs) ->
    (forall c, In c cs -> exists e, In e (NX.edges g) /\ NX.src e = u /\ NX.dst e = c) ->
    In u order ->
    kahn_inv g (under_way P u cs1) order indegree_map ->
    exists indegree_map' l,
      NX.visit_children (indegree_map, next) cs = Ok (indegree_map', next ++ l)
      /\ kahn_inv g (under_way P u (cs1 ++ cs)) (order ++ l) indegree_map'
      /\ length indegree_map' + length l = length indegree_map.
Proof.
  intros HuP. induction cs as [| c cs IH]; intros cs1 order indegree_map next Hnd Hedges Hu Hinv.
  - exists indegree_map, []. rewrite !app_nil_r. simpl. auto.
  - destruct (Hedges c (or_introl eq_refl)) as [e0 [He0 [Hs0 Hd0]]].
    assert (Hfresh : ~ In c cs1).
    { apply NoDup_remove_2 in Hnd. intros H. apply Hnd. apply in_or_app. auto. }
    assert (Hc : under_way P u cs1 e0 = false).
    { unfold under_way, processed. rewrite Hs0, Hd0.
      apply mem_not_In in HuP, Hfresh. rewrite HuP, Hfresh.
      rewrite andb_false_r. reflexivity. }
    assert (Hsrc : In (NX.src e0) order) by (rewrite Hs0; exact Hu).
    destruct (visit_child_inv _ _ _ next e0 Hinv He0 Hc Hsrc)
      as [indegree1 [l1 [Hstep [Hinv1 Hlen1]]]].
    rewrite Hd0 in Hstep.
    apply (kahn_inv_ext _ (under_way P u (cs1 ++ [c]))) in Hinv1.
    2:{ intros e _. rewrite <- Hd0. apply under_way_snoc, Hs0. }
    destruct (IH (cs1 ++ [c]) (order ++ l1) indegree1 (next ++ l1))
      as [indegree2 [l2 [Hrest [Hinv2 Hlen2]]]].
    + rewrite <- app_assoc. exact Hnd.
    + intros c' Hc'. apply Hedges. simpl. auto.
    + apply in_or_app. auto.
    + exact Hinv1.
    + exists indegree2, (l1 ++ l2). rewrite visit_children_cons, Hstep.
      unfold bind. rewrite Hrest. rewrite <- !app_assoc in *. simpl in *.
      split; [ reflexivity | ]. split; [ exact Hinv2 | ].
      rewrite length_app. lia.
Qed.

(** The body of the loop over a generation. *)
Lemma visit_node_inv (P : list string) (u : string) (order : list string)
  (indegree_map : Dict.t Z) (next : list string) :
  ~ In u P -> In u (NX.names g) -> In u order ->
  kahn_inv g (processed P) order indegree_map ->
  exists indegree_map' l,
    NX.visit_node g (indegree_map, next) u = Ok (indegree_map', next ++ l)
    /\ kahn_inv g (processed (P ++ [u])) (order ++ l) indegree_map'
    /\ length indegree_map' + length l = length indegree_map.
Proof.
  intros HuP Hun Hu Hinv.
  apply (kahn_inv_ext _ (under_way P u [])) in Hinv.
  2:{ intros e _. symmetry. apply under_way_nil. }
  destruct (visit_children_inv P u HuP (NX.neighbors g u) [] order indegree_map next)
    as [indegree' [l [Hrun [Hinv' Hlen]]]].
  - apply neighbors_nodup.
  - intros c Hc. apply neighbors_In, Hc.
  - exact Hu.
  - exact Hinv.
  - exists indegree', l. unfold NX.visit_node, NX.has_node.
    apply mem_In in Hun. rewrite Hun. split; [ exact Hrun | ]. split; [ | exact Hlen ].
    apply (kahn_inv_ext (under_way P u (NX.neighbors g u))); [ | exact Hinv' ].
    intros e He. apply under_way_all, He.
Qed.

Lemma visit_generation_inv (ns : list string) :
  forall (P next : list string) (indegree_map : Dict.t Z),
    kahn_inv g (processed P) (P ++ ns ++ next) indegree_map ->
    exists indegree_map' l,
      NX.visit_generation g (indegree_map, next) ns = Ok (indegree_map', next ++ l)
      /\ kahn_inv g (processed (P ++ ns)) (P ++ ns ++ next ++ l) indegree_map'
      /\ length indegree_map' + length l = length indegree_map.
Proof.
  induction ns as [| u ns IH]; intros P next indegree_map Hinv.
  - exists indegree_map, []. rewrite !app_nil_r in *. simpl. auto.
  - assert (HuP : ~ In u P).
    { pose proof (NoDup_remove_2 P (ns ++ next) u (ki_nodup g _ _ _ Hinv)) as H.
      intros HP. apply H. apply in_or_app. auto. }
    assert (Hu : In u (P ++ (u :: ns) ++ next)).
    { apply in_or_app. right. simpl. auto. }
    assert (Hun : In u (NX.names g)) by (apply (ki_incl g _ _ _ Hinv), Hu).
    destruct (visit_node_inv P u _ indegree_map next HuP Hun Hu Hinv)
      as [indegree1 [l1 [Hstep [Hinv1 Hlen1]]]].
    destruct (IH (P ++ [u]) (next ++ l1) indegree1) as [indegree2 [l2 [Hrest [Hinv2 Hlen2]]]].
    + rewrite <- !app_assoc in *. simpl in *. exact Hinv1.
    + exists indegree2, (l1 ++ l2). rewrite visit_generation_cons, Hstep.
      unfold bind. rewrite Hrest. rewrite <- !app_assoc in *. simpl in *.
      split; [ reflexivity | ]. split; [ exact Hinv2 | ].
      rewrite length_app. lia.
Qed.

Lemma pending_positive_edge (cons : NX.edge -> bool) (v : string) :
  0 < pending g cons v ->
  exists e, In e (NX.edges g) /\ NX.dst e = v /\ cons e = false.
Proof.
  unfold pending. intros H.
  destruct (filter (fun e => String.eqb (NX.dst e) v && negb (cons e)) (NX.edges g))
    as [| e rest] eqn:Hf; [ simpl in H; lia | ].
  assert (Hin : In e (filter (fun e => String.eqb (NX.dst e) v && negb (cons e)) (NX.edges g))).
  { rewrite Hf. simpl. auto. }
  apply filter_In in Hin. destruct Hin as [He Hb].
  apply andb_true_iff in Hb. destruct Hb as [Hd Hc].
  apply String.eqb_eq in Hd. apply negb_true_iff in Hc.
  exists e. auto.
Qed.

Lemma stuck_cycle (P : list string) (indegree_map : Dict.t Z) :
  kahn_inv g (processed P) P indegree_map ->
  indegree_map <> [] ->
  has_cycle g.
Proof.
  intros Hinv Hne.
  destruct indegree_map as [| [k d] rest]; [ congruence | ].
  assert (Hget : Dict.get k ((k, d) :: rest) = Some d).
  { simpl. rewrite String.eqb_refl. reflexivity. }
  assert (Hk : In k (NX.names g)).
  { destruct (in_dec string_dec k (NX.names g)) as [H | H]; [ exact H | ].
    rewrite (ki_outside g _ _ _ Hinv k H) in Hget. discriminate. }
  apply (cycle_from_predecessors g
           (fun v => In v (NX.names g) /\ ~ In v P) (NX.names g)) with (v0 := k).
  - intros v [Hv _]. exact Hv.
  - intros v [Hv HvP].
    destruct (ki_count g _ _ _ Hinv v Hv) as [[_ [Hin _]] | [Hpos _]]; [ contradiction | ].
    destruct (pending_positive_edge _ _ Hpos) as [e [He [Hd Hc]]].
    exists (NX.src e). split.
    + split; [ apply (wf_closed g Hwf e He) | ].
      unfold processed in Hc. apply mem_not_In in Hc. exact Hc.
    + exists e. auto.
  - split; [ exact Hk | ].
    destruct (ki_count g _ _ _ Hinv k Hk) as [[_ [_ Hnone]] | [_ [Hfresh _]]].
    + rewrite Hnone in Hget. discriminate.
    + exact Hfresh.
Qed.

(** The outer loop: it ends, with all vertices in topological order or with
    [NetworkXUnfeasible] and a cycle in the graph. *)
Lemma generations_loop_inv (fuel : nat) :
  forall (P zero : list string) (indegree_map : Dict.t Z),
    kahn_inv g (processed P) (P ++ zero) indegree_map ->
    length zero + length indegree_map <= fuel ->
    (exists gens,
        NX.generations_loop fuel g indegree_map zero = Ok gens
        /\ topological_order g (P ++ concat gens))
    \/ (NX.generations_loop fuel g indegree_map zero = Raise NetworkXUnfeasible
        /\ has_cycle g).
Proof.
  induction fuel as [| fuel IH]; intros P zero indegree_map Hinv Hfuel.
  - destruct zero as [| z zero]; [ | simpl in Hfuel; lia ].
    destruct indegree_map as [| kv rest]; [ | simpl in Hfuel; lia ].
    left. exists []. split; [ reflexivity | ].
    simpl in *. rewrite app_nil_r in *.
    split; [ exact (ki_nodup g _ _ _ Hinv) | ]. split; [ | exact (ki_topo g _ _ _ Hinv) ].
    intros v. split; [ apply (ki_incl g _ _ _ Hinv) | ].
    intros Hv. destruct (ki_count g _ _ _ Hinv v Hv) as [[_ [Hin _]] | [_ [_ Hget]]];
      [ exact Hin | discriminate ].
  - destruct zero as [| z zero].
    + rewrite app_nil_r in Hinv. destruct indegree_map as [| kv rest].
      * left. exists []. split; [ reflexivity | ].
        simpl. rewrite app_nil_r.
        split; [ exact (ki_nodup g _ _ _ Hinv) | ]. split; [ | exact (ki_topo g _ _ _ Hinv) ].
        intros v. split; [ apply (ki_incl g _ _ _ Hinv) | ].
        intros Hv. destruct (ki_count g _ _ _ Hinv v Hv) as [[_ [Hin _]] | [_ [_ Hget]]];
          [ exact Hin | discriminate ].
      * right. split; [ reflexivity | ].
        apply (stuck_cycle P (kv :: rest) Hinv). discriminate.
    + assert (Hinv0 : kahn_inv g (processed P) (P ++ (z :: zero) ++ []) indegree_map).
      { rewrite app_nil_r. exact Hinv. }
      destruct (visit_generation_inv (z :: zero) P [] indegree_map Hinv0)
        as [indegree' [l [Hrun [Hinv' Hlen]]]].
      simpl app in Hrun, Hinv'.
      destruct (IH (P ++ z :: zero) l indegree') as [[gens [Hloop Hgood]] | [Hloop Hcyc]].
      * rewrite <- app_assoc. exact Hinv'.
      * simpl in Hfuel. lia.
      * left. exists ((z :: zero) :: gens).
        change (NX.generations_loop (S fuel) g indegree_map (z :: zero))
          with (st <- NX.visit_generation g (indegree_map, []) (z :: zero) ;;
                gens <- NX.generations_loop fuel g (fst st) (snd st) ;;
                Ok ((z :: zero) :: gens)).
        rewrite Hrun. simpl. rewrite Hloop. simpl. split; [ reflexivity | ].
        rewrite <- app_assoc in Hgood. exact Hgood.
      * right.
        change (NX.generations_loop (S fuel) g indegree_map (z :: zero))
          with (st <- NX.visit_generation g (indegree_map, []) (z :: zero) ;;
                gens <- NX.generations_loop fuel g (fst st) (snd st) ;;
                Ok ((z :: zero) :: gens)).
        rewrite Hrun. simpl. rewrite Hloop. simpl. split; [ reflexivity | exact Hcyc ].
Qed.

End Kahn.

(** *** The run from the initial state *)

Lemma get_tabulate (f : string -> Z) (l : list string) (v : string) :
  In v l -> Dict.get v (map (fun x => (x, f x)) l) = Some (f v).
Proof.
  induction l as [| x l IH]; simpl; [ tauto | ].
  destruct (String.eqb x v) eqn:Hx.
  - apply String.eqb_eq in Hx. subst. reflexivity.
  - apply String.eqb_neq in Hx. intros [H | H]; [ congruence | apply IH, H ].
Qed.

Lemma keys_tabulate (f : string -> Z) (l : list string) :
  Dict.keys (map (fun x => (x, f x)) l) = l.
Proof.
  unfold Dict.keys. rewrite map_map. simpl. apply map_id.
Qed.

Lemma split_by_degree (d : string -> nat) (l : list string) :
  length (filter (fun v => Nat.eqb (d v) 0) l)
  + length (filter (fun v => Nat.ltb 0 (d v)) l) = length l.
Proof.
  induction l as [| x l IH]; simpl; [ reflexivity | ].
  destruct (d x) as [| n]; simpl; lia.
Qed.

Lemma pending_initial (g : NX.DiGraph) (v : string) :
  pending g (processed []) v = NX.in_degree g v.
Proof.
  unfold pending, NX.in_degree, processed. f_equal. apply filter_ext.
  intros e. simpl. apply andb_true_r.
Qed.

Lemma initial_kahn_inv (g : NX.DiGraph) :
  wf g ->
  kahn_inv g (processed []) ([] ++ NX.initial_zero_indegree g)
           (NX.initial_indegree_map g).
Proof.
  intros Hwf. unfold NX.initial_zero_indegree, NX.initial_indegree_map. simpl.
  constructor.
  - apply NoDup_filter, (wf_names g Hwf).
  - intros v Hv. apply filter_In in Hv. tauto.
  - rewrite keys_tabulate. apply NoDup_filter, (wf_names g Hwf).
  - intros v Hv. rewrite pending_initial.
    destruct (NX.in_degree g v) as [| n] eqn:Hd.
    + left. split; [ reflexivity | ]. split.
      * apply filter_In. rewrite Hd. auto.
      * apply get_None_keys. rewrite keys_tabulate. intros H.
        apply filter_In in H. rewrite Hd in H. destruct H. discriminate.
    + right. split; [ lia | ]. split.
      * intros H. apply filter_In in H. rewrite Hd in H. destruct H. discriminate.
      * rewrite <- Hd.
        apply (get_tabulate (fun x => Z.of_nat (NX.in_degree g x))).
        apply filter_In. rewrite Hd. auto.
  - intros v Hv. apply get_None_keys. rewrite keys_tabulate. intros H.
    apply filter_In in H. tauto.
  - apply (topo_app g [] _ (topo_nil g)).
    intros v e Hv He Hdst. apply filter_In in Hv. destruct Hv as [_ Hz].
    apply Nat.eqb_eq in Hz. rewrite <- pending_initial in Hz.
    pose proof (pending_zero_sources g _ _ Hz e He Hdst) as Hc. discriminate.
  - intros e _ Hc. discriminate.
Qed.

(** Kahn's algorithm on a well-formed graph: either all vertices in
    topological order, or [NetworkXUnfeasible] and the graph has a cycle.  It
    never runs out of rounds and never raises [RuntimeError]. *)
Theorem topological_generations_outcome (g : NX.DiGraph) :
  wf g ->
  (exists gens,
      NX.topological_generations g = Ok gens
      /\ topological_order g (concat gens))
  \/ (NX.topological_generations g = Raise NetworkXUnfeasible /\ has_cycle g).
Proof.
  intros Hwf. unfold NX.topological_generations.
  apply (generations_loop_inv g Hwf (length (NX.nodes g)) []).
  - apply initial_kahn_inv, Hwf.
  - unfold NX.initial_zero_indegree, NX.initial_indegree_map.
    rewrite length_map.
    rewrite (split_by_degree (NX.in_degree g) (NX.names g)).
    unfold NX.names, Dict.keys. rewrite length_map. lia.
Qed.

Lemma topological_order_before (g : NX.DiGraph) (order : list string) :
  wf g -> topological_order g order ->
  forall e, In e (NX.edges g) -> before order (NX.src e) (NX.dst e).
Proof.
  intros Hwf [Hnd [Hall Ht]] e He.
  apply (topo_before g order Ht Hnd e He).
  apply Hall. apply (wf_closed g Hwf e He).
Qed.

Lemma topological_order_acyclic (g : NX.DiGraph) (order : list string) :
  wf g -> topological_order g order -> acyclic g.
Proof.
  intros Hwf Ho. apply (ordered_acyclic g order).
  apply topological_order_before; assumption.
Qed.

Lemma topological_order_permutation (g : NX.DiGraph) (order : list string) :
  wf g -> topological_order g order -> Permutation order (NX.names g).
Proof.
  intros Hwf [Hnd [Hall _]].
  apply NoDup_Permutation; [ assumption | apply (wf_names g Hwf) | assumption ].
Qed.

(** [is_directed_acyclic_graph] decides acyclicity. *)
Theorem is_dag_cycle (g : NX.DiGraph) :
  wf g -> has_cycle g -> NX.is_directed_acyclic_graph g = Ok false.
Proof.
  intros Hwf [v Hcyc]. unfold NX.is_directed_acyclic_graph.
  destruct (topological_generations_outcome g Hwf) as [[gens [Hrun Hgood]] | [Hrun _]].
  - exfalso. apply (topological_order_acyclic g _ Hwf Hgood v Hcyc).
  - rewrite Hrun. reflexivity.
Qed.

Theorem is_dag_acyclic (g : NX.DiGraph) :
  wf g -> acyclic g ->
  NX.is_directed_acyclic_graph g = Ok true
  /\ exists order, NX.topological_sort g = Ok order /\ topological_order g order.
Proof.
  intros Hwf Hac. unfold NX.is_directed_acyclic_graph, NX.topological_sort.
  destruct (topological_generations_outcome g Hwf) as [[gens [Hrun Hgood]] | [_ [v Hcyc]]].
  - rewrite Hrun. split; [ reflexivity | ]. exists (concat gens). auto.
  - exfalso. apply (Hac v Hcyc).
Qed.

Lemma is_dag_true_acyclic (g : NX.DiGraph) :
  wf g -> NX.is_directed_acyclic_graph g = Ok true -> acyclic g.
Proof.
  intros Hwf Hdag. unfold NX.is_directed_acyclic_graph in Hdag.
  destruct (topological_generations_outcome g Hwf) as [[gens [Hrun Hgood]] | [Hrun _]].
  - apply (topological_order_acyclic g _ Hwf Hgood).
  - rewrite Hrun in Hdag. discriminate.
Qed.

(** ** The compiler walk (compile_graph) *)

Lemma string_app_assoc (a b c : string) :
  ((a ++ b) ++ c)%string = (a ++ b ++ c)%string.
Proof. induction a as [| x a IH]; simpl; [ reflexivity | rewrite IH; reflexivity ]. Qed.

Lemma string_app_nil_r (a : string) : (a ++ "")%string = a.
Proof. induction a as [| x a IH]; simpl; [ reflexivity | rewrite IH; reflexivity ]. Qed.

Section WalkFacts.
Variable E : Emitters.
Variable fname : string.

Lemma visit_spec (st : Dag.walk_state) (node_name : string) (node : Node) :
  Dict.get node_name (Dag.store st) = Some node ->
  exists st',
    Dag.visit E fname st node_name = Ok st'
    /\ Dag.graph_script st' = (Dag.graph_script st ++ emitted E fname st node_name)%string
    /\ Dag.requirements st' = Dag.requirements st ++ required_packages node
    /\ Dict.keys (Dag.store st') = Dict.keys (Dag.store st)
    /\ Dict.get node_name (Dag.store st') = Some (renamed_if_start fname node_name node)
    /\ (forall m, m <> node_name ->
          Dict.get m (Dag.store st') = Dict.get m (Dag.store st)).
Proof.
  intros Hget. unfold Dag.visit, emitted, renamed_if_start, role_of. rewrite Hget.
  destruct (PyStr.contains "request" node_name).
  - eexists. split; [ reflexivity | ]. simpl.
    split; [ reflexivity | ]. split; [ reflexivity | ].
    split; [ apply keys_set_present; eapply get_In_keys, Hget | ].
    split; [ apply get_set_eq | ].
    intros m Hm. apply get_set_ne, Hm.
  - destruct (PyStr.contains "response" node_name).
    + eexists. split; [ reflexivity | ]. simpl. auto.
    + eexists. split; [ reflexivity | ]. simpl. auto.
Qed.

Lemma walk_spec (order : list string) :
  forall st,
    NoDup order ->
    (forall n, In n order -> In n (Dict.keys (Dag.store st))) ->
    exists st',
      Dag.walk E fname st order = (None, st')
      /\ Dag.graph_script st'
         = (Dag.graph_script st ++ script (trace E fname st order))%string
      /\ map em_node (trace E fname st order) = order
      /\ Forall (fun e => em_kind e = role_of (em_node e)) (trace E fname st order)
      /\ Dict.keys (Dag.store st') = Dict.keys (Dag.store st)
      /\ (forall n node, Dict.get n (Dag.store st) = Some node ->
            (In n order ->
               Dict.get n (Dag.store st') = Some (renamed_if_start fname n node)
               /\ exists st_n,
                    Dict.get n (Dag.store st_n) = Some node
                    /\ In (mkEmission (role_of n) n (emitted E fname st_n n))
                          (trace E fname st order))
            /\ (~ In n order -> Dict.get n (Dag.store st') = Some node)).
Proof.
  induction order as [| n0 rest IH]; intros st Hnd Hkeys.
  - exists st. simpl. rewrite string_app_nil_r.
    split; [ reflexivity | ]. split; [ reflexivity | ]. split; [ reflexivity | ].
    split; [ constructor | ]. split; [ reflexivity | ].
    intros n node Hget. split; [ intros [] | auto ].
  - inversion Hnd as [| x xs Hfresh Hnd']; subst x xs.
    destruct (Dict.get n0 (Dag.store st)) as [node0 |] eqn:Hget0.
    2:{ apply get_None_keys in Hget0. exfalso. apply Hget0, Hkeys. simpl. auto. }
    destruct (visit_spec st n0 node0 Hget0)
      as [st1 [Hvisit [Hscript [_ [Hkeys1 [Hself Hothers]]]]]].
    destruct (IH st1 Hnd') as [st' [Hwalk [Hs [Hnodes [Hkinds [Hkeys' Hstore]]]]]].
    { intros n Hn. rewrite Hkeys1. apply Hkeys. simpl. auto. }
    exists st'. simpl. rewrite Hvisit.
    split; [ exact Hwalk | ].
    split; [ rewrite Hs, Hscript; simpl; apply string_app_assoc | ].
    split; [ simpl; rewrite Hnodes; reflexivity | ].
    split; [ constructor; [ reflexivity | exact Hkinds ] | ].
    split; [ congruence | ].
    intros n node Hget. destruct (string_dec n n0) as [-> | Hne].
    + rewrite Hget0 in Hget. inversion Hget; subst node0.
      split; [ | intros H; exfalso; apply H; simpl; auto ].
      intros _. split.
      * apply (Hstore n0 _ Hself). exact Hfresh.
      * exists st. split; [ exact Hget0 | simpl; auto ].
    + assert (Hget1 : Dict.get n (Dag.store st1) = Some node).
      { rewrite (Hothers n Hne). exact Hget. }
      destruct (Hstore n node Hget1) as [Hin Hout]. split.
      * intros [Heq | Hin']; [ congruence | ].
        destruct (Hin Hin') as [Hfinal [st_n [Hgn Hem]]].
        split; [ exact Hfinal | ]. exists st_n. split; [ exact Hgn | simpl; auto ].
      * intros Hno. apply Hout. intros H. apply Hno. simpl. auto.
Qed.

Lemma count_kind_trace (k : emission_kind) (tr : list emission) :
  Forall (fun e => em_kind e = role_of (em_node e)) tr ->
  count_kind k tr = count_role k (map em_node tr).
Proof.
  unfold count_kind, count_role. induction 1 as [| e tr He _ IH]; simpl; [ reflexivity | ].
  rewrite He. destruct (kind_eqb (role_of (em_node e)) k); simpl; rewrite IH; reflexivity.
Qed.

End WalkFacts.

Lemma count_role_permutation (k : emission_kind) (l l' : list string) :
  Permutation l l' -> count_role k l = count_role k l'.
Proof.
  unfold count_role. induction 1 as [| x l l' _ IH | x y l | l l' l'' _ IH1 _ IH2]; simpl.
  - reflexivity.
  - destruct (kind_eqb (role_of x) k); simpl; rewrite IH; reflexivity.
  - destruct (kind_eqb (role_of x) k), (kind_eqb (role_of y) k); reflexivity.
  - congruence.
Qed.

Lemma compile_graph_stages (E : Emitters) (F : Formatters) (g : NX.DiGraph)
  (ep : ExecutionPath) (order : list string) (st : Dag.walk_state) :
  NX.is_directed_acyclic_graph g = Ok true ->
  NX.topological_sort g = Ok order ->
  Dag.walk E (Dag.derive_function_name (ep_name ep)) (Dag.initial_walk g) order
  = (None, st) ->
  Dag.compile_graph E F g ep
  = (finish F (Dag.derive_function_name (ep_name ep)) ep st, Dag.with_store g st).
Proof.
  intros Hdag Hsort Hwalk. unfold Dag.compile_graph, finish.
  rewrite Hdag, Hsort, Hwalk, generate_requirements_txt_first_seen. reflexivity.
Qed.

(** On a well-formed acyclic graph the walk visits every vertex once, in a
    topological order, and goes through. *)
Lemma compile_graph_acyclic (E : Emitters) (F : Formatters) (g : NX.DiGraph)
  (ep : ExecutionPath) :
  wf g -> acyclic g ->
  exists order st,
    NX.is_directed_acyclic_graph g = Ok true
    /\ NX.topological_sort g = Ok order
    /\ topological_order g order
    /\ Dag.walk E (Dag.derive_function_name (ep_name ep)) (Dag.initial_walk g) order
       = (None, st)
    /\ Dag.compile_graph E F g ep
       = (finish F (Dag.derive_function_name (ep_name ep)) ep st, Dag.with_store g st).
Proof.
  intros Hwf Hac.
  destruct (is_dag_acyclic g Hwf Hac) as [Hdag [order [Hsort Hgood]]].
  destruct (walk_spec E (Dag.derive_function_name (ep_name ep)) order (Dag.initial_walk g))
    as [st [Hwalk _]].
  - apply Hgood.
  - intros n Hn. apply Hgood, Hn.
  - exists order, st. repeat (split; [ assumption | ]).
    apply (compile_graph_stages E F g ep order st); assumption.
Qed.

Lemma topological_sort_Ok (g : NX.DiGraph) (order : list string) :
  wf g -> NX.topological_sort g = Ok order -> topological_order g order.
Proof.
  intros Hwf Hsort. unfold NX.topological_sort in Hsort.
  destruct (topological_generations_outcome g Hwf) as [[gens [Hrun Hgood]] | [Hrun _]];
    rewrite Hrun in Hsort; simpl in Hsort; [ | discriminate ].
  inversion Hsort; subst. exact Hgood.
Qed.

Lemma compile_graph_Ok_inv (E : Emitters) (F : Formatters) (g g' : NX.DiGraph)
  (ep : ExecutionPath) (fd : FunctionData) :
  Dag.compile_graph E F g ep = (Ok fd, g') ->
  exists order st source,
    NX.is_directed_acyclic_graph g = Ok true
    /\ NX.topological_sort g = Ok order
    /\ Dag.walk E (Dag.derive_function_name (ep_name ep)) (Dag.initial_walk g) order
       = (None, st)
    /\ Dag.refactor_imports (Dag.assemble st) = Ok source
    /\ Dag.format_and_sort_code F source = Ok (fd_code fd)
    /\ function_name fd = Dag.derive_function_name (ep_name ep)
    /\ g' = Dag.with_store g st.
Proof.
  unfold Dag.compile_graph.
  destruct (NX.is_directed_acyclic_graph g) as [[|] | e]; try discriminate.
  destruct (NX.topological_sort g) as [order | e]; try discriminate.
  destruct (Dag.walk E _ (Dag.initial_walk g) order) as [[e |] st] eqn:Hwalk; try discriminate.
  rewrite generate_requirements_txt_first_seen. simpl.
  destruct (Dag.refactor_imports (Dag.assemble st)) as [source | e] eqn:Hsrc; try discriminate.
  simpl. destruct (Dag.format_and_sort_code F source) as [formatted | e] eqn:Hfmt; try discriminate.
  simpl. intros H. inversion H; subst. simpl.
  exists order, st, source. auto 10.
Qed.

(** *** Decidable well-formedness, for concrete graphs *)

Lemma nodupb_NoDup (l : list string) : nodupb l = true -> NoDup l.
Proof.
  induction l as [| x l IH]; simpl; intros H; [ constructor | ].
  apply andb_true_iff in H. destruct H as [Hx Hl].
  constructor; [ | apply IH, Hl ].
  apply negb_true_iff, mem_not_In in Hx. exact Hx.
Qed.

Lemma nodup_pairsb_NoDup (l : list (string * string)) :
  nodup_pairsb l = true -> NoDup l.
Proof.
  induction l as [| x l IH]; simpl; intros H; [ constructor | ].
  apply andb_true_iff in H. destruct H as [Hx Hl].
  constructor; [ | apply IH, Hl ].
  apply negb_true_iff in Hx. intros Hin.
  assert (Hex : existsb (pair_eqb x) l = true).
  { apply existsb_exists. exists x. split; [ exact Hin | ].
    unfold pair_eqb. rewrite !String.eqb_refl. reflexivity. }
  congruence.
Qed.

Lemma wfb_wf (g : NX.DiGraph) : wfb g = true -> wf g.
Proof.
  unfold wfb. intros H.
  apply andb_true_iff in H. destruct H as [H Hclosed].
  apply andb_true_iff in H. destruct H as [Hnames Hedges].
  constructor.
  - apply nodupb_NoDup, Hnames.
  - apply nodup_pairsb_NoDup, Hedges.
  - intros e He. rewrite forallb_forall in Hclosed. specialize (Hclosed e He).
    apply andb_true_iff in Hclosed. destruct Hclosed as [Hs Hd].
    split; apply mem_In; assumption.
Qed.

(** *** The concrete graphs *)

Lemma graph_route_wf : wf graph_route.
Proof. apply wfb_wf. reflexivity. Qed.

Lemma graph_route_acyclic : acyclic graph_route.
Proof. apply is_dag_true_acyclic; [ exact graph_route_wf | reflexivity ]. Qed.

Lemma graph_cyclic_wf : wf graph_cyclic.
Proof. apply wfb_wf. reflexivity. Qed.

(** The cyclic graph is one the builder produces. *)
Lemma graph_cyclic_built : built graph_cyclic.
Proof. repeat constructor. Qed.

Lemma graph_cyclic_has_cycle : has_cycle graph_cyclic.
Proof.
  exists "double". apply path_step with (v := "request_node").
  - exists ("double", "request_node", "y"). simpl. auto.
  - apply path_edge. exists ("request_node", "double", "x"). simpl. auto.
Qed.

Lemma graph_commented_wf : wf graph_commented.
Proof. apply wfb_wf. reflexivity. Qed.

Lemma graph_commented_acyclic : acyclic graph_commented.
Proof. apply is_dag_true_acyclic; [ exact graph_commented_wf | reflexivity ]. Qed.

(** ** Properties of compile_graph *)

(** C3: on a graph with a cycle [compile_graph] raises the not-a-DAG error;
    no FunctionData is returned and the graph, its stored nodes included, is
    the one the call received: nothing has been emitted or renamed. *)
Theorem C3_cycle_not_a_dag (E : Emitters) (F : Formatters) (g : NX.DiGraph)
  (ep : ExecutionPath) :
  wf g -> has_cycle g ->
  Dag.compile_graph E F g ep = (Raise NotADAG, g).
Proof.
  intros Hwf Hcyc. unfold Dag.compile_graph.
  rewrite (is_dag_cycle g Hwf Hcyc). reflexivity.
Qed.

Lemma C3_cycle_not_a_dag_witness :
  Dag.compile_graph demo_emitters lenient_formatters graph_cyclic demo_route
  = (Raise NotADAG, graph_cyclic).
Proof.
  apply (C3_cycle_not_a_dag demo_emitters lenient_formatters graph_cyclic demo_route).
  - exact graph_cyclic_wf.
  - exact graph_cyclic_has_cycle.
Defined.

(** C6, as stated, fails: the assembled source of [graph_broken] passes
    [refactor_imports], the formatter cannot parse it, and [compile_graph]
    raises that error instead of returning the unnormalised source. *)
Lemma C6_unparsable_source_aborts :
  exists order st source,
    NX.topological_sort graph_broken = Ok order
    /\ Dag.walk demo_emitters (Dag.derive_function_name (ep_name demo_route))
         (Dag.initial_walk graph_broken) order = (None, st)
    /\ Dag.refactor_imports (Dag.assemble st) = Ok source
    /\ Dag.format_and_sort_code strict_formatters source = Raise UnparsableSource
    /\ fst (Dag.compile_graph demo_emitters strict_formatters graph_broken demo_route)
       = Raise UnparsableSource.
Proof.
  eexists. eexists. eexists.
  split; [ reflexivity | ]. split; [ reflexivity | ].
  split; [ reflexivity | ]. split; reflexivity.
Qed.

(** C6, amended: when the formatter cannot parse the source that
    [refactor_imports] made of the assembled text, the error propagates:
    [compile_graph] raises it and returns no FunctionData; and whenever
    [compile_graph] returns FunctionData, its code is what the formatter
    returned for the source [refactor_imports] made of the text the walk
    assembled: the unnormalised text is never returned in its place. *)
Theorem C6_normalisation_failure_propagates (E : Emitters) (F : Formatters)
  (g : NX.DiGraph) (ep : ExecutionPath) :
  (forall (order : list string) (st : Dag.walk_state) (source : string) (e : exn),
     NX.is_directed_acyclic_graph g = Ok true ->
     NX.topological_sort g = Ok order ->
     Dag.walk E (Dag.derive_function_name (ep_name ep)) (Dag.initial_walk g) order
     = (None, st) ->
     Dag.refactor_imports (Dag.assemble st) = Ok source ->
     Dag.format_and_sort_code F source = Raise e ->
     Dag.compile_graph E F g ep = (Raise e, Dag.with_store g st))
  /\ (forall (fd : FunctionData) (g' : NX.DiGraph),
        Dag.compile_graph E F g ep = (Ok fd, g') ->
        exists order st source,
          NX.topological_sort g = Ok order
          /\ Dag.walk E (Dag.derive_function_name (ep_name ep)) (Dag.initial_walk g) order
             = (None, st)
          /\ Dag.refactor_imports (Dag.assemble st) = Ok source
          /\ Dag.format_and_sort_code F source = Ok (fd_code fd)).
Proof.
  split.
  - intros order st source e Hdag Hsort Hwalk Hsrc Hfmt.
    rewrite (compile_graph_stages E F g ep order st Hdag Hsort Hwalk).
    unfold finish. rewrite Hsrc. simpl. rewrite Hfmt. reflexivity.
  - intros fd g' Hok. apply compile_graph_Ok_inv in Hok.
    destruct Hok as [order [st [source [_ [Hsort [Hwalk [Hsrc [Hfmt _]]]]]]]].
    exists order, st, source. auto.
Qed.

Lemma C6_normalisation_failure_propagates_witness :
  fst (Dag.compile_graph demo_emitters strict_formatters graph_broken demo_route)
  = Raise UnparsableSource
  /\ exists order st source,
       NX.topological_sort graph_route = Ok order
       /\ Dag.walk demo_emitters (Dag.derive_function_name (ep_name demo_route))
            (Dag.initial_walk graph_route) order
          = (None, st)
       /\ Dag.refactor_imports (Dag.assemble st) = Ok source
       /\ Dag.format_and_sort_code lenient_formatters source
          = Ok (fd_code compiled_route).
Proof.
  split.
  - destruct (C6_normalisation_failure_propagates demo_emitters strict_formatters
                graph_broken demo_route) as [Hfail _].
    erewrite Hfail;
      [ reflexivity | reflexivity | reflexivity | reflexivity | reflexivity | reflexivity ].
  - destruct (C6_normalisation_failure_propagates demo_emitters lenient_formatters
                graph_route demo_route) as [_ Hcode].
    apply (Hcode compiled_route
             (snd (Dag.compile_graph demo_emitters lenient_formatters graph_route
                     demo_route))).
    reflexivity.
Defined.

(** *** The function name *)

(** C8, as stated, fails: for a route name that starts with a tabulation
    the compiled function name has lost it, while replacing, removing
    slashes and lowering the case alone keep it. *)
Lemma C8_leading_whitespace_stripped :
  exists fd,
    fst (Dag.compile_graph demo_emitters lenient_formatters graph_route tab_route)
    = Ok fd
    /\ function_name fd = "get_user_request"
    /\ claimed_function_name (ep_name tab_route)
       = String (ascii_of_nat 9) "get_user_request"
    /\ function_name fd <> claimed_function_name (ep_name tab_route).
Proof.
  eexists. split; [ reflexivity | ]. split; [ reflexivity | ].
  split; [ reflexivity | ]. discriminate.
Qed.

(** An emission of a trace is a segment of its script. *)
Lemma script_segment (e : emission) (tr : list emission) :
  In e tr ->
  exists before after, script tr = (before ++ em_text e ++ after)%string.
Proof.
  induction tr as [| e0 tr IH]; intros Hin; [ destruct Hin | ].
  destruct Hin as [-> | Hin].
  - exists EmptyString, (script tr). reflexivity.
  - destruct (IH Hin) as [before [after Hs]].
    exists (em_text e0 ++ before)%string, after.
    simpl. rewrite Hs. symmetry. apply string_app_assoc.
Qed.

(** C8, amended: the returned function name is the route name with spaces
    and hyphens replaced by underscores, slashes removed, surrounding
    whitespace stripped and the case lowered, followed by [_request]; the
    returned code is what the normaliser made of the text the walk
    assembled; every vertex whose name contains [request] has its stored
    node renamed to the function name, and the script the walk assembled
    holds the header [request_to_code] gives for that renamed node. *)
Theorem C8_function_name (E : Emitters) (F : Formatters) (g g' : NX.DiGraph)
  (ep : ExecutionPath) (fd : FunctionData) :
  wf g ->
  Dag.compile_graph E F g ep = (Ok fd, g') ->
  function_name fd = stripped_function_name (ep_name ep)
  /\ exists order st source,
       NX.topological_sort g = Ok order
       /\ Dag.walk E (function_name fd) (Dag.initial_walk g) order = (None, st)
       /\ Dag.refactor_imports
            (Dag.python_file st ++ Dag.newline ++ Dag.graph_script st)%string
          = Ok source
       /\ Dag.format_and_sort_code F source = Ok (fd_code fd)
       /\ forall n node,
            Dict.get n (NX.nodes g) = Some node ->
            role_of n = StartEmission ->
            Dict.get n (NX.nodes g') = Some (set_name node (function_name fd))
            /\ exists before after,
                 Dag.graph_script st
                 = (before ++ request_to_code E (set_name node (function_name fd))
                    ++ after)%string.
Proof.
  intros Hwf Hok. apply compile_graph_Ok_inv in Hok.
  destruct Hok as [order [st [source [_ [Hsort [Hwalk [Hsrc [Hfmt [Hname Hg']]]]]]]]].
  subst g'. split; [ exact Hname | ].
  exists order, st, source.
  split; [ exact Hsort | ]. split; [ rewrite Hname; exact Hwalk | ].
  split; [ exact Hsrc | ]. split; [ exact Hfmt | ].
  intros n node Hget Hrole.
  pose proof (topological_sort_Ok g order Hwf Hsort) as [Hnd [Hall _]].
  destruct (walk_spec E (function_name fd) order (Dag.initial_walk g) Hnd)
    as [st' [Hwalk' [Hscript [_ [_ [_ Hstore]]]]]].
  { intros m Hm. apply Hall, Hm. }
  rewrite Hname in Hwalk'. rewrite Hwalk in Hwalk'. inversion Hwalk'; subst st'.
  assert (Hin : In n order).
  { apply Hall. eapply get_In_keys, Hget. }
  destruct (Hstore n node Hget) as [Hvisited _].
  destruct (Hvisited Hin) as [Hfinal [st_n [Hgn Hem]]].
  unfold renamed_if_start in Hfinal. rewrite Hrole in Hfinal.
  split.
  - simpl. exact Hfinal.
  - unfold emitted in Hem. rewrite Hgn, Hrole in Hem.
    destruct (script_segment _ _ Hem) as [before [after Hseg]].
    exists before, after. rewrite Hscript. simpl. exact Hseg.
Qed.

Lemma C8_function_name_witness :
  function_name compiled_route = "get_user_request"
  /\ exists order st source,
       NX.topological_sort graph_route = Ok order
       /\ Dag.walk demo_emitters (function_name compiled_route)
            (Dag.initial_walk graph_route) order = (None, st)
       /\ Dag.refactor_imports
            (Dag.python_file st ++ Dag.newline ++ Dag.graph_script st)%string
          = Ok source
       /\ Dag.format_and_sort_code lenient_formatters source
          = Ok (fd_code compiled_route)
       /\ forall n node,
            Dict.get n (NX.nodes graph_route) = Some node ->
            role_of n = StartEmission ->
            Dict.get n (NX.nodes (snd (Dag.compile_graph demo_emitters lenient_formatters
                                        graph_route demo_route)))
            = Some (set_name node (function_name compiled_route))
            /\ exists before after,
                 Dag.graph_script st
                 = (before
                    ++ request_to_code demo_emitters
                         (set_name node (function_name compiled_route))
                    ++ after)%string.
Proof.
  apply (C8_function_name demo_emitters lenient_formatters graph_route
           (snd (Dag.compile_graph demo_emitters lenient_formatters graph_route demo_route))
           demo_route compiled_route graph_route_wf).
  reflexivity.
Defined.

(** *** Emissions of a compilation *)

(** C1: the code fails the claim on [graph_commented].  The graph is well
    formed and acyclic, has one start and one end vertex, and each declared
    input of its other vertices is produced by exactly one upstream vertex;
    the code of its interior step starts with the line
    [from operator import mul  # import the product], which is valid
    Python.  [compile_graph] does not succeed: [refactor_imports] splits
    that line in three around [ import ], and the unpacking into two names
    at dag.py:66 raises. *)
Lemma C1_commented_import_aborts :
  wfb graph_commented = true
  /\ NX.is_directed_acyclic_graph graph_commented = Ok true
  /\ count_role StartEmission (NX.names graph_commented) = 1
  /\ count_role EndEmission (NX.names graph_commented) = 1
  /\ inputs_satisfiedb graph_commented = true
  /\ fst (Dag.compile_graph demo_emitters lenient_formatters graph_commented demo_route)
     = Raise UnpackError.
Proof. repeat split; reflexivity. Qed.

(** The failure above does not depend on the emitters or the formatters. *)
Lemma commented_import_aborts_always (E : Emitters) (F : Formatters) :
  fst (Dag.compile_graph E F graph_commented demo_route) = Raise UnpackError.
Proof.
  destruct (compile_graph_acyclic E F graph_commented demo_route
              graph_commented_wf graph_commented_acyclic)
    as [order [st [_ [Hsort [_ [Hwalk Hrun]]]]]].
  rewrite Hrun. simpl.
  assert (Horder : order = ["request_node"; "double"; "response_node"]).
  { vm_compute in Hsort. inversion Hsort. reflexivity. }
  subst order. unfold finish.
  assert (Hsrc : Dag.refactor_imports (Dag.assemble st) = Raise UnpackError).
  { cbn in Hwalk. inversion Hwalk; subst st. clear Hwalk Hrun Hsort.
    unfold Dag.assemble. cbn [Dag.python_file Dag.graph_script].
    unfold Dag.refactor_imports.
    set (tail := (Dag.newline ++ _)%string).
    vm_compute. reflexivity. }
  rewrite Hsrc. reflexivity.
Qed.

(** X22: on a well-formed acyclic graph with one start and one end vertex,
    [compile_graph] passes the acyclicity check and walks all vertices in an
    order that lists the source of every edge before its target; the walk
    goes through and makes one emission per vertex, in that order: exactly
    one start emission, exactly one end emission and one call site for each
    other vertex, and [graph_script] is their concatenation; the outcome of
    the call is that of the manifest and normalisation stages on what the
    walk gathered. *)
Theorem compile_graph_emissions (E : Emitters) (F : Formatters) (g : NX.DiGraph)
  (ep : ExecutionPath) :
  wf g -> acyclic g ->
  count_role StartEmission (NX.names g) = 1 ->
  count_role EndEmission (NX.names g) = 1 ->
  exists order st,
    NX.topological_sort g = Ok order
    /\ NoDup order
    /\ Permutation order (NX.names g)
    /\ (forall e, In e (NX.edges g) -> before order (NX.src e) (NX.dst e))
    /\ Dag.walk E (Dag.derive_function_name (ep_name ep)) (Dag.initial_walk g) order
       = (None, st)
    /\ (let tr := trace E (Dag.derive_function_name (ep_name ep))
                        (Dag.initial_walk g) order in
        map em_node tr = order
        /\ Forall (fun e => em_kind e = role_of (em_node e)) tr
        /\ count_kind StartEmission tr = 1
        /\ count_kind EndEmission tr = 1
        /\ count_kind CallSite tr = count_role CallSite (NX.names g)
        /\ Dag.graph_script st = script tr)
    /\ Dag.compile_graph E F g ep
       = (finish F (Dag.derive_function_name (ep_name ep)) ep st, Dag.with_store g st).
Proof.
  intros Hwf Hac Hstart Hend.
  destruct (compile_graph_acyclic E F g ep Hwf Hac)
    as [order [st [_ [Hsort [Hgood [Hwalk Hrun]]]]]].
  pose proof (topological_order_permutation g order Hwf Hgood) as Hperm.
  destruct (walk_spec E (Dag.derive_function_name (ep_name ep)) order (Dag.initial_walk g))
    as [st' [Hwalk' [Hscript [Hnodes [Hkinds _]]]]].
  { apply Hgood. }
  { intros n Hn. apply Hgood, Hn. }
  rewrite Hwalk in Hwalk'. inversion Hwalk'; subst st'.
  exists order, st.
  split; [ exact Hsort | ]. split; [ apply Hgood | ]. split; [ exact Hperm | ].
  split; [ apply topological_order_before; assumption | ].
  split; [ exact Hwalk | ]. split; [ | exact Hrun ].
  assert (Hcount : forall k,
             count_kind k (trace E (Dag.derive_function_name (ep_name ep))
                                 (Dag.initial_walk g) order)
             = count_role k (NX.names g)).
  { intros k. rewrite (count_kind_trace k _ Hkinds), Hnodes.
    apply count_role_permutation, Hperm. }
  cbv zeta.
  split; [ exact Hnodes | ]. split; [ exact Hkinds | ].
  split; [ rewrite Hcount; exact Hstart | ].
  split; [ rewrite Hcount; exact Hend | ].
  split; [ apply Hcount | exact Hscript ].
Qed.

Lemma compile_graph_emissions_witness :
  exists order st,
    NX.topological_sort graph_route = Ok order
    /\ Dag.walk demo_emitters (Dag.derive_function_name (ep_name demo_route))
         (Dag.initial_walk graph_route) order = (None, st)
    /\ count_kind StartEmission
         (trace demo_emitters (Dag.derive_function_name (ep_name demo_route))
                (Dag.initial_walk graph_route) order) = 1
    /\ count_kind EndEmission
         (trace demo_emitters (Dag.derive_function_name (ep_name demo_route))
                (Dag.initial_walk graph_route) order) = 1.
Proof.
  destruct (compile_graph_emissions demo_emitters lenient_formatters graph_route demo_route
              graph_route_wf graph_route_acyclic eq_refl eq_refl)
    as [order [st [Hsort [_ [_ [_ [Hwalk [[_ [_ [Hs [He _]]]] _]]]]]]]].
  exists order, st. auto.
Defined.

(** The end-to-end scenario of the route with one interior step. *)
Lemma graph_route_compiles :
  fst (Dag.compile_graph demo_emitters lenient_formatters graph_route demo_route)
  = Ok {| function_name := "get_user_request";
          fd_code := "


def double(x):
    return x * 2

def get_user_request(x):
    y = double(x)
    return y
";
          requirements_txt := "requests==2.0";
          endpoint_name := "get_user" |}.
Proof. reflexivity. Qed.

(** ** The normaliser (refactor_imports, format_and_sort_code) *)

(** [refactor_imports] always puts a blank separator in front of the body,
    so it is not idempotent by itself: a second pass adds a second
    separator.  Whether the whole pipeline is idempotent rests on what the
    formatters do with such leading blank lines. *)
Lemma refactor_imports_adds_separator :
  Dag.refactor_imports "x = 1" = Ok (Dag.newline ++ Dag.newline ++ "x = 1")%string
  /\ Dag.refactor_imports (Dag.newline ++ Dag.newline ++ "x = 1")%string
     = Ok (Dag.newline ++ Dag.newline ++ Dag.newline ++ Dag.newline ++ "x = 1")%string.
Proof. split; reflexivity. Qed.

(** Imports are gathered, merged by origin and sorted in front of the
    body. *)
Lemma refactor_imports_example :
  Dag.refactor_imports "import os
from a import c
x = 1
from a import b
import os"
  = Ok "from a import b, c
import os

x = 1".
Proof. reflexivity. Qed.

(** Idempotence of the pipeline is a property of the formatters: it holds
    with formatters that erase their input and fails with formatters that
    return it unchanged. *)
Lemma normalize_idempotence_depends_on_formatters :
  (forall x, normalize_twice erasing_formatters x = normalize erasing_formatters x)
  /\ normalize lenient_formatters "x = 1"
     = Ok (Dag.newline ++ Dag.newline ++ "x = 1")%string
  /\ normalize_twice lenient_formatters "x = 1"
     <> normalize lenient_formatters "x = 1".
Proof.
  split; [ | split; [ reflexivity | discriminate ] ].
  intros x. unfold normalize_twice, normalize.
  destruct (Dag.refactor_imports x) as [source | e]; reflexivity.
Qed.

(* ===================================================================== *)
(** * Part III: further properties of the code                            *)
(* ===================================================================== *)

(** ** The builder: which provider is wired, and when insertion succeeds *)

Lemma mem_cons (x a : string) (l : list string) :
  PyStr.mem x (a :: l) = String.eqb x a || PyStr.mem x l.
Proof. reflexivity. Qed.

Lemma scan_outputs_get (needed : list string) (n : string) (outs : list Param) :
  forall providers k,
    Dict.get k (Dag.scan_outputs needed n outs providers)
    = if PyStr.mem k needed && PyStr.mem k (map Dag.param_key outs)
      then Some n else Dict.get k providers.
Proof.
  unfold Dag.scan_outputs.
  induction outs as [| o outs IH]; intros providers k; cbn [fold_left map].
  - rewrite andb_false_r. reflexivity.
  - rewrite IH, mem_cons.
    destruct (String.eqb k (Dag.param_key o)) eqn:Hko.
    + apply String.eqb_eq in Hko. subst k.
      destruct (PyStr.mem (Dag.param_key o) needed); simpl; [ | reflexivity ].
      rewrite get_set_eq. destruct (PyStr.mem _ _); reflexivity.
    + apply String.eqb_neq in Hko. simpl.
      destruct (PyStr.mem k needed && PyStr.mem k (map Dag.param_key outs));
        [ reflexivity | ].
      destruct (PyStr.mem (Dag.param_key o) needed); [ | reflexivity ].
      apply get_set_ne, Hko.
Qed.

Lemma scan_fold_get (needed : list string) (vertices : Dict.t Node) :
  forall providers k,
    Dict.get k (fold_left (scan_step needed) vertices providers)
    = match (if PyStr.mem k needed then last_producer k vertices else None) with
      | Some m => Some m
      | None => Dict.get k providers
      end.
Proof.
  induction vertices as [| [n node] rest IH]; intros providers k; simpl.
  - destruct (PyStr.mem k needed); reflexivity.
  - rewrite IH. destruct (PyStr.mem k needed) eqn:Hk; [ | ].
    + destruct (last_producer k rest) as [m |]; [ reflexivity | ].
      unfold scan_step, producesb, output_keys. simpl.
      destruct (output_params node) as [outs |].
      * rewrite scan_outputs_get, Hk. simpl.
        destruct (PyStr.mem k (map Dag.param_key outs)); reflexivity.
      * reflexivity.
    + unfold scan_step. simpl. destruct (output_params node) as [outs |]; [ | reflexivity ].
      rewrite scan_outputs_get, Hk. reflexivity.
Qed.

(** The provider the scan records for a key. *)
Lemma scan_nodes_get (needed : list string) (g : NX.DiGraph) (k : string) :
  Dict.get k (Dag.scan_nodes needed (NX.nodes g))
  = if PyStr.mem k needed then last_producer k (NX.nodes g) else None.
Proof.
  unfold Dag.scan_nodes.
  change (fold_left _ (NX.nodes g) []) with (fold_left (scan_step needed) (NX.nodes g) []).
  rewrite scan_fold_get. destruct (PyStr.mem k needed); [ | reflexivity ].
  destruct (last_producer k (NX.nodes g)); reflexivity.
Qed.

Lemma producesb_produces (node : Node) (k : string) :
  producesb node k = true <-> produces node k.
Proof.
  unfold producesb, produces, output_keys. rewrite mem_In. split.
  - destruct (output_params node) as [outs |]; [ | intros [] ].
    rewrite in_map_iff. intros [out [Hk Hin]]. exists outs, out. auto.
  - intros [outs [out [Ho [Hin Hk]]]]. rewrite Ho. rewrite in_map_iff. exists out. auto.
Qed.

Lemma last_producer_Some (k : string) (vertices : Dict.t Node) (m : string) :
  last_producer k vertices = Some m ->
  exists node, In (m, node) vertices /\ produces node k.
Proof.
  induction vertices as [| [n node] rest IH]; simpl; [ discriminate | ].
  destruct (last_producer k rest) as [m' |].
  - intros H. destruct (IH H) as [node' [Hin Hp]]. exists node'. auto.
  - destruct (producesb node k) eqn:Hp; [ | discriminate ].
    intros [= <-]. exists node. split; [ auto | apply producesb_produces, Hp ].
Qed.

Lemma last_producer_None (k : string) (vertices : Dict.t Node) :
  last_producer k vertices = None ->
  forall n node, In (n, node) vertices -> ~ produces node k.
Proof.
  induction vertices as [| [n0 node0] rest IH]; simpl; [ intros _ n node [] | ].
  destruct (last_producer k rest) as [m' |]; [ discriminate | ].
  destruct (producesb node0 k) eqn:Hp; [ discriminate | ].
  intros _ n node [Heq | Hin].
  - inversion Heq; subst. rewrite <- producesb_produces. congruence.
  - apply (IH eq_refl n node Hin).
Qed.

Lemma provided_last_producer (g : NX.DiGraph) (k : string) :
  provided g k <-> exists m, last_producer k (NX.nodes g) = Some m.
Proof.
  split.
  - intros [n [node [Hin Hp]]].
    destruct (last_producer k (NX.nodes g)) as [m |] eqn:Hl; [ exists m; reflexivity | ].
    exfalso. apply (last_producer_None k _ Hl n node Hin Hp).
  - intros [m Hl]. destruct (last_producer_Some k _ m Hl) as [node [Hin Hp]].
    exists m, node. auto.
Qed.

Lemma scan_nodes_complete (needed : list string) (g : NX.DiGraph) (k : string) :
  In k needed -> provided g k ->
  In k (Dict.keys (Dag.scan_nodes needed (NX.nodes g))).
Proof.
  intros Hk Hp. apply provided_last_producer in Hp. destruct Hp as [m Hl].
  apply (get_In_keys _ k m). rewrite scan_nodes_get.
  apply mem_In in Hk. rewrite Hk. exact Hl.
Qed.

(** The length test of [add_node], spelt out. *)
Lemma lengths_agree_iff (g : NX.DiGraph) (node : Node) :
  length (Dag.input_params_needed node)
  = length (Dag.scan_nodes (Dag.input_params_needed node) (NX.nodes g))
  <-> wirable g node.
Proof.
  set (needed := Dag.input_params_needed node).
  set (providers := Dag.scan_nodes needed (NX.nodes g)).
  assert (Hnd : NoDup (Dict.keys providers)) by apply scan_nodes_nodup.
  assert (Hincl : incl (Dict.keys providers) needed).
  { intros k Hk. apply scan_nodes_keys in Hk. tauto. }
  assert (Hlen : length providers = length (Dict.keys providers)).
  { unfold Dict.keys. rewrite length_map. reflexivity. }
  unfold wirable. fold needed. split.
  - intros Heq.
    assert (Hle : length needed <= length (Dict.keys providers)) by lia.
    split.
    + apply (NoDup_incl_NoDup Hnd Hle Hincl).
    + intros k Hk.
      pose proof (NoDup_length_incl Hnd Hle Hincl k Hk) as Hin.
      apply scan_nodes_keys in Hin. tauto.
  - intros [Hnn Hall].
    assert (Hback : incl needed (Dict.keys providers)).
    { intros k Hk. apply scan_nodes_complete; [ exact Hk | apply Hall, Hk ]. }
    pose proof (NoDup_incl_length Hnd Hincl).
    pose proof (NoDup_incl_length Hnn Hback). lia.
Qed.

Lemma param_key_nonempty (p : Param) : Dag.param_key p <> EmptyString.
Proof.
  unfold Dag.param_key. destruct (param_name p); discriminate.
Qed.

Lemma needed_nonempty (node : Node) (k : string) :
  In k (Dag.input_params_needed node) -> k <> EmptyString.
Proof.
  unfold Dag.input_params_needed.
  destruct (input_params node) as [[| p ps] |]; [ intros [] | | intros [] ].
  intros Hin. apply in_map_iff in Hin. destruct Hin as [q [<- _]].
  apply param_key_nonempty.
Qed.

Lemma has_edge_ends (g : NX.DiGraph) (u v : string) :
  has_edge g u v <-> In (u, v) (map NX.ends (NX.edges g)).
Proof.
  unfold has_edge. rewrite in_map_iff. split.
  - intros [e [He [Hs Hd]]]. exists e. split; [ | exact He ].
    unfold NX.ends, NX.src, NX.dst in *. destruct e as [[a b] c]. simpl in *. congruence.
  - intros [e [Heq He]]. exists e. split; [ exact He | ].
    unfold NX.ends, NX.src, NX.dst in *. destruct e as [[a b] c]. simpl in *.
    inversion Heq. auto.
Qed.

Lemma In_ends_set_edge (u v c : string) (es : list NX.edge) (a b : string) :
  In (a, b) (map NX.ends (NX.set_edge u v c es))
  <-> (a, b) = (u, v) \/ In (a, b) (map NX.ends es).
Proof.
  rewrite set_edge_ends.
  destruct (existsb (pair_eqb (u, v)) (map NX.ends es)) eqn:Hex.
  - split; [ auto | ]. intros [Heq | H]; [ | exact H ].
    apply existsb_exists in Hex. destruct Hex as [[x y] [Hin Hp]].
    unfold pair_eqb in Hp. simpl in Hp. apply andb_true_iff in Hp.
    destruct Hp as [Hx Hy]. apply String.eqb_eq in Hx, Hy. subst. rewrite Heq. exact Hin.
  - rewrite in_app_iff. simpl. intuition.
Qed.

(** What [connect] does to the edges: it adds one from each provider to the
    new vertex, and keeps the pairs that were joined. *)
Lemma connect_edges (node_name : string) (providers : Dict.t string) :
  forall g,
    (forall k p, In (k, p) providers -> k <> EmptyString) ->
    fst (Dag.connect g node_name providers) = Ok true
    /\ NX.nodes (snd (Dag.connect g node_name providers)) = NX.nodes g
    /\ forall a b,
         has_edge (snd (Dag.connect g node_name providers)) a b
         <-> has_edge g a b \/ (b = node_name /\ exists k, In (k, a) providers).
Proof.
  induction providers as [| [k p] rest IH]; intros g Hne; simpl.
  - split; [ reflexivity | ]. split; [ reflexivity | ].
    intros a b. split; [ auto | ]. intros [H | [_ [k []]]]. exact H.
  - destruct k as [| c k'];
      [ exfalso; apply (Hne EmptyString p); [ left; reflexivity | reflexivity ] | ].
    assert (Hne' : forall k0 p0, In (k0, p0) rest -> k0 <> EmptyString).
    { intros k0 p0 Hin. apply (Hne k0 p0). right. exact Hin. }
    destruct (IH (NX.add_edge g p node_name (String c "")) Hne')
      as [Hok [Hnodes Hedges]].
    split; [ exact Hok | ]. split; [ rewrite Hnodes; reflexivity | ].
    intros a b. rewrite Hedges. rewrite !has_edge_ends. simpl.
    rewrite In_ends_set_edge. split.
    + intros [[Heq | H] | [Hb [k0 Hin]]].
      * inversion Heq; subst. right. split; [ reflexivity | ]. exists (String c k'). auto.
      * auto.
      * right. split; [ exact Hb | ]. exists k0. auto.
    + intros [H | [Hb [k0 [Heq | Hin]]]].
      * auto.
      * inversion Heq; subst. auto.
      * right. split; [ exact Hb | ]. exists k0. exact Hin.
Qed.

Lemma providers_nonempty_keys (g : NX.DiGraph) (node : Node) (k p : string) :
  In (k, p) (Dag.scan_nodes (Dag.input_params_needed node) (NX.nodes g)) ->
  k <> EmptyString.
Proof.
  intros Hin. apply (needed_nonempty node).
  apply (in_map fst) in Hin. simpl in Hin.
  apply (scan_nodes_keys _ g k Hin).
Qed.

(** The three ways [add_node] goes. *)
Lemma add_node_cases (g : NX.DiGraph) (node_name : string) (node : Node) :
  (NX.number_of_nodes g = 0
   /\ Dag.add_node g node_name node = (Ok true, NX.add_node g node_name node))
  \/ (NX.number_of_nodes g <> 0 /\ ~ wirable g node
      /\ Dag.add_node g node_name node = (Raise MissingDependency, g))
  \/ (NX.number_of_nodes g <> 0 /\ wirable g node
      /\ Dag.add_node g node_name node
         = Dag.connect (NX.add_node g node_name node) node_name
             (Dag.scan_nodes (Dag.input_params_needed node) (NX.nodes g))).
Proof.
  unfold Dag.add_node.
  destruct (Nat.eqb (NX.number_of_nodes g) 0) eqn:H0.
  - apply Nat.eqb_eq in H0. left. auto.
  - apply Nat.eqb_neq in H0. right.
    destruct (Nat.eqb (length (Dag.input_params_needed node))
                (length (Dag.scan_nodes (Dag.input_params_needed node) (NX.nodes g))))
      eqn:Hlen; simpl.
    + apply Nat.eqb_eq in Hlen. right. split; [ exact H0 | ].
      split; [ apply lengths_agree_iff, Hlen | reflexivity ].
    + apply Nat.eqb_neq in Hlen. left. split; [ exact H0 | ].
      split; [ | reflexivity ]. intros Hw. apply Hlen. apply lengths_agree_iff, Hw.
Qed.

(** Where the edges of the result come from. *)
Lemma add_node_edge_origin (g : NX.DiGraph) (node_name : string) (node : Node)
  (a b : string) :
  has_edge (snd (Dag.add_node g node_name node)) a b ->
  has_edge g a b
  \/ (b = node_name
      /\ exists k, In (k, a) (Dag.scan_nodes (Dag.input_params_needed node) (NX.nodes g))).
Proof.
  intros H.
  destruct (add_node_cases g node_name node)
    as [[_ Hrun] | [[_ [_ Hrun]] | [_ [_ Hrun]]]]; rewrite Hrun in H.
  - left. exact H.
  - left. exact H.
  - destruct (connect_edges node_name
                (Dag.scan_nodes (Dag.input_params_needed node) (NX.nodes g))
                (NX.add_node g node_name node)) as [_ [_ Hedges]].
    { intros k p Hin. eapply providers_nonempty_keys, Hin. }
    apply Hedges in H. destruct H as [H | H]; [ left; exact H | right; exact H ].
Qed.

(** The successful insertion into a non-empty graph. *)
Lemma add_node_wired (g : NX.DiGraph) (node_name : string) (node : Node) :
  NX.number_of_nodes g <> 0 -> wirable g node ->
  fst (Dag.add_node g node_name node) = Ok true
  /\ forall a b,
       has_edge (snd (Dag.add_node g node_name node)) a b
       <-> has_edge g a b
           \/ (b = node_name
               /\ exists k, In (k, a) (Dag.scan_nodes (Dag.input_params_needed node)
                                                      (NX.nodes g))).
Proof.
  intros H0 Hw.
  destruct (add_node_cases g node_name node)
    as [[Hz _] | [[_ [Hnw _]] | [_ [_ Hrun]]]]; [ contradiction | contradiction | ].
  rewrite Hrun.
  destruct (connect_edges node_name
              (Dag.scan_nodes (Dag.input_params_needed node) (NX.nodes g))
              (NX.add_node g node_name node)) as [Hok [_ Hedges]].
  { intros k p Hin. eapply providers_nonempty_keys, Hin. }
  split; [ exact Hok | ]. intros a b. rewrite Hedges.
  assert (Hsame : has_edge (NX.add_node g node_name node) a b <-> has_edge g a b)
    by (unfold has_edge; simpl; reflexivity).
  rewrite Hsame. reflexivity.
Qed.

(** The provider recorded for a key is its last producer. *)
Lemma provider_is_last_producer (g : NX.DiGraph) (node : Node) (k a : string) :
  In (k, a) (Dag.scan_nodes (Dag.input_params_needed node) (NX.nodes g))
  <-> In k (Dag.input_params_needed node) /\ last_producer k (NX.nodes g) = Some a.
Proof.
  split.
  - intros Hin.
    assert (Hget : Dict.get k (Dag.scan_nodes (Dag.input_params_needed node)
                                 (NX.nodes g)) = Some a).
    { apply In_get_nodup; [ apply scan_nodes_nodup | exact Hin ]. }
    rewrite scan_nodes_get in Hget.
    destruct (PyStr.mem k (Dag.input_params_needed node)) eqn:Hm; [ | discriminate ].
    split; [ apply mem_In, Hm | exact Hget ].
  - intros [Hk Hl]. apply get_In. rewrite scan_nodes_get.
    apply mem_In in Hk. rewrite Hk. exact Hl.
Qed.


(** X1: [add_node] returns [True] exactly when the graph is empty or the
    node's declared inputs have distinct keys, each produced by some vertex;
    in every other case it raises the missing-dependency error and hands the
    graph back unchanged.  It raises nothing else. *)
Theorem add_node_succeeds_iff (g : NX.DiGraph) (node_name : string) (node : Node) :
  (fst (Dag.add_node g node_name node) = Ok true
   <-> NX.number_of_nodes g = 0 \/ wirable g node)
  /\ (fst (Dag.add_node g node_name node) = Ok true
      \/ Dag.add_node g node_name node = (Raise MissingDependency, g)).
Proof.
  assert (Hconn : fst (Dag.connect (NX.add_node g node_name node) node_name
                         (Dag.scan_nodes (Dag.input_params_needed node) (NX.nodes g)))
                  = Ok true).
  { apply connect_edges. intros k p Hin. eapply providers_nonempty_keys, Hin. }
  destruct (add_node_cases g node_name node)
    as [[H0 Hrun] | [[H0 [Hw Hrun]] | [H0 [Hw Hrun]]]]; rewrite Hrun.
  - split; [ split; auto | left; reflexivity ].
  - split; [ | right; reflexivity ].
    simpl. split; [ discriminate | intros [H | H]; contradiction ].
  - split; [ split; auto | left; exact Hconn ].
Qed.

(** X2: on a non-empty graph, a node that declares the same input key twice
    is rejected, whether or not the key has a provider: the length test
    counts the declaration twice and the provider once. *)
Theorem add_node_duplicate_input (g : NX.DiGraph) (node_name : string) (node : Node) :
  NX.number_of_nodes g <> 0 ->
  ~ NoDup (Dag.input_params_needed node) ->
  Dag.add_node g node_name node = (Raise MissingDependency, g).
Proof.
  intros H0 Hdup.
  destruct (add_node_cases g node_name node)
    as [[Hz _] | [[_ [_ Hrun]] | [_ [[Hnd _] _]]]];
    [ contradiction | exact Hrun | contradiction ].
Qed.

(** X3: when an insertion into a non-empty graph succeeds, the edges of the
    result are those of the graph and, for each needed key, one from the
    last vertex in insertion order that produces the key to the new vertex:
    among several producers of a key the last one is wired. *)
Theorem add_node_wires_last_producer (g : NX.DiGraph) (node_name : string) (node : Node) :
  NX.number_of_nodes g <> 0 ->
  wirable g node ->
  forall a b,
    has_edge (snd (Dag.add_node g node_name node)) a b
    <-> has_edge g a b
        \/ (b = node_name
            /\ exists key, In key (Dag.input_params_needed node)
                           /\ last_producer key (NX.nodes g) = Some a).
Proof.
  intros H0 Hw a b.
  destruct (add_node_wired g node_name node H0 Hw) as [_ Hedges].
  rewrite Hedges. split.
  - intros [H | [Hb [k Hin]]]; [ auto | ]. right. split; [ exact Hb | ].
    exists k. apply (provider_is_last_producer g node k a), Hin.
  - intros [H | [Hb [k Hkl]]]; [ auto | ]. right. split; [ exact Hb | ].
    exists k. apply (provider_is_last_producer g node k a), Hkl.
Qed.

(** X4: whatever its outcome, [add_node] removes nothing: every vertex
    keeps its place, the nodes stored under other names are untouched, and
    every pair of vertices that was joined by an edge still is; an edge that
    is new ends at the inserted vertex. *)
Theorem add_node_monotone (g : NX.DiGraph) (node_name : string) (node : Node) :
  let g' := snd (Dag.add_node g node_name node) in
  incl (NX.names g) (NX.names g')
  /\ (forall m, m <> node_name ->
        Dict.get m (NX.nodes g') = Dict.get m (NX.nodes g))
  /\ (forall a b, has_edge g a b -> has_edge g' a b)
  /\ (forall a b, has_edge g' a b -> has_edge g a b \/ b = node_name).
Proof.
  assert (Hadd : incl (NX.names g) (NX.names (NX.add_node g node_name node))
                 /\ forall m, m <> node_name ->
                      Dict.get m (NX.nodes (NX.add_node g node_name node))
                      = Dict.get m (NX.nodes g)).
  { split.
    - intros m Hm. unfold NX.names, NX.add_node. simpl. apply In_keys_set. auto.
    - intros m Hm. apply get_set_ne, Hm. }
  destruct Hadd as [Hincl Hget].
  destruct (add_node_cases g node_name node)
    as [[_ Hrun] | [[_ [_ Hrun]] | [_ [_ Hrun]]]]; rewrite Hrun; cbv zeta.
  - simpl. split; [ exact Hincl | ]. split; [ exact Hget | ]. split; auto.
  - simpl. split; [ apply incl_refl | ]. split; [ reflexivity | ]. split; auto.
  - destruct (connect_edges node_name
                (Dag.scan_nodes (Dag.input_params_needed node) (NX.nodes g))
                (NX.add_node g node_name node)) as [_ [Hnodes Hedges]].
    { intros k p Hin. eapply providers_nonempty_keys, Hin. }
    unfold NX.names. rewrite Hnodes.
    split; [ exact Hincl | ]. split; [ exact Hget | ]. split.
    + intros a b H. apply Hedges. left. exact H.
    + intros a b H. apply Hedges in H. destruct H as [H | [Hb _]]; auto.
Qed.

Lemma path_source (g : NX.DiGraph) (u v : string) :
  path g u v -> exists e, In e (NX.edges g) /\ NX.src e = u.
Proof.
  intros Hp. destruct Hp as [u v [e [He [Hs _]]] | u v w [e [He [Hs _]]] _];
    exists e; auto.
Qed.

(** Under a name that is new to a well-formed graph, the inserted vertex
    has no outgoing edge, so a cycle of the result is a cycle of the
    graph. *)
Lemma add_node_fresh_cycle (g : NX.DiGraph) (node_name : string) (node : Node) :
  wf g -> ~ In node_name (NX.names g) ->
  forall v, path (snd (Dag.add_node g node_name node)) v v -> path g v v.
Proof.
  intros Hwf Hfresh.
  set (g' := snd (Dag.add_node g node_name node)).
  assert (Hnew : forall a b, has_edge g' a b -> has_edge g a b \/ b = node_name).
  { intros a b H. apply add_node_edge_origin in H. destruct H as [H | [Hb _]]; auto. }
  assert (Hsrc : forall a b, has_edge g' a b -> a <> node_name).
  { intros a b H Heq. subst a. apply add_node_edge_origin in H.
    destruct H as [[e [He [Hs _]]] | [_ [k Hin]]].
    - apply Hfresh. rewrite <- Hs. apply (wf_closed g Hwf e He).
    - apply Hfresh. apply (scan_nodes_values _ g k node_name Hin). }
  assert (Hback : forall u v, path g' u v -> v <> node_name -> path g u v).
  { intros u v Hp. induction Hp as [u v He | u v w He Hp IH]; intros Hv.
    - apply path_edge. destruct (Hnew u v He) as [H | H]; [ exact H | contradiction ].
    - pose proof (IH Hv) as Hpg.
      assert (Hvn : v <> node_name).
      { destruct (path_source g' v w Hp) as [e [He' Hs]].
        apply (Hsrc v (NX.dst e)). exists e. auto. }
      apply path_step with (v := v); [ | exact Hpg ].
      destruct (Hnew u v He) as [H | H]; [ exact H | contradiction ]. }
  intros v Hp. apply Hback; [ exact Hp | ].
  destruct (path_source g' v v Hp) as [e [He Hs]].
  apply (Hsrc v (NX.dst e)). exists e. auto.
Qed.

(** X5: inserting a vertex under a name that is new to a well-formed graph
    never closes a cycle: an acyclic graph stays acyclic. *)
Theorem add_node_fresh_keeps_acyclic (g : NX.DiGraph) (node_name : string) (node : Node) :
  wf g -> ~ In node_name (NX.names g) -> acyclic g ->
  acyclic (snd (Dag.add_node g node_name node)).
Proof.
  intros Hwf Hfresh Hac v Hp.
  apply (Hac v). apply (add_node_fresh_cycle g node_name node Hwf Hfresh v Hp).
Qed.

(** X18: a graph built from the empty one by insertions under names that
    were new each time, whatever the outcome of each insertion, has no cycle
    and passes the test that [compile_graph] starts with. *)
Theorem fresh_names_give_dag (g : NX.DiGraph) :
  built_fresh g ->
  acyclic g /\ NX.is_directed_acyclic_graph g = Ok true.
Proof.
  intros Hb.
  assert (H : wf g /\ acyclic g).
  { induction Hb as [| g n node _ [Hwf Hac] Hfresh].
    - split; [ apply wf_empty | ].
      intros v Hp. destruct (path_source NX.empty v v Hp) as [e [[] _]].
    - split; [ apply add_node_wf, Hwf | ].
      intros v Hp. apply (Hac v). apply (add_node_fresh_cycle g n node Hwf Hfresh v Hp). }
  destruct H as [Hwf Hac]. split; [ exact Hac | ].
  apply (is_dag_acyclic g Hwf Hac).
Qed.

(** X6: inserting a node under the name of the vertex that is the last
    producer of one of its own inputs wires the vertex to itself: the
    resulting graph has a cycle, and the builder does not object. *)
Theorem add_node_self_provider_cycle (g : NX.DiGraph) (node_name : string) (node : Node)
  (key : string) :
  NX.number_of_nodes g <> 0 ->
  wirable g node ->
  In key (Dag.input_params_needed node) ->
  last_producer key (NX.nodes g) = Some node_name ->
  fst (Dag.add_node g node_name node) = Ok true
  /\ has_cycle (snd (Dag.add_node g node_name node)).
Proof.
  intros H0 Hw Hk Hl.
  destruct (add_node_wired g node_name node H0 Hw) as [Hok Hedges].
  split; [ exact Hok | ].
  exists node_name. apply path_edge. apply Hedges.
  right. split; [ reflexivity | ]. exists key.
  apply (provider_is_last_producer g node key node_name). auto.
Qed.

(** ** The import refactoring *)

Lemma split_go_nonempty (sep : string) (s : string) :
  forall k, PyStr.split_go sep k s <> [].
Proof.
  induction s as [| c s IH]; intros k; simpl; [ discriminate | ].
  destruct k as [| k]; [ | apply IH ].
  destruct (PyStr.startswith sep (String c s)); [ discriminate | ].
  destruct (PyStr.split_go sep 0 s); discriminate.
Qed.

Lemma join_cons (sep x : string) (l : list string) :
  l <> [] -> PyStr.join sep (x :: l) = (x ++ sep ++ PyStr.join sep l)%string.
Proof. destruct l as [| y l]; [ congruence | reflexivity ]. Qed.

Lemma join_first_char (sep : string) (c : ascii) (p : string) (ps : list string) :
  PyStr.join sep (String c p :: ps) = String c (PyStr.join sep (p :: ps)).
Proof. destruct ps; reflexivity. Qed.

Lemma startswith_drop (p s : string) :
  PyStr.startswith p s = true ->
  s = (p ++ drop (String.length p) s)%string /\ String.length p <= String.length s.
Proof.
  revert s. induction p as [| a p IH]; intros s H; simpl.
  - split; [ reflexivity | lia ].
  - destruct s as [| b s]; simpl in H; [ discriminate | ].
    apply andb_true_iff in H. destruct H as [Hab Hp].
    apply Ascii.eqb_eq in Hab. subst b.
    destruct (IH s Hp) as [Heq Hlen]. simpl. split; [ f_equal; exact Heq | lia ].
Qed.

(** Joining the pieces of a split gives the string back. *)
Lemma join_split_go (sep : string) :
  sep <> EmptyString ->
  forall s k, k <= String.length s ->
    PyStr.join sep (PyStr.split_go sep k s) = drop k s.
Proof.
  intros Hsep. induction s as [| c s IH]; intros k Hk.
  - simpl in Hk. assert (k = 0) by lia. subst k. reflexivity.
  - destruct k as [| k].
    + simpl PyStr.split_go.
      destruct (PyStr.startswith sep (String c s)) eqn:Hp.
      * rewrite join_cons by apply split_go_nonempty.
        destruct sep as [| a sep']; [ congruence | ].
        destruct (startswith_drop _ _ Hp) as [Heq Hlen].
        simpl in Heq, Hlen. simpl Nat.pred.
        rewrite IH by lia. simpl. simpl in Heq. symmetry. exact Heq.
      * pose proof (split_go_nonempty sep s 0) as Hne.
        destruct (PyStr.split_go sep 0 s) as [| p ps] eqn:Hs; [ congruence | ].
        rewrite join_first_char. rewrite <- Hs, IH by lia. reflexivity.
    + simpl. apply IH. simpl in Hk. lia.
Qed.

Lemma join_split (sep s : string) :
  sep <> EmptyString -> PyStr.join sep (PyStr.split sep s) = s.
Proof.
  intros Hsep. unfold PyStr.split. rewrite join_split_go by (assumption || lia).
  reflexivity.
Qed.

(** *** The scan of the lines *)

Arguments PyStr.startswith : simpl never.
Arguments PyStr.split : simpl never.

Lemma scan_line_other (st : Dag.import_state) (line : string) :
  is_other_line line = true ->
  Dag.scan_line st line
  = Ok {| Dag.from_imports := Dag.from_imports st;
          Dag.import_lines := Dag.import_lines st;
          Dag.other_lines := Dag.other_lines st ++ [line] |}.
Proof.
  unfold is_other_line, is_from_line, Dag.scan_line. intros H.
  apply andb_true_iff in H. destruct H as [Hf Hi].
  apply negb_true_iff in Hf, Hi. rewrite Hf, Hi. reflexivity.
Qed.

Lemma scan_line_good (st : Dag.import_state) (line : string) :
  good_line line = true ->
  exists st',
    Dag.scan_line st line = Ok st'
    /\ Dag.other_lines st'
       = Dag.other_lines st ++ (if is_other_line line then [line] else [])
    /\ (forall l, In l (Dag.import_lines st')
                  <-> In l (Dag.import_lines st) \/ (l = line /\ is_import_line line = true))
    /\ (NoDup (Dag.import_lines st) -> NoDup (Dag.import_lines st')).
Proof.
  unfold good_line, is_other_line, is_import_line, is_from_line, splits_in_two, Dag.scan_line.
  intros Hg. destruct (PyStr.startswith "from " line) eqn:Hf; simpl in *.
  - destruct (PyStr.split " import " line) as [| m [| i [| x xs]]]; try discriminate.
    eexists. split; [ reflexivity | ]. simpl.
    split; [ rewrite app_nil_r; reflexivity | ].
    split; [ intros l; split; [ auto | intros [H | [_ H]]; [ exact H | discriminate ] ] | auto ].
  - destruct (PyStr.startswith "import " line) eqn:Hi; simpl.
    + eexists. split; [ reflexivity | ]. simpl.
      split; [ rewrite app_nil_r; reflexivity | ].
      unfold Dag.set_add. destruct (PyStr.mem line (Dag.import_lines st)) eqn:Hm.
      * apply mem_In in Hm. split; [ | auto ].
        intros l. split; [ auto | intros [H | [-> _]]; assumption ].
      * apply mem_not_In in Hm. split.
        -- intros l. rewrite in_app_iff. simpl. intuition.
        -- intros Hnd. apply NoDup_app; [ exact Hnd | repeat constructor; simpl; tauto | ].
           intros y Hy [<- | []]. contradiction.
    + eexists. split; [ reflexivity | ]. simpl. split; [ reflexivity | ].
      split; [ intros l; split; [ auto | intros [H | [_ H]]; [ exact H | discriminate ] ] | auto ].
Qed.

Lemma scan_line_bad (st : Dag.import_state) (line : string) :
  good_line line = false -> Dag.scan_line st line = Raise UnpackError.
Proof.
  unfold good_line, is_from_line, splits_in_two, Dag.scan_line. intros Hg.
  apply orb_false_iff in Hg. destruct Hg as [Hf Hs].
  apply negb_false_iff in Hf. rewrite Hf.
  destruct (PyStr.split " import " line) as [| m [| i [| x xs]]];
    try reflexivity; discriminate.
Qed.

Lemma scan_lines_good (lines : list string) :
  forall st,
    forallb good_line lines = true ->
    exists st',
      Dag.scan_lines st lines = Ok st'
      /\ Dag.other_lines st' = Dag.other_lines st ++ filter is_other_line lines
      /\ (forall l, In l (Dag.import_lines st')
                    <-> In l (Dag.import_lines st)
                        \/ (In l lines /\ is_import_line l = true))
      /\ (NoDup (Dag.import_lines st) -> NoDup (Dag.import_lines st')).
Proof.
  induction lines as [| line rest IH]; intros st Hall.
  - exists st. simpl. split; [ reflexivity | ]. split; [ rewrite app_nil_r; reflexivity | ].
    split; [ | auto ]. intros l. split; [ auto | intros [H | [[] _]]; exact H ].
  - simpl in Hall. apply andb_true_iff in Hall. destruct Hall as [Hg Hrest].
    destruct (scan_line_good st line Hg) as [st1 [Hstep [Ho1 [Hi1 Hn1]]]].
    destruct (IH st1 Hrest) as [st' [Hrun [Ho [Hi Hn]]]].
    exists st'. simpl. rewrite Hstep. simpl.
    split; [ exact Hrun | ]. split.
    + rewrite Ho, Ho1, <- app_assoc. f_equal.
      destruct (is_other_line line); reflexivity.
    + split; [ | auto ]. intros l. rewrite Hi, Hi1. split.
      * intros [[H | [-> H]] | [H1 H2]]; auto.
      * intros [H | [[<- | H1] H2]]; auto.
Qed.

Lemma scan_lines_bad (lines : list string) :
  forall st,
    forallb good_line lines = false ->
    Dag.scan_lines st lines = Raise UnpackError.
Proof.
  induction lines as [| line rest IH]; intros st Hall; [ discriminate | ].
  simpl in Hall. simpl.
  destruct (good_line line) eqn:Hg.
  - destruct (scan_line_good st line Hg) as [st1 [Hstep _]]. rewrite Hstep. simpl.
    apply IH. exact Hall.
  - rewrite (scan_line_bad st line Hg). reflexivity.
Qed.

(** *** The sorted import block *)

Lemma leb_false_flip (a b : string) :
  String.leb a b = false -> String.leb b a = true.
Proof.
  intros H. destruct (String.leb_total a b) as [H' | H']; [ congruence | exact H' ].
Qed.

Lemma insert_sorted_ascending (x : string) (l : list string) :
  ascending l -> ascending (PyStr.insert_sorted x l).
Proof.
  induction l as [| y l IH]; intros Hl; [ exact I | ].
  simpl PyStr.insert_sorted. destruct (String.leb x y) eqn:Hxy.
  - split; [ exact Hxy | exact Hl ].
  - apply leb_false_flip in Hxy.
    destruct l as [| z l].
    + simpl. auto.
    + destruct Hl as [Hyz Hl]. specialize (IH Hl).
      simpl PyStr.insert_sorted in *. destruct (String.leb x z) eqn:Hxz.
      * split; [ exact Hxy | exact IH ].
      * split; [ exact Hyz | exact IH ].
Qed.

Lemma sorted_ascending (l : list string) : ascending (PyStr.sorted l).
Proof.
  unfold PyStr.sorted. induction l as [| x l IH]; [ exact I | ].
  simpl. apply insert_sorted_ascending, IH.
Qed.

Lemma In_insert_sorted (x y : string) (l : list string) :
  In y (PyStr.insert_sorted x l) <-> y = x \/ In y l.
Proof.
  induction l as [| z l IH]; simpl; [ intuition | ].
  destruct (String.leb x z); simpl; [ intuition | ].
  rewrite IH. intuition.
Qed.

Lemma In_sorted (y : string) (l : list string) : In y (PyStr.sorted l) <-> In y l.
Proof.
  unfold PyStr.sorted. induction l as [| x l IH]; simpl; [ tauto | ].
  rewrite In_insert_sorted, IH. intuition.
Qed.

Lemma newline_nonempty : Dag.newline <> EmptyString.
Proof. discriminate. Qed.

(** X7: [refactor_imports] raises, and then the unpacking error, exactly
    when some line starts with [from ] and does not split in two around
    [ import ]; on every other source it returns. *)
Theorem refactor_imports_raises_iff (file_content : string) :
  (forallb good_line (PyStr.split Dag.newline file_content) = true
   -> exists out, Dag.refactor_imports file_content = Ok out)
  /\ (forallb good_line (PyStr.split Dag.newline file_content) = false
      -> Dag.refactor_imports file_content = Raise UnpackError).
Proof.
  unfold Dag.refactor_imports. split; intros Hall.
  - destruct (scan_lines_good (PyStr.split Dag.newline file_content)
                (Dag.mkImportState [] [] []) Hall) as [st [Hrun _]].
    rewrite Hrun. simpl. eexists. reflexivity.
  - rewrite (scan_lines_bad _ (Dag.mkImportState [] [] []) Hall). reflexivity.
Qed.

(** X8: when [refactor_imports] returns, its result is an import block, a
    blank separator and the body: the body is made of the lines of the source
    that are not imports, all of them, in their order; the import block is in
    ascending order and holds every plain [import] line of the source. *)
Theorem refactor_imports_layout (file_content out : string) :
  Dag.refactor_imports file_content = Ok out ->
  exists imports,
    out = (PyStr.join Dag.newline imports ++ Dag.newline ++ Dag.newline
           ++ PyStr.join Dag.newline
                (filter is_other_line (PyStr.split Dag.newline file_content)))%string
    /\ ascending imports
    /\ forall line,
         In line (PyStr.split Dag.newline file_content) ->
         is_import_line line = true -> In line imports.
Proof.
  unfold Dag.refactor_imports. intros Hrun.
  destruct (forallb good_line (PyStr.split Dag.newline file_content)) eqn:Hall.
  - destruct (scan_lines_good (PyStr.split Dag.newline file_content)
                (Dag.mkImportState [] [] []) Hall) as [st [Hscan [Hbody [Himp _]]]].
    rewrite Hscan in Hrun. simpl in Hrun. inversion Hrun; subst out. clear Hrun.
    eexists. split; [ rewrite Hbody; reflexivity | ].
    split; [ apply sorted_ascending | ].
    intros line Hin Hi. apply In_sorted. apply in_or_app. left.
    apply Himp. right. auto.
  - rewrite (scan_lines_bad _ (Dag.mkImportState [] [] []) Hall) in Hrun. discriminate.
Qed.

Lemma filter_all {A : Type} (f : A -> bool) (l : list A) :
  forallb f l = true -> filter f l = l.
Proof.
  induction l as [| a l IH]; simpl; [ reflexivity | ].
  intros H. apply andb_true_iff in H. destruct H as [Ha Hl].
  rewrite Ha, IH by assumption. reflexivity.
Qed.

Lemma other_lines_only (lines : list string) :
  forallb is_other_line lines = true ->
  forall st, exists st',
    Dag.scan_lines st lines = Ok st'
    /\ Dag.from_imports st' = Dag.from_imports st
    /\ Dag.import_lines st' = Dag.import_lines st
    /\ Dag.other_lines st' = Dag.other_lines st ++ lines.
Proof.
  induction lines as [| line rest IH]; intros Hall st.
  - exists st. simpl. rewrite app_nil_r. auto.
  - simpl in Hall. apply andb_true_iff in Hall. destruct Hall as [Ho Hrest].
    destruct (IH Hrest {| Dag.from_imports := Dag.from_imports st;
                          Dag.import_lines := Dag.import_lines st;
                          Dag.other_lines := Dag.other_lines st ++ [line] |})
      as [st' [Hrun [Hf [Hi Hol]]]].
    exists st'. simpl. rewrite (scan_line_other st line Ho). simpl.
    split; [ exact Hrun | ]. split; [ exact Hf | ]. split; [ exact Hi | ].
    rewrite Hol. simpl. rewrite <- app_assoc. reflexivity.
Qed.

(** X9: a source without import lines comes back unchanged behind a blank
    separator of two newlines. *)
Theorem refactor_imports_without_imports (file_content : string) :
  forallb is_other_line (PyStr.split Dag.newline file_content) = true ->
  Dag.refactor_imports file_content
  = Ok (Dag.newline ++ Dag.newline ++ file_content)%string.
Proof.
  intros Hall. unfold Dag.refactor_imports.
  destruct (other_lines_only _ Hall (Dag.mkImportState [] [] []))
    as [st [Hrun [Hf [Hi Ho]]]].
  rewrite Hrun. simpl. rewrite Hf, Hi, Ho. simpl.
  rewrite (join_split Dag.newline file_content newline_nonempty). reflexivity.
Qed.

(** ** The manifest *)

Lemma first_seen_from_known (packages : list RequiredPackage) :
  forall seen,
    (forall p, In p packages -> In (package_name p) seen) ->
    first_seen_from seen packages = [].
Proof.
  induction packages as [| p rest IH]; intros seen Hall; simpl; [ reflexivity | ].
  assert (Hm : PyStr.mem (package_name p) seen = true).
  { apply mem_In, Hall. simpl. auto. }
  rewrite Hm. apply IH. intros q Hq. apply Hall. simpl. auto.
Qed.

Lemma first_seen_from_app (ps qs : list RequiredPackage) :
  forall seen,
    first_seen_from seen (ps ++ qs)
    = first_seen_from seen ps
      ++ first_seen_from (seen ++ map package_name (first_seen_from seen ps)) qs.
Proof.
  induction ps as [| p ps IH]; intros seen; simpl.
  - rewrite app_nil_r. reflexivity.
  - destruct (PyStr.mem (package_name p) seen); [ apply IH | ].
    simpl. rewrite IH, <- app_assoc. reflexivity.
Qed.

(** X10: references to packages that occur earlier in the list never
    change the manifest: whatever version they ask for is dropped. *)
Theorem generate_requirements_txt_known_packages (packages later : list RequiredPackage) :
  (forall p, In p later -> In (package_name p) (map package_name packages)) ->
  Dag.generate_requirements_txt (packages ++ later)
  = Dag.generate_requirements_txt packages.
Proof.
  intros Hknown. rewrite !generate_requirements_txt_first_seen.
  unfold first_seen. rewrite first_seen_from_app.
  rewrite (first_seen_from_known later); [ rewrite app_nil_r; reflexivity | ].
  intros p Hp. simpl.
  destruct (first_seen_from_names [] packages (package_name p) (Hknown p Hp)) as [[] | H].
  exact H.
Qed.

(** ** The walk of the compiler: packages, preamble and side effects *)

Lemma set_name_twice (node : Node) (fname : string) :
  set_name (set_name node fname) fname = set_name node fname.
Proof. reflexivity. Qed.

Lemma visit_frame (E : Emitters) (fname : string) (st st' : Dag.walk_state)
  (n : string) :
  Dag.visit E fname st n = Ok st' ->
  Dag.requirements st' = Dag.requirements st ++ packages_at (Dag.store st) n
  /\ Dag.python_file st' = (Dag.python_file st ++ preamble_at (Dag.store st) n)%string
  /\ Dict.keys (Dag.store st') = Dict.keys (Dag.store st)
  /\ (forall m, m <> n -> Dict.get m (Dag.store st') = Dict.get m (Dag.store st))
  /\ exists node,
       Dict.get n (Dag.store st) = Some node
       /\ Dict.get n (Dag.store st') = Some (renamed_if_start fname n node).
Proof.
  unfold Dag.visit, packages_at, preamble_at, renamed_if_start, role_of.
  destruct (Dict.get n (Dag.store st)) as [node |] eqn:Hget; [ | discriminate ].
  destruct (PyStr.contains "request" n).
  - intros [= <-]. simpl. rewrite string_app_nil_r.
    split; [ reflexivity | ]. split; [ reflexivity | ].
    split; [ apply keys_set_present; eapply get_In_keys, Hget | ].
    split; [ intros m Hm; apply get_set_ne, Hm | ].
    exists node. split; [ reflexivity | apply get_set_eq ].
  - destruct (PyStr.contains "response" n); intros [= <-]; simpl.
    + rewrite string_app_nil_r.
      split; [ reflexivity | ]. split; [ reflexivity | ]. split; [ reflexivity | ].
      split; [ reflexivity | ]. exists node. auto.
    + split; [ reflexivity | ]. split; [ reflexivity | ]. split; [ reflexivity | ].
      split; [ reflexivity | ]. exists node. auto.
Qed.

Lemma packages_at_renamed (fname n : string) (node : Node) :
  required_packages (renamed_if_start fname n node) = required_packages node.
Proof. unfold renamed_if_start. destruct (role_of n); reflexivity. Qed.

Lemma code_renamed (fname n : string) (node : Node) :
  code (renamed_if_start fname n node) = code node.
Proof. unfold renamed_if_start. destruct (role_of n); reflexivity. Qed.

(** What a walk that goes through has gathered. *)
Lemma walk_frame (E : Emitters) (fname : string) (order : list string) :
  forall st st',
    Dag.walk E fname st order = (None, st') ->
    Dag.requirements st'
    = Dag.requirements st ++ flat_map (packages_at (Dag.store st)) order
    /\ Dag.python_file st'
       = (Dag.python_file st ++ preamble (Dag.store st) order)%string.
Proof.
  induction order as [| n rest IH]; intros st st' Hwalk.
  - simpl in Hwalk. inversion Hwalk; subst. simpl.
    rewrite app_nil_r, string_app_nil_r. auto.
  - simpl in Hwalk. destruct (Dag.visit E fname st n) as [st1 | e] eqn:Hvisit;
      [ | discriminate ].
    destruct (visit_frame E fname st st1 n Hvisit)
      as [Hreq [Hpy [_ [Hothers [node [Hget Hself]]]]]].
    destruct (IH st1 st' Hwalk) as [Hreq' Hpy'].
    assert (Hpk : forall m, packages_at (Dag.store st1) m = packages_at (Dag.store st) m).
    { intros m. unfold packages_at. destruct (string_dec m n) as [-> | Hne].
      - rewrite Hself, Hget. apply packages_at_renamed.
      - rewrite (Hothers m Hne). reflexivity. }
    assert (Hpre : forall m, preamble_at (Dag.store st1) m = preamble_at (Dag.store st) m).
    { intros m. unfold preamble_at. destruct (string_dec m n) as [-> | Hne].
      - rewrite Hself, Hget. rewrite code_renamed. reflexivity.
      - rewrite (Hothers m Hne). reflexivity. }
    split.
    + rewrite Hreq', Hreq. simpl. rewrite <- app_assoc. f_equal. f_equal.
      apply flat_map_ext. exact Hpk.
    + rewrite Hpy', Hpy. simpl. rewrite string_app_assoc. f_equal. f_equal.
      unfold preamble. clear - Hpre. induction rest as [| m rest IH]; simpl;
        [ reflexivity | rewrite Hpre, IH; reflexivity ].
Qed.

(** What any walk leaves of the vertex dictionary. *)
Lemma walk_store (E : Emitters) (fname : string) (order : list string) :
  forall st r st',
    Dag.walk E fname st order = (r, st') ->
    Dict.keys (Dag.store st') = Dict.keys (Dag.store st)
    /\ forall n node,
         Dict.get n (Dag.store st) = Some node ->
         same_or_renamed fname n node (Dict.get n (Dag.store st')).
Proof.
  induction order as [| n0 rest IH]; intros st r st' Hwalk.
  - simpl in Hwalk. inversion Hwalk; subst. split; [ reflexivity | ].
    intros n node Hget. left. exact Hget.
  - simpl in Hwalk. destruct (Dag.visit E fname st n0) as [st1 | e] eqn:Hvisit.
    + destruct (visit_frame E fname st st1 n0 Hvisit)
        as [_ [_ [Hkeys [Hothers [node0 [Hget0 Hself]]]]]].
      destruct (IH st1 r st' Hwalk) as [Hkeys' Hstore].
      split; [ congruence | ].
      intros n node Hget. destruct (string_dec n n0) as [-> | Hne].
      * rewrite Hget0 in Hget. inversion Hget; subst node0.
        destruct (Hstore n0 _ Hself) as [H | [Hrole H]].
        -- unfold renamed_if_start in H.
           destruct (role_of n0) eqn:Hrole; [ right; auto | left; exact H | left; exact H ].
        -- right. split; [ exact Hrole | ].
           unfold renamed_if_start in H. rewrite Hrole in H. exact H.
      * apply Hstore. rewrite (Hothers n Hne). exact Hget.
    + inversion Hwalk; subst. split; [ reflexivity | ].
      intros n node Hget. left. exact Hget.
Qed.

(** X11: whatever its outcome, [compile_graph] leaves the edges and the
    vertex names of the graph as they were, and the stored nodes too, except
    that the node of a vertex whose name contains [request] may have been
    renamed to the function name.  Every vertex holds a node of its own
    here: a node object shared by two vertices is not modelled. *)
Theorem compile_graph_side_effects (E : Emitters) (F : Formatters) (g : NX.DiGraph)
  (ep : ExecutionPath) :
  let g' := snd (Dag.compile_graph E F g ep) in
  NX.edges g' = NX.edges g
  /\ NX.names g' = NX.names g
  /\ forall n node,
       Dict.get n (NX.nodes g) = Some node ->
       same_or_renamed (Dag.derive_function_name (ep_name ep)) n node
                       (Dict.get n (NX.nodes g')).
Proof.
  cbv zeta. unfold Dag.compile_graph.
  assert (Hsame : NX.edges g = NX.edges g /\ NX.names g = NX.names g
                  /\ forall n node, Dict.get n (NX.nodes g) = Some node ->
                       same_or_renamed (Dag.derive_function_name (ep_name ep)) n node
                                       (Dict.get n (NX.nodes g))).
  { split; [ reflexivity | ]. split; [ reflexivity | ]. intros n node H. left. exact H. }
  destruct (NX.is_directed_acyclic_graph g) as [[|] | e]; try exact Hsame.
  destruct (NX.topological_sort g) as [order | e]; try exact Hsame.
  destruct (Dag.walk E (Dag.derive_function_name (ep_name ep)) (Dag.initial_walk g) order)
    as [r st] eqn:Hwalk.
  destruct (walk_store E _ order (Dag.initial_walk g) r st Hwalk) as [Hkeys Hstore].
  assert (Hgoal : NX.edges (Dag.with_store g st) = NX.edges g
                  /\ NX.names (Dag.with_store g st) = NX.names g
                  /\ forall n node, Dict.get n (NX.nodes g) = Some node ->
                       same_or_renamed (Dag.derive_function_name (ep_name ep)) n node
                                       (Dict.get n (NX.nodes (Dag.with_store g st)))).
  { split; [ reflexivity | ]. split; [ exact Hkeys | ]. exact Hstore. }
  destruct r as [e |]; exact Hgoal.
Qed.

Lemma compile_graph_Ok_fields (E : Emitters) (F : Formatters) (g g' : NX.DiGraph)
  (ep : ExecutionPath) (fd : FunctionData) :
  Dag.compile_graph E F g ep = (Ok fd, g') ->
  exists order st source,
    NX.topological_sort g = Ok order
    /\ Dag.walk E (Dag.derive_function_name (ep_name ep)) (Dag.initial_walk g) order
       = (None, st)
    /\ Dag.refactor_imports (Dag.assemble st) = Ok source
    /\ Dag.format_and_sort_code F source = Ok (fd_code fd)
    /\ Dag.generate_requirements_txt (Dag.requirements st) = Ok (requirements_txt fd)
    /\ endpoint_name fd = ep_endpoint_name ep.
Proof.
  unfold Dag.compile_graph.
  destruct (NX.is_directed_acyclic_graph g) as [[|] | e]; try discriminate.
  destruct (NX.topological_sort g) as [order | e]; try discriminate.
  destruct (Dag.walk E _ (Dag.initial_walk g) order) as [[e |] st] eqn:Hwalk; try discriminate.
  destruct (Dag.generate_requirements_txt (Dag.requirements st)) as [txt | e] eqn:Hreq;
    try discriminate.
  simpl.
  destruct (Dag.refactor_imports (Dag.assemble st)) as [source | e] eqn:Hsrc; try discriminate.
  simpl. destruct (Dag.format_and_sort_code F source) as [formatted | e] eqn:Hfmt;
    try discriminate.
  simpl. intros H. inversion H; subst. simpl.
  exists order, st, source. auto 10.
Qed.

(** X12: the manifest of a compiled route is the manifest of the packages
    of all vertices, taken in the order of the walk; and the endpoint name is
    the route's. *)
Theorem compile_graph_manifest (E : Emitters) (F : Formatters) (g g' : NX.DiGraph)
  (ep : ExecutionPath) (fd : FunctionData) :
  wf g ->
  Dag.compile_graph E F g ep = (Ok fd, g') ->
  exists order,
    NX.topological_sort g = Ok order
    /\ Permutation order (NX.names g)
    /\ Dag.generate_requirements_txt (flat_map (packages_at (NX.nodes g)) order)
       = Ok (requirements_txt fd)
    /\ endpoint_name fd = ep_endpoint_name ep.
Proof.
  intros Hwf Hok. apply compile_graph_Ok_fields in Hok.
  destruct Hok as [order [st [source [Hsort [Hwalk [_ [_ [Hreq Hep]]]]]]]].
  exists order. split; [ exact Hsort | ].
  split; [ apply topological_order_permutation;
           [ exact Hwf | apply topological_sort_Ok; assumption ] | ].
  split; [ | exact Hep ].
  destruct (walk_frame E _ order _ _ Hwalk) as [Hpk _].
  simpl in Hpk. rewrite <- Hpk. exact Hreq.
Qed.

(** X13: the source that a compilation hands to the normaliser is the code
    of the interior vertices, in the order of the walk and each between two
    newlines, then a newline and the emitted call sequence; the code of the
    start and end vertices is not part of it. *)
Theorem compile_graph_assembled_source (E : Emitters) (F : Formatters)
  (g g' : NX.DiGraph) (ep : ExecutionPath) (fd : FunctionData) :
  wf g ->
  Dag.compile_graph E F g ep = (Ok fd, g') ->
  exists order source,
    NX.topological_sort g = Ok order
    /\ Dag.refactor_imports
         (preamble (NX.nodes g) order ++ Dag.newline
          ++ script (trace E (function_name fd) (Dag.initial_walk g) order))%string
       = Ok source
    /\ Dag.format_and_sort_code F source = Ok (fd_code fd).
Proof.
  intros Hwf Hok. apply compile_graph_Ok_inv in Hok.
  destruct Hok as [order [st [source [_ [Hsort [Hwalk [Hsrc [Hfmt [Hname _]]]]]]]]].
  exists order, source. split; [ exact Hsort | ]. split; [ | exact Hfmt ].
  destruct (walk_frame E _ order _ _ Hwalk) as [_ Hpy].
  pose proof (topological_sort_Ok g order Hwf Hsort) as [Hnd [Hall _]].
  destruct (walk_spec E (Dag.derive_function_name (ep_name ep)) order
              (Dag.initial_walk g) Hnd) as [st' [Hwalk' [Hscript _]]].
  { intros n Hn. apply Hall, Hn. }
  rewrite Hwalk in Hwalk'. inversion Hwalk'; subst st'.
  unfold Dag.assemble in Hsrc. rewrite Hpy, Hscript in Hsrc. simpl in Hsrc.
  rewrite Hname. exact Hsrc.
Qed.

(** ** Parameter tags: what the parsing lets through *)

(** X14: the validator reads the element type between the first and the
    second opening bracket and strips closing brackets from its end only:
    for a container among list, set, tuple and an element type of
    [basic_types], the tag is accepted whatever follows a second opening
    bracket (so nested containers such as [list[list[int]]] pass), and with
    any number of closing brackets, none included. *)
Theorem check_param_type_lenient_parsing (c p : string) :
  In c ["list"; "set"; "tuple"] ->
  In p Params.basic_types ->
  (forall rest, Params.check_param_type (overlong_tag c p rest)
                = Ok (overlong_tag c p rest))
  /\ (forall n, Params.check_param_type (unbalanced_tag c p n)
                = Ok (unbalanced_tag c p n)).
Proof.
  intros Hc Hp. destruct (basic_type_plain p Hp) as [Hopen [Hclose Hbasic]].
  split.
  - intros rest. unfold overlong_tag.
    apply (check_container c _ p (PyStr.split_go "[" 0 rest) Hc).
    + apply split_go_piece, Hopen.
    + pose proof (rstrip_closing p 0 Hclose) as Hr. simpl in Hr.
      rewrite string_app_nil_r in Hr. rewrite Hr. exact Hbasic.
  - intros n. unfold unbalanced_tag.
    apply (check_container c _ (p ++ closing n)%string [] Hc).
    + apply split_go_closing, Hopen.
    + rewrite (rstrip_closing p n Hclose). exact Hbasic.
Qed.

(** ** The derived function name *)

Lemma mem_char_replace_same (old : ascii) (new s : string) :
  PyStr.mem_char old new = false ->
  PyStr.mem_char old (PyStr.replace_char old new s) = false.
Proof.
  intros Hnew. induction s as [| a s IH]; simpl; [ reflexivity | ].
  destruct (Ascii.eqb a old) eqn:Ha.
  - rewrite mem_char_app, Hnew, IH. reflexivity.
  - simpl. rewrite Ascii.eqb_sym, Ha, IH. reflexivity.
Qed.

Lemma mem_char_replace_other (c old : ascii) (new s : string) :
  PyStr.mem_char c new = false ->
  PyStr.mem_char c s = false ->
  PyStr.mem_char c (PyStr.replace_char old new s) = false.
Proof.
  intros Hnew. induction s as [| a s IH]; simpl; [ reflexivity | ].
  intros H. apply orb_false_iff in H. destruct H as [Ha Hs].
  destruct (Ascii.eqb a old).
  - rewrite mem_char_app, Hnew, (IH Hs). reflexivity.
  - simpl. rewrite Ha, (IH Hs). reflexivity.
Qed.

Lemma mem_char_lstrip (c : ascii) (cs s : string) :
  PyStr.mem_char c s = false -> PyStr.mem_char c (PyStr.lstrip cs s) = false.
Proof.
  induction s as [| a s IH]; simpl; [ reflexivity | ].
  intros H. destruct (PyStr.mem_char a cs); [ | exact H ].
  apply orb_false_iff in H. destruct H as [_ Hs]. apply IH, Hs.
Qed.

Lemma mem_char_rstrip (c : ascii) (cs s : string) :
  PyStr.mem_char c s = false -> PyStr.mem_char c (PyStr.rstrip cs s) = false.
Proof.
  induction s as [| a s IH]; simpl; [ reflexivity | ].
  intros H. apply orb_false_iff in H. destruct H as [Ha Hs]. specialize (IH Hs).
  destruct (PyStr.rstrip cs s) as [| b r].
  - destruct (PyStr.mem_char a cs); simpl; [ reflexivity | rewrite Ha; reflexivity ].
  - change (PyStr.mem_char c (String a (String b r)))
      with (Ascii.eqb c a || PyStr.mem_char c (String b r)).
    rewrite Ha, IH. reflexivity.
Qed.

Lemma lower_char_idempotent (a : ascii) :
  PyStr.lower_char (PyStr.lower_char a) = PyStr.lower_char a.
Proof.
  destruct a as [[|] [|] [|] [|] [|] [|] [|] [|]]; reflexivity.
Qed.

Lemma lower_char_separator (c d : ascii) :
  In c [" "%char; "-"%char; "/"%char] -> PyStr.lower_char d = c -> d = c.
Proof.
  intros [<- | [<- | [<- | []]]];
    destruct d as [[|] [|] [|] [|] [|] [|] [|] [|]]; vm_compute; congruence.
Qed.

Lemma mem_char_lower (c : ascii) (s : string) :
  In c [" "%char; "-"%char; "/"%char] ->
  PyStr.mem_char c s = false -> PyStr.mem_char c (PyStr.lower s) = false.
Proof.
  intros Hc. induction s as [| a s IH]; simpl; [ reflexivity | ].
  intros H. apply orb_false_iff in H. destruct H as [Ha Hs].
  rewrite (IH Hs), orb_false_r.
  destruct (Ascii.eqb c (PyStr.lower_char a)) eqn:Hl; [ | reflexivity ].
  apply Ascii.eqb_eq in Hl. symmetry in Hl.
  apply (lower_char_separator c a Hc) in Hl. subst a.
  rewrite Ascii.eqb_refl in Ha. discriminate.
Qed.

Lemma lower_is_lower (s : string) (c : ascii) :
  PyStr.mem_char c (PyStr.lower s) = true -> PyStr.lower_char c = c.
Proof.
  induction s as [| a s IH]; simpl; [ discriminate | ].
  intros H. apply orb_true_iff in H. destruct H as [H | H]; [ | apply IH, H ].
  apply Ascii.eqb_eq in H. subst c. apply lower_char_idempotent.
Qed.

(** X15: for every route name of code points below 256, the derived
    function name ends in [_request] and holds no space, no hyphen, no slash
    and no capital: [lower_char] leaves each of its code points as it
    is. *)
Theorem derive_function_name_charset (route_name : string) :
  (exists stem, Dag.derive_function_name route_name = (stem ++ "_request")%string)
  /\ PyStr.mem_char " " (Dag.derive_function_name route_name) = false
  /\ PyStr.mem_char "-" (Dag.derive_function_name route_name) = false
  /\ PyStr.mem_char "/" (Dag.derive_function_name route_name) = false
  /\ forall c, PyStr.mem_char c (Dag.derive_function_name route_name) = true ->
               PyStr.lower_char c = c.
Proof.
  unfold Dag.derive_function_name.
  set (replaced := PyStr.replace_char "/" ""
                     (PyStr.replace_char "-" "_" (PyStr.replace_char " " "_" route_name))).
  assert (Hsp : PyStr.mem_char " " replaced = false).
  { unfold replaced. apply mem_char_replace_other; [ reflexivity | ].
    apply mem_char_replace_other; [ reflexivity | ].
    apply mem_char_replace_same. reflexivity. }
  assert (Hhy : PyStr.mem_char "-" replaced = false).
  { unfold replaced. apply mem_char_replace_other; [ reflexivity | ].
    apply mem_char_replace_same. reflexivity. }
  assert (Hsl : PyStr.mem_char "/" replaced = false).
  { unfold replaced. apply mem_char_replace_same. reflexivity. }
  assert (Hstrip : forall c, PyStr.mem_char c replaced = false ->
                             PyStr.mem_char c (PyStr.strip replaced) = false).
  { intros c H. unfold PyStr.strip. apply mem_char_rstrip, mem_char_lstrip, H. }
  split; [ eexists; reflexivity | ].
  split; [ rewrite mem_char_app, mem_char_lower; simpl; auto | ].
  split; [ rewrite mem_char_app, mem_char_lower; simpl; auto | ].
  split; [ rewrite mem_char_app, mem_char_lower; simpl; auto | ].
  intros c Hc. rewrite mem_char_app in Hc. apply orb_true_iff in Hc.
  destruct Hc as [Hc | Hc].
  - eapply lower_is_lower, Hc.
  - simpl in Hc. repeat rewrite orb_true_iff in Hc.
    repeat (destruct Hc as [Hc | Hc];
            [ apply Ascii.eqb_eq in Hc; subst c; reflexivity | ]).
    discriminate.
Qed.

(** ** The driver: failures on the way down *)

Lemma for_each_app {Database : Type}
  (body : Agent.World Database -> Agent.Function -> result Agent.Function * Agent.World Database)
  (pre post : list Agent.Function) :
  forall w w',
    Agent.for_each body w pre = (None, w') ->
    Agent.for_each body w (pre ++ post) = Agent.for_each body w' post.
Proof.
  induction pre as [| c pre IH]; intros w w' H.
  - simpl in H. injection H as <-. reflexivity.
  - simpl in *. destruct (body w c) as [[r | e] w1]; [ | discriminate ].
    apply IH, H.
Qed.

(** X16: a failure below stops the loop over the children. When the guard
    lets the call through, the oracle answers with [rf], the children of
    [rf] before [child] are created, and the creation of [child] raises [e],
    then the call raises [e] too, in the world the failing child left: the
    later children [post] are not created and [rf] is not returned. *)
Theorem recursive_create_function_child_failure
  {Identifiers APIRouteSpec Database : Type} (limit : Z)
  (invoke : Agent.World Database -> Identifiers -> Agent.InvokeParams APIRouteSpec ->
            result Agent.Function * Agent.World Database)
  (ids : Identifiers) (route_description : string) (api_route : APIRouteSpec)
  (fuel : nat) (depth : Z) (w w1 w2 w3 : Agent.World Database)
  (function_def rf child : Agent.Function) (pre post : list Agent.Function) (e : exn) :
  let rcf := Agent.recursive_create_function limit invoke in
  (depth <= limit)%Z ->
  enough_fuel limit depth <= fuel ->
  invoke w ids (Agent.invoke_params w route_description function_def api_route)
  = (Ok rf, w1) ->
  Agent.children_of rf = pre ++ child :: post ->
  Agent.for_each
    (fun w0 c => rcf fuel w0 ids route_description c api_route (depth + 1)%Z) w1 pre
  = (None, w2) ->
  rcf fuel w2 ids route_description child api_route (depth + 1)%Z = (Raise e, w3) ->
  rcf fuel w ids route_description function_def api_route depth = (Raise e, w3).
Proof.
  intros rcf Hd Hfuel Hinv Hch Hpre Hchild.
  assert (Hsame : forall w0 c,
             Agent.recursive_create_function limit invoke (Nat.pred fuel) w0 ids
               route_description c api_route (depth + 1)%Z
             = rcf fuel w0 ids route_description c api_route (depth + 1)%Z).
  { intros w0 c. apply recursive_create_function_fuel; unfold enough_fuel in *; lia. }
  destruct fuel as [| fuel']; [ unfold enough_fuel in Hfuel; lia | ].
  change (Nat.pred (S fuel')) with fuel' in Hsame.
  unfold rcf at 1. cbn [Agent.recursive_create_function].
  destruct (depth >? limit)%Z eqn:Hg.
  { rewrite Z.gtb_ltb in Hg. apply Z.ltb_lt in Hg. lia. }
  rewrite Hinv, Hch.
  rewrite (for_each_ext _ _ _ Hsame).
  rewrite (for_each_app _ pre (child :: post) w1 w2 Hpre).
  cbn [Agent.for_each]. rewrite Hchild. reflexivity.
Qed.

Lemma recursive_create_function_child_failure_witness :
  Agent.recursive_create_function 3 picky_oracle 5 fresh_world tt "goal" (stub "root") tt 0%Z
  = (Raise OracleOutputInvalid,
     {| Agent.generated_function_defs :=
          [Agent.mkFunctionDef "root" ""; Agent.mkFunctionDef "a" ""];
        Agent.database := tt |}).
Proof.
  apply (recursive_create_function_child_failure 3 picky_oracle tt "goal" tt 5 0%Z
           fresh_world
           {| Agent.generated_function_defs := [Agent.mkFunctionDef "root" ""];
              Agent.database := tt |}
           {| Agent.generated_function_defs :=
                [Agent.mkFunctionDef "root" ""; Agent.mkFunctionDef "a" ""];
              Agent.database := tt |}
           {| Agent.generated_function_defs :=
                [Agent.mkFunctionDef "root" ""; Agent.mkFunctionDef "a" ""];
              Agent.database := tt |}
           (stub "root")
           (Agent.mkFunction "" "root" "" (Some [stub "a"; stub "b"; stub "c"]))
           (stub "b") [stub "a"] [stub "c"] OracleOutputInvalid).
  - lia.
  - vm_compute. lia.
  - reflexivity.
  - reflexivity.
  - reflexivity.
  - reflexivity.
Defined.

(** X17: [develop_route] creates the children of the route at depth 0, one
    level below the route's own function. Against an oracle that always
    succeeds and always declares one child, and with a ceiling [limit] of
    at least -1, the route's function is generated, then [limit + 1] further
    functions one below the other, and the next call raises the
    recursion-limit error, which ends [develop_route]: with the default
    ceiling 3 the oracle is invoked five times. *)
Theorem develop_route_depth_budget
  {Identifiers APIRouteSpec Database : Type} (limit : Z)
  (invoke : Agent.World Database -> Identifiers -> Agent.InvokeParams APIRouteSpec ->
            result Agent.Function * Agent.World Database)
  (ids : Identifiers) (route_description func_name : string) (api_route : APIRouteSpec)
  (fuel : nat) (w : Agent.World Database) :
  one_child_oracle invoke ids ->
  (-1 <= limit)%Z ->
  Z.to_nat (limit + 1) < fuel ->
  exists rf w1 child w' f',
    invoke (fst (route_request w route_description func_name api_route)) ids
           (snd (route_request w route_description func_name api_route))
    = (Ok rf, w1)
    /\ Agent.children_of rf = [child]
    /\ chain invoke ids route_description api_route (Z.to_nat (limit + 1)) w1 child w' f'
    /\ Agent.develop_route limit invoke fuel w ids route_description func_name api_route
       = (Raise RecursionLimitExceeded, w').
Proof.
  intros Horacle Hlimit Hfuel.
  destruct (Horacle (fst (route_request w route_description func_name api_route))
                    (snd (route_request w route_description func_name api_route)))
    as [rf [w1 [child [Hinv Hch]]]].
  destruct (one_child_descent limit invoke ids route_description api_route
              (Z.to_nat (limit + 1)) Horacle w1 child 0%Z ltac:(lia))
    as [w' [f' [Hchain Hrun]]].
  exists rf, w1, child, w', f'.
  split; [ exact Hinv | ]. split; [ exact Hch | ]. split; [ exact Hchain | ].
  unfold Agent.develop_route. unfold route_request in Hinv. cbn [fst snd] in Hinv.
  rewrite Hinv, Hch. cbn [Agent.for_each]. rewrite (Hrun fuel Hfuel). reflexivity.
Qed.

Lemma develop_route_depth_budget_witness :
  exists rf w1 child w' f',
    prime_oracle (fst (route_request fresh_world "goal" "f" tt)) tt
                 (snd (route_request fresh_world "goal" "f" tt))
    = (Ok rf, w1)
    /\ Agent.children_of rf = [child]
    /\ chain prime_oracle tt "goal" tt 4 w1 child w' f'
    /\ Agent.develop_route 3 prime_oracle 5 fresh_world tt "goal" "f" tt
       = (Raise RecursionLimitExceeded, w').
Proof.
  apply (develop_route_depth_budget 3 prime_oracle tt "goal" "f" tt 5 fresh_world
           prime_oracle_one_child).
  - lia.
  - vm_compute. lia.
Defined.

(** ** The further properties on the concrete data *)

Lemma graph_start_nonempty : NX.number_of_nodes graph_start <> 0.
Proof. discriminate. Qed.

Lemma graph_double_nonempty : NX.number_of_nodes graph_double <> 0.
Proof. discriminate. Qed.

Lemma graph_two_sources_nonempty : NX.number_of_nodes graph_two_sources <> 0.
Proof. discriminate. Qed.

Lemma wirable_double : wirable graph_two_sources double_node.
Proof.
  split.
  - repeat constructor. intros [].
  - intros key [<- | []]. exists "request_node", start_node.
    split; [ left; reflexivity | ].
    exists [param_x], param_x. split; [ reflexivity | ].
    split; [ left; reflexivity | reflexivity ].
Qed.

Lemma wirable_loop : wirable graph_double loop_node.
Proof.
  split.
  - repeat constructor. intros [].
  - intros key [<- | []]. exists "double", double_node.
    split; [ right; left; reflexivity | ].
    exists [param_y], param_y. split; [ reflexivity | ].
    split; [ left; reflexivity | reflexivity ].
Qed.

Lemma graph_double_wf : wf graph_double.
Proof. apply wfb_wf. reflexivity. Qed.

Lemma graph_double_acyclic : acyclic graph_double.
Proof. apply is_dag_true_acyclic; [ exact graph_double_wf | reflexivity ]. Qed.

Lemma graph_route_fresh : built_fresh graph_route.
Proof.
  unfold graph_route, graph_double, graph_start.
  apply fresh_add; [ apply fresh_add; [ apply fresh_add; [ apply fresh_empty | ] | ] | ].
  - intros [].
  - vm_compute. intros [H | []]. discriminate.
  - vm_compute. intros [H | [H | []]]; discriminate.
Qed.

Lemma add_node_duplicate_input_witness :
  Dag.add_node graph_start "sum" twice_x_node = (Raise MissingDependency, graph_start).
Proof.
  apply (add_node_duplicate_input graph_start "sum" twice_x_node graph_start_nonempty).
  intros Hnd. vm_compute in Hnd. inversion Hnd as [| a l Hnotin _].
  apply Hnotin. left. reflexivity.
Defined.

Lemma add_node_wires_last_producer_witness :
  has_edge (snd (Dag.add_node graph_two_sources "double" double_node))
           "second_source" "double"
  /\ ~ has_edge (snd (Dag.add_node graph_two_sources "double" double_node))
                "request_node" "double".
Proof.
  split.
  - apply (add_node_wires_last_producer graph_two_sources "double" double_node
             graph_two_sources_nonempty wirable_double "second_source" "double").
    right. split; [ reflexivity | ].
    exists "x: int". split; [ left; reflexivity | reflexivity ].
  - intros H.
    apply (add_node_wires_last_producer graph_two_sources "double" double_node
             graph_two_sources_nonempty wirable_double "request_node" "double") in H.
    destruct H as [[e [[] _]] | [_ [key [[<- | []] Hl]]]].
    vm_compute in Hl. discriminate.
Defined.

Lemma add_node_fresh_keeps_acyclic_witness :
  acyclic (snd (Dag.add_node graph_double "response_node" end_node)).
Proof.
  apply (add_node_fresh_keeps_acyclic graph_double "response_node" end_node
           graph_double_wf).
  - vm_compute. intros [H | [H | []]]; discriminate.
  - exact graph_double_acyclic.
Defined.

Lemma add_node_self_provider_cycle_witness :
  fst (Dag.add_node graph_double "double" loop_node) = Ok true
  /\ has_cycle (snd (Dag.add_node graph_double "double" loop_node)).
Proof.
  apply (add_node_self_provider_cycle graph_double "double" loop_node "y: int"
           graph_double_nonempty wirable_loop).
  - left. reflexivity.
  - reflexivity.
Defined.

Lemma fresh_names_give_dag_witness :
  acyclic graph_route /\ NX.is_directed_acyclic_graph graph_route = Ok true.
Proof. apply (fresh_names_give_dag graph_route graph_route_fresh). Defined.

Lemma refactor_imports_raises_iff_witness :
  (exists out, Dag.refactor_imports scattered_imports = Ok out)
  /\ Dag.refactor_imports "from operator import mul  # import the product"
     = Raise UnpackError.
Proof.
  split.
  - apply (proj1 (refactor_imports_raises_iff scattered_imports)). reflexivity.
  - apply (proj2 (refactor_imports_raises_iff
                    "from operator import mul  # import the product")).
    reflexivity.
Defined.

Lemma refactor_imports_layout_witness :
  exists imports,
    "from a import b
import os
import sys

x = 1"%string
    = (PyStr.join Dag.newline imports ++ Dag.newline ++ Dag.newline
       ++ PyStr.join Dag.newline
            (filter is_other_line (PyStr.split Dag.newline scattered_imports)))%string
    /\ ascending imports
    /\ forall line,
         In line (PyStr.split Dag.newline scattered_imports) ->
         is_import_line line = true -> In line imports.
Proof.
  apply (refactor_imports_layout scattered_imports). reflexivity.
Defined.

Lemma refactor_imports_without_imports_witness :
  Dag.refactor_imports "x = 1" = Ok (Dag.newline ++ Dag.newline ++ "x = 1")%string.
Proof.
  apply (refactor_imports_without_imports "x = 1"). reflexivity.
Defined.

Lemma generate_requirements_txt_known_packages_witness :
  Dag.generate_requirements_txt ([requests_2_0] ++ [requests_2_1; requests_2_0])
  = Dag.generate_requirements_txt [requests_2_0].
Proof.
  apply (generate_requirements_txt_known_packages [requests_2_0]
           [requests_2_1; requests_2_0]).
  intros p [<- | [<- | []]]; left; reflexivity.
Defined.

Lemma compile_graph_manifest_witness :
  exists order,
    NX.topological_sort graph_route = Ok order
    /\ Permutation order (NX.names graph_route)
    /\ Dag.generate_requirements_txt (flat_map (packages_at (NX.nodes graph_route)) order)
       = Ok (requirements_txt compiled_route)
    /\ endpoint_name compiled_route = ep_endpoint_name demo_route.
Proof.
  apply (compile_graph_manifest demo_emitters lenient_formatters graph_route
           (snd (Dag.compile_graph demo_emitters lenient_formatters graph_route demo_route))
           demo_route compiled_route graph_route_wf).
  reflexivity.
Defined.

Lemma compile_graph_assembled_source_witness :
  exists order source,
    NX.topological_sort graph_route = Ok order
    /\ Dag.refactor_imports
         (preamble (NX.nodes graph_route) order ++ Dag.newline
          ++ script (trace demo_emitters (function_name compiled_route)
                       (Dag.initial_walk graph_route) order))%string
       = Ok source
    /\ Dag.format_and_sort_code lenient_formatters source = Ok (fd_code compiled_route).
Proof.
  apply (compile_graph_assembled_source demo_emitters lenient_formatters graph_route
           (snd (Dag.compile_graph demo_emitters lenient_formatters graph_route demo_route))
           demo_route compiled_route graph_route_wf).
  reflexivity.
Defined.

Lemma check_param_type_lenient_parsing_witness :
  (forall rest, Params.check_param_type (overlong_tag "list" "int" rest)
                = Ok (overlong_tag "list" "int" rest))
  /\ (forall n, Params.check_param_type (unbalanced_tag "list" "int" n)
                = Ok (unbalanced_tag "list" "int" n)).
Proof.
  apply (check_param_type_lenient_parsing "list" "int").
  - left. reflexivity.
  - apply mem_In. reflexivity.
Defined.

(** ** Compiling again *)

Lemma visit_generation_ext (g g' : NX.DiGraph) :
  NX.names g' = NX.names g -> NX.edges g' = NX.edges g ->
  forall l st, NX.visit_generation g' st l = NX.visit_generation g st l.
Proof.
  intros Hn He. induction l as [| n l IH]; intros st; [ reflexivity | ].
  cbn [NX.visit_generation].
  assert (Hv : NX.visit_node g' st n = NX.visit_node g st n).
  { unfold NX.visit_node, NX.has_node, NX.neighbors. rewrite Hn, He. reflexivity. }
  rewrite Hv. unfold bind. destruct (NX.visit_node g st n); [ apply IH | reflexivity ].
Qed.

Lemma generations_loop_ext (g g' : NX.DiGraph) :
  NX.names g' = NX.names g -> NX.edges g' = NX.edges g ->
  forall fuel im z, NX.generations_loop fuel g' im z = NX.generations_loop fuel g im z.
Proof.
  intros Hn He. induction fuel as [| fuel IH]; intros im z.
  - destruct z; reflexivity.
  - destruct z as [| v z]; [ reflexivity | ].
    cbn [NX.generations_loop]. rewrite (visit_generation_ext g g' Hn He).
    unfold bind. destruct (NX.visit_generation g (im, []) (v :: z)) as [st | e];
      [ | reflexivity ].
    rewrite IH. reflexivity.
Qed.

Lemma topological_generations_ext (g g' : NX.DiGraph) :
  NX.names g' = NX.names g -> NX.edges g' = NX.edges g ->
  NX.topological_generations g' = NX.topological_generations g.
Proof.
  intros Hn He. unfold NX.topological_generations.
  assert (Hlen : length (NX.nodes g') = length (NX.nodes g)).
  { unfold NX.names, Dict.keys in Hn.
    rewrite <- (length_map fst (NX.nodes g')), <- (length_map fst (NX.nodes g)), Hn.
    reflexivity. }
  assert (Hdeg : forall v, NX.in_degree g' v = NX.in_degree g v).
  { intros v. unfold NX.in_degree. rewrite He. reflexivity. }
  assert (Him : NX.initial_indegree_map g' = NX.initial_indegree_map g).
  { unfold NX.initial_indegree_map. rewrite Hn.
    rewrite (filter_ext _ (fun v => Nat.ltb 0 (NX.in_degree g v)))
      by (intros v; rewrite Hdeg; reflexivity).
    apply map_ext. intros v. rewrite Hdeg. reflexivity. }
  assert (Hz : NX.initial_zero_indegree g' = NX.initial_zero_indegree g).
  { unfold NX.initial_zero_indegree. rewrite Hn.
    apply filter_ext. intros v. rewrite Hdeg. reflexivity. }
  rewrite Hlen, Him, Hz. apply generations_loop_ext; assumption.
Qed.

Lemma start_role (n : string) :
  role_of n = StartEmission -> PyStr.contains "request" n = true.
Proof.
  unfold role_of. destruct (PyStr.contains "request" n); [ reflexivity | ].
  destruct (PyStr.contains "response" n); discriminate.
Qed.

Lemma alike_fields (x y : Node) (fname : string) :
  set_name x EmptyString = set_name y EmptyString ->
  set_name x fname = set_name y fname /\ required_packages x = required_packages y.
Proof.
  unfold set_name. intros H. injection H as Hc Hi Ho Hp.
  rewrite Hc, Hi, Ho, Hp. auto.
Qed.

(** A visit keeps two states alike, and fails on both or on none. *)
Lemma visit_alike (E : Emitters) (fname : string) (st1 st2 : Dag.walk_state)
  (n : string) :
  walk_alike st1 st2 ->
  match Dag.visit E fname st1 n, Dag.visit E fname st2 n with
  | Ok a, Ok b => walk_alike a b
  | Raise e1, Raise e2 => e1 = e2
  | _, _ => False
  end.
Proof.
  intros [Hmap [Hpy [Hscript [Hreq Hstore]]]].
  pose proof (Hstore n) as Hn. unfold Dag.visit.
  destruct (Dict.get n (Dag.store st1)) as [x |];
    destruct (Dict.get n (Dag.store st2)) as [y |]; simpl in Hn;
    try contradiction; [ | reflexivity ].
  assert (Hset : forall v m,
             alike m (Dict.get m (Dict.set n v (Dag.store st1)))
                     (Dict.get m (Dict.set n v (Dag.store st2)))).
  { intros v m. destruct (string_dec m n) as [-> | Hne].
    - rewrite !get_set_eq. left. reflexivity.
    - rewrite !get_set_ne by exact Hne. apply Hstore. }
  destruct Hn as [-> | [Hrole Hsame]].
  - rewrite Hmap, Hpy, Hscript, Hreq.
    destruct (PyStr.contains "request" n);
      [ | destruct (PyStr.contains "response" n) ];
      unfold walk_alike; cbn [Dag.output_name_map Dag.python_file Dag.graph_script
                                Dag.requirements Dag.store]; auto 10.
  - rewrite (start_role n Hrole).
    destruct (alike_fields x y fname Hsame) as [Hren Hpk].
    rewrite Hmap, Hpy, Hscript, Hreq, Hren, Hpk.
    unfold walk_alike; cbn [Dag.output_name_map Dag.python_file Dag.graph_script
                              Dag.requirements Dag.store]; auto 10.
Qed.

Lemma walk_alike_run (E : Emitters) (fname : string) (order : list string) :
  forall st1 st2,
    walk_alike st1 st2 ->
    fst (Dag.walk E fname st1 order) = fst (Dag.walk E fname st2 order)
    /\ walk_alike (snd (Dag.walk E fname st1 order)) (snd (Dag.walk E fname st2 order)).
Proof.
  induction order as [| n rest IH]; intros st1 st2 Hst.
  - simpl. auto.
  - cbn [Dag.walk]. pose proof (visit_alike E fname st1 st2 n Hst) as Hv.
    destruct (Dag.visit E fname st1 n) as [a | e1];
      destruct (Dag.visit E fname st2 n) as [b | e2]; try contradiction.
    + apply IH, Hv.
    + subst e2. simpl. auto.
Qed.

(** The stored nodes a compilation leaves are alike the ones it found. *)
Lemma compile_graph_leaves_alike (E : Emitters) (F : Formatters) (g : NX.DiGraph)
  (ep : ExecutionPath) :
  NX.names (snd (Dag.compile_graph E F g ep)) = NX.names g
  /\ NX.edges (snd (Dag.compile_graph E F g ep)) = NX.edges g
  /\ forall m, alike m (Dict.get m (NX.nodes (snd (Dag.compile_graph E F g ep))))
                       (Dict.get m (NX.nodes g)).
Proof.
  assert (Hrefl : forall m, alike m (Dict.get m (NX.nodes g)) (Dict.get m (NX.nodes g))).
  { intros m. unfold alike. destruct (Dict.get m (NX.nodes g)); auto. }
  unfold Dag.compile_graph.
  destruct (NX.is_directed_acyclic_graph g) as [[|] | e]; auto.
  destruct (NX.topological_sort g) as [order | e]; auto.
  destruct (Dag.walk E (Dag.derive_function_name (ep_name ep)) (Dag.initial_walk g) order)
    as [r st] eqn:Hwalk.
  destruct (walk_store E _ order (Dag.initial_walk g) r st Hwalk) as [Hkeys Hstore].
  assert (Hgoal : NX.names (Dag.with_store g st) = NX.names g
                  /\ NX.edges (Dag.with_store g st) = NX.edges g
                  /\ forall m, alike m (Dict.get m (NX.nodes (Dag.with_store g st)))
                                       (Dict.get m (NX.nodes g))).
  { split; [ exact Hkeys | ]. split; [ reflexivity | ].
    intros m. cbn [Dag.with_store NX.nodes]. cbn [Dag.initial_walk Dag.store] in *.
    destruct (Dict.get m (NX.nodes g)) as [node |] eqn:Hget.
    - destruct (Hstore m node Hget) as [H | [Hrole H]]; rewrite H.
      + left. reflexivity.
      + right. split; [ exact Hrole | reflexivity ].
    - apply get_None_keys in Hget. rewrite <- Hkeys in Hget.
      apply get_None_keys in Hget. rewrite Hget. exact I. }
  destruct r as [e |]; exact Hgoal.
Qed.

(** X19: the renaming that [compile_graph] leaves in the graph does not
    show in a later compilation: compiling the graph a compilation has left
    behind, for the same route or for another one, gives the outcome that
    compiling the original graph gives.  Every vertex holds a node of its
    own here: a node object shared by two vertices is not modelled. *)
Theorem compile_graph_repeatable (E : Emitters) (F : Formatters) (g : NX.DiGraph)
  (ep1 ep2 : ExecutionPath) :
  fst (Dag.compile_graph E F (snd (Dag.compile_graph E F g ep1)) ep2)
  = fst (Dag.compile_graph E F g ep2).
Proof.
  destruct (compile_graph_leaves_alike E F g ep1) as [Hn [He Hstore]].
  set (g' := snd (Dag.compile_graph E F g ep1)) in *.
  pose proof (topological_generations_ext g g' Hn He) as Hgen.
  unfold Dag.compile_graph, NX.is_directed_acyclic_graph, NX.topological_sort.
  rewrite Hgen. unfold bind.
  destruct (NX.topological_generations g) as [gens | e].
  - assert (Hst : walk_alike (Dag.initial_walk g') (Dag.initial_walk g)).
    { unfold walk_alike, Dag.initial_walk. simpl. auto. }
    destruct (walk_alike_run E (Dag.derive_function_name (ep_name ep2)) (concat gens)
                _ _ Hst) as [Hr [_ [Hpy [Hscript [Hreq _]]]]].
    destruct (Dag.walk E (Dag.derive_function_name (ep_name ep2))
                (Dag.initial_walk g') (concat gens)) as [r1 s1].
    destruct (Dag.walk E (Dag.derive_function_name (ep_name ep2))
                (Dag.initial_walk g) (concat gens)) as [r2 s2].
    simpl in Hr, Hpy, Hscript, Hreq. subst r2.
    destruct r1 as [e |]; [ reflexivity | ].
    simpl. unfold Dag.assemble. rewrite Hpy, Hscript, Hreq. reflexivity.
  - destruct e; reflexivity.
Qed.

(** ** The merged from-imports *)

Lemma imported_from_snoc (done : list string) (line m i : string) :
  imported_from (done ++ [line]) m i
  <-> imported_from done m i
      \/ (is_from_line line = true /\ PyStr.split " import " line = [m; i]).
Proof.
  unfold imported_from. split.
  - intros [l [Hin [Hf Hs]]]. apply in_app_iff in Hin.
    destruct Hin as [Hin | [<- | []]]; [ left; exists l; auto | right; auto ].
  - intros [[l [Hin [Hf Hs]]] | [Hf Hs]].
    + exists l. rewrite in_app_iff. auto.
    + exists line. rewrite in_app_iff. simpl. auto.
Qed.

Lemma set_add_spec (x : string) (s : list string) :
  (NoDup s -> NoDup (Dag.set_add x s))
  /\ forall y, In y (Dag.set_add x s) <-> In y s \/ y = x.
Proof.
  unfold Dag.set_add. destruct (PyStr.mem x s) eqn:Hm.
  - apply mem_In in Hm. split; [ auto | ].
    intros y. split; [ auto | intros [H | ->]; assumption ].
  - apply mem_not_In in Hm. split.
    + intros Hnd. apply NoDup_app; [ exact Hnd | repeat constructor; intros [] | ].
      intros y Hy [<- | []]. contradiction.
    + intros y. rewrite in_app_iff. simpl. intuition.
Qed.

(** One line more keeps the gathered origins in step with the lines
    scanned. *)
Lemma scan_line_gathered (done : list string) (st st' : Dag.import_state)
  (line : string) :
  gathered done (Dag.from_imports st) ->
  Dag.scan_line st line = Ok st' ->
  gathered (done ++ [line]) (Dag.from_imports st').
Proof.
  intros [Hnd [Hitems Hkeys]]. unfold Dag.scan_line.
  change (PyStr.startswith "from " line) with (is_from_line line).
  destruct (is_from_line line) eqn:Hf.
  - destruct (PyStr.split " import " line) as [| m [| i [| x xs]]] eqn:Hs;
      try discriminate.
    intros [= <-]. cbn [Dag.from_imports].
    set (items' := match Dict.get m (Dag.from_imports st) with
                   | Some items => Dag.set_add i items
                   | None => [i]
                   end).
    assert (Hnew : NoDup items'
                   /\ forall i', In i' items' <-> imported_from done m i' \/ i' = i).
    { unfold items'. destruct (Dict.get m (Dag.from_imports st)) as [items |] eqn:Hget.
      - destruct (Hitems m items Hget) as [Hn Hin].
        destruct (set_add_spec i items) as [Hn' Hin'].
        split; [ auto | ]. intros i'. rewrite Hin', Hin. reflexivity.
      - split; [ repeat constructor; intros [] | ].
        intros i'. simpl. split.
        + intros [<- | []]. right. reflexivity.
        + intros [H | ->]; [ | left; reflexivity ].
          apply Hkeys in H. apply get_None_keys in Hget. contradiction. }
    destruct Hnew as [Hn' Hin'].
    split; [ apply nodup_keys_set, Hnd | ]. split.
    + intros m' its Hget. destruct (string_dec m' m) as [-> | Hne].
      * rewrite get_set_eq in Hget. injection Hget as <-.
        split; [ exact Hn' | ]. intros i'.
        rewrite Hin', imported_from_snoc. split.
        -- intros [H | ->]; [ left; exact H | right; auto ].
        -- intros [H | [_ H]]; [ left; exact H | right; congruence ].
      * rewrite get_set_ne in Hget by exact Hne.
        destruct (Hitems m' its Hget) as [Hn Hin].
        split; [ exact Hn | ]. intros i'.
        rewrite Hin, imported_from_snoc. split; [ auto | ].
        intros [H | [_ H]]; [ exact H | ]. rewrite Hs in H.
        injection H as H1 H2. symmetry in H1. contradiction.
    + intros m' i' H. apply imported_from_snoc in H. apply In_keys_set.
      destruct H as [H | [_ H]]; [ right; apply (Hkeys m' i' H) | ].
      left. congruence.
  - assert (Hsame : gathered (done ++ [line]) (Dag.from_imports st)).
    { split; [ exact Hnd | ]. split.
      - intros m items Hget. destruct (Hitems m items Hget) as [Hn Hin].
        split; [ exact Hn | ]. intros i. rewrite Hin, imported_from_snoc.
        split; [ auto | intros [H | [H _]]; [ exact H | congruence ] ].
      - intros m i H. apply imported_from_snoc in H.
        destruct H as [H | [H _]]; [ apply (Hkeys m i H) | congruence ]. }
    destruct (PyStr.startswith "import " line); intros [= <-]; exact Hsame.
Qed.

Lemma scan_lines_gathered (rest : list string) :
  forall done st st',
    gathered done (Dag.from_imports st) ->
    Dag.scan_lines st rest = Ok st' ->
    gathered (done ++ rest) (Dag.from_imports st').
Proof.
  induction rest as [| line rest IH]; intros done st st' Hg Hrun.
  - simpl in Hrun. injection Hrun as <-. rewrite app_nil_r. exact Hg.
  - simpl in Hrun. unfold bind in Hrun.
    destruct (Dag.scan_line st line) as [st1 | e] eqn:Hstep; [ | discriminate ].
    change (done ++ line :: rest) with (done ++ [line] ++ rest).
    rewrite app_assoc. apply (IH _ st1 st'); [ | exact Hrun ].
    apply (scan_line_gathered done st st1 line Hg Hstep).
Qed.

(** X21: when [refactor_imports] returns, the import block is the sorted
    list of the plain [import] lines of the source, each once, and of one
    consolidated line per origin of the [from] lines, which lists, once each
    and in ascending order, the texts that follow [ import ] on the lines of
    that origin.  The texts are compared whole: a line that imports several
    names counts as one text, so a name can occur twice in the consolidated
    line. *)
Theorem refactor_imports_merges (file_content out : string) :
  Dag.refactor_imports file_content = Ok out ->
  exists plain merged,
    out = (PyStr.join Dag.newline (PyStr.sorted (plain ++ map from_line merged))
           ++ Dag.newline ++ Dag.newline
           ++ PyStr.join Dag.newline
                (filter is_other_line (PyStr.split Dag.newline file_content)))%string
    /\ NoDup plain
    /\ (forall l, In l plain
                  <-> In l (PyStr.split Dag.newline file_content)
                      /\ is_import_line l = true)
    /\ gathered (PyStr.split Dag.newline file_content) merged.
Proof.
  unfold Dag.refactor_imports. intros Hrun.
  destruct (forallb good_line (PyStr.split Dag.newline file_content)) eqn:Hall.
  - destruct (scan_lines_good (PyStr.split Dag.newline file_content)
                (Dag.mkImportState [] [] []) Hall) as [st [Hscan [Hbody [Himp Hnd]]]].
    rewrite Hscan in Hrun. simpl in Hrun. injection Hrun as <-.
    exists (Dag.import_lines st), (Dag.from_imports st).
    split; [ rewrite Hbody; reflexivity | ].
    split; [ apply Hnd; constructor | ].
    split.
    + intros l. rewrite Himp. simpl. tauto.
    + apply (scan_lines_gathered _ [] (Dag.mkImportState [] [] []) st); [ | exact Hscan ].
      split; [ constructor | ]. split; [ intros m items H; discriminate | ].
      intros m i [l [[] _]].
  - rewrite (scan_lines_bad _ (Dag.mkImportState [] [] []) Hall) in Hrun. discriminate.
Qed.

Lemma refactor_imports_merges_witness :
  exists plain merged,
    "from a import b
import os
import sys

x = 1"%string
    = (PyStr.join Dag.newline (PyStr.sorted (plain ++ map from_line merged))
       ++ Dag.newline ++ Dag.newline
       ++ PyStr.join Dag.newline
            (filter is_other_line (PyStr.split Dag.newline scattered_imports)))%string
    /\ NoDup plain
    /\ (forall l, In l plain
                  <-> In l (PyStr.split Dag.newline scattered_imports)
                      /\ is_import_line l = true)
    /\ gathered (PyStr.split Dag.newline scattered_imports) merged.
Proof.
  apply (refactor_imports_merges scattered_imports). reflexivity.
Defined.

(** The texts after [ import ] are merged whole: [b, c] and [c] are two
    texts, and the name [c] is listed twice. *)
Lemma refactor_imports_keeps_import_texts :
  Dag.refactor_imports "from a import b, c
from a import c"
  = Ok "from a import b, c, c

"%string.
Proof. reflexivity. Qed.

(** ** The errors of a compilation *)

Lemma refactor_imports_error (file_content : string) (e : exn) :
  Dag.refactor_imports file_content = Raise e -> e = UnpackError.
Proof.
  unfold Dag.refactor_imports.
  destruct (forallb good_line (PyStr.split Dag.newline file_content)) eqn:Hall.
  - destruct (scan_lines_good (PyStr.split Dag.newline file_content)
                (Dag.mkImportState [] [] []) Hall) as [st [Hscan _]].
    rewrite Hscan. simpl. discriminate.
  - rewrite (scan_lines_bad _ (Dag.mkImportState [] [] []) Hall). simpl. congruence.
Qed.

(** X20: on a well-formed graph [compile_graph] raises nothing but the
    not-a-DAG error, and then the graph has a cycle and is handed back as it
    was, or, on an acyclic graph, the unpacking error of [refactor_imports]
    or an error of the formatters: no lookup of a vertex fails, and the
    sort raises nothing. *)
Theorem compile_graph_errors (E : Emitters) (F : Formatters) (g : NX.DiGraph)
  (ep : ExecutionPath) (e : exn) :
  wf g ->
  fst (Dag.compile_graph E F g ep) = Raise e ->
  (e = NotADAG /\ has_cycle g /\ snd (Dag.compile_graph E F g ep) = g)
  \/ (acyclic g
      /\ (e = UnpackError
          \/ exists source, Dag.format_and_sort_code F source = Raise e)).
Proof.
  intros Hwf Hrun.
  destruct (topological_generations_outcome g Hwf) as [[gens [_ Hgood]] | [_ Hcyc]].
  - right. pose proof (topological_order_acyclic g _ Hwf Hgood) as Hac.
    split; [ exact Hac | ].
    destruct (compile_graph_acyclic E F g ep Hwf Hac)
      as [order [st [_ [_ [_ [_ Hc]]]]]].
    rewrite Hc in Hrun. cbn [fst] in Hrun. unfold finish, bind in Hrun.
    destruct (Dag.refactor_imports (Dag.assemble st)) as [source | e1] eqn:Hsrc.
    + right. exists source.
      destruct (Dag.format_and_sort_code F source) as [formatted | e2];
        [ discriminate | injection Hrun as <-; reflexivity ].
    + left. injection Hrun as <-. apply (refactor_imports_error _ _ Hsrc).
  - left. unfold Dag.compile_graph in *. rewrite (is_dag_cycle g Hwf Hcyc) in *.
    cbn [fst snd] in *. injection Hrun as <-. auto.
Qed.

Lemma compile_graph_errors_witness :
  (UnpackError = NotADAG /\ has_cycle graph_commented
   /\ snd (Dag.compile_graph demo_emitters lenient_formatters graph_commented demo_route)
      = graph_commented)
  \/ (acyclic graph_commented
      /\ (UnpackError = UnpackError
          \/ exists source,
               Dag.format_and_sort_code lenient_formatters source = Raise UnpackError)).
Proof.
  apply (compile_graph_errors demo_emitters lenient_formatters graph_commented demo_route
           UnpackError graph_commented_wf).
  reflexivity.
Defined.
